(** * beets.autotag.match: matching local metadata against canonical records

    A shallow embedding of [beets/autotag/match.py] and the properties
    of its matching pipeline.

    Conventions of the embedding:
    - a Python [float] is the rational it stands for ([Qc]): comparisons
      of floats are exact, and the subtraction of two scores rounds to the
      nearest double as [float.__sub__] does ([Float.sub]);
    - a Python [dict] whose iteration order is observable is an
      insertion-ordered association list ([dict]); configuration views that
      are only looked up are [gmap]s; a Python [set] is a [gset] when only
      membership matters;
    - objects hashed by identity ([Item], [TrackInfo]) carry their identity
      ([Item.oid], [TrackInfo.oid]), so that equality of records is equality
      of objects;
    - a call that can raise returns a [res]. *)

From Stdlib Require Import ZArith QArith Qcanon Qcabs Qround Qpower Lqa List
  String Ascii Lia Bool Permutation Sorted OrderedTypeEx.
From Stdlib Require Floats.SpecFloat.
From stdpp Require Import base option list gmap strings numbers.

Local Open Scope string_scope.
Local Open Scope Z_scope.

(* ===================================================================== *)
(** * Python preliminaries *)
(* ===================================================================== *)

(** Exceptions raised by the modelled code. *)
Inductive exn : Type :=
| AssertionError
| ValueError
| IndexError
| TypeError
| KeyError
| AttributeError.

(** The outcome of a call: a value, or a raised exception. *)
Inductive res (A : Type) : Type :=
| Ok (a : A)
| Raise (e : exn).
Arguments Ok {A} a.
Arguments Raise {A} e.

Definition res_bind {A B} (r : res A) (k : A -> res B) : res B :=
  match r with
  | Ok a => k a
  | Raise e => Raise e
  end.

#[global] Instance res_ret : MRet res := fun _ a => Ok a.
#[global] Instance res_mbind : MBind res := fun _ _ k r => res_bind r k.

Definition is_ok {A} (r : res A) : bool :=
  match r with Ok _ => true | Raise _ => false end.

(** Dynamically typed values: what [item[field]] and [getattr(info, name)]
    return. *)
Inductive Value : Type :=
| VNone
| VBool (b : bool)
| VInt (n : Z)
| VFloat (q : Qc)
| VStr (s : string).

#[global] Instance Value_eq_dec : EqDecision Value.
Proof. solve_decision. Defined.

Definition VOptInt (o : option Z) : Value :=
  match o with Some n => VInt n | None => VNone end.
Definition VOptStr (o : option string) : Value :=
  match o with Some s => VStr s | None => VNone end.

(** Truth value testing ([bool(v)]). *)
Definition truthy (v : Value) : bool :=
  match v with
  | VNone => false
  | VBool b => b
  | VInt n => negb (n =? 0)
  | VFloat q => negb (bool_decide (q = 0%Qc))
  | VStr s => negb (bool_decide (s = ""))
  end.

Definition truthy_str (s : string) : bool := truthy (VStr s).
Definition truthy_int (n : Z) : bool := truthy (VInt n).
Definition truthy_opt_str (o : option string) : bool := truthy (VOptStr o).
Definition truthy_opt_int (o : option Z) : bool := truthy (VOptInt o).

(** [str.lower()], on ASCII strings. *)
Definition lower_ascii (c : ascii) : ascii :=
  let n := nat_of_ascii c in
  if (Nat.leb 65 n && Nat.leb n 90)%bool then ascii_of_nat (n + 32) else c.

Fixpoint lower (s : string) : string :=
  match s with
  | EmptyString => EmptyString
  | String c s' => String (lower_ascii c) (lower s')
  end.

(** The number a value stands for in a comparison ([bool] is an [int]). *)
Definition as_number (v : Value) : option Qc :=
  match v with
  | VBool b => Some (if b then 1%Qc else 0%Qc)
  | VInt n => Some (Q2Qc (inject_Z n))
  | VFloat q => Some q
  | _ => None
  end.

(** [a == b] *)
Definition py_eq (a b : Value) : bool :=
  match as_number a, as_number b with
  | Some x, Some y => bool_decide (x = y)
  | _, _ => bool_decide (a = b)
  end.

(** [a < b]: numbers with numbers, strings with strings (by code point);
    anything else, [None] included, raises [TypeError]. *)
Definition py_lt (a b : Value) : res bool :=
  match as_number a, as_number b with
  | Some x, Some y => Ok (bool_decide (x < y)%Qc)
  | _, _ =>
      match a, b with
      | VStr s, VStr t => Ok (String.ltb s t)
      | _, _ => Raise TypeError
      end
  end.

(** [a < b] on tuples: the first position where the elements are not [==]
    decides; without such a position the shorter tuple is the smaller. *)
Fixpoint tuple_lt (a b : list Value) : res bool :=
  match a, b with
  | [], [] => Ok false
  | [], _ :: _ => Ok true
  | _ :: _, [] => Ok false
  | x :: a', y :: b' => if py_eq x y then tuple_lt a' b' else py_lt x y
  end.

(** [x in xs], which compares with [==]. *)
Definition py_in (x : Value) (xs : list Value) : bool := existsb (py_eq x) xs.

(** [l[i]] for a Python index: negative indices count from the end. *)
Definition py_index {A} (l : list A) (i : Z) : res A :=
  let n := Z.of_nat (List.length l) in
  let j := if i <? 0 then i + n else i in
  if (0 <=? j) && (j <? n) then
    match nth_error l (Z.to_nat j) with
    | Some x => Ok x
    | None => Raise IndexError
    end
  else Raise IndexError.

(** ** Sorting with a key *)

Section Sort.
Context {A : Type} (key : A -> list Value).

(** The comparison [list.sort] makes between two elements. *)
Definition key_lt (x y : A) : bool :=
  match tuple_lt (key x) (key y) with
  | Ok b => b
  | Raise _ => false
  end.

(** [x] may stay ahead of [y]: [y] is not strictly smaller. *)
Definition key_le (x y : A) : Prop := key_lt y x = false.

Definition comparable (x y : A) : bool :=
  is_ok (tuple_lt (key x) (key y)) && is_ok (tuple_lt (key y) (key x)).

Fixpoint pairwise_comparable (l : list A) : bool :=
  match l with
  | [] => true
  | x :: l' => forallb (comparable x) l' && pairwise_comparable l'
  end.

(** Stable insertion: [x] goes before the first element it is strictly
    smaller than. *)
Fixpoint insert_sorted (x : A) (l : list A) : list A :=
  match l with
  | [] => [x]
  | y :: l' => if key_lt x y then x :: y :: l' else y :: insert_sorted x l'
  end.

Definition stable_sort (l : list A) : list A :=
  fold_left (fun acc x => insert_sorted x acc) l [].

(** [l.sort(key=key)]: a stable sort.  Ordering two keys can raise
    [TypeError]; with keys made of an optional number and an optional
    string, as here, a list holding two keys that cannot be ordered makes
    the sort fail, whatever the comparisons it chooses to make. *)
Definition py_sort (l : list A) : res (list A) :=
  if pairwise_comparable l then Ok (stable_sort l) else Raise TypeError.
End Sort.

(* ===================================================================== *)
(** * Insertion-ordered dictionaries *)
(* ===================================================================== *)

Section Dict.
Context {K V : Type} `{EqDecision K}.

Definition dict : Type := list (K * V).

(** [d.get(k)] *)
Fixpoint dict_get (d : dict) (k : K) : option V :=
  match d with
  | [] => None
  | (k', v) :: d' => if decide (k' = k) then Some v else dict_get d' k
  end.

(** [k in d] *)
Definition dict_mem (d : dict) (k : K) : bool :=
  match dict_get d k with Some _ => true | None => false end.

(** [d[k] = v]: an existing key keeps its position, a new key goes last. *)
Fixpoint dict_set (d : dict) (k : K) (v : V) : dict :=
  match d with
  | [] => [(k, v)]
  | (k', v') :: d' =>
      if decide (k' = k) then (k', v) :: d' else (k', v') :: dict_set d' k v
  end.

Definition dict_keys (d : dict) : list K := map fst d.
Definition dict_values (d : dict) : list V := map snd d.
End Dict.
Arguments dict : clear implicits.

(* ===================================================================== *)
(** * Recommendation *)
(* ===================================================================== *)

(** [class Recommendation(IntEnum)] *)
Inductive Recommendation : Type :=
| none
| low
| medium
| strong.

#[global] Instance Recommendation_eq_dec : EqDecision Recommendation.
Proof. solve_decision. Defined.

Definition Recommendation_value (r : Recommendation) : Z :=
  match r with
  | none => 0
  | low => 1
  | medium => 2
  | strong => 3
  end.

(** The order of the enumeration, [none < low < medium < strong]. *)
Definition rec_le (a b : Recommendation) : Prop :=
  Recommendation_value a <= Recommendation_value b.

(** [min(a, b)] on an [IntEnum]: the first argument unless the second is
    strictly smaller. *)
Definition rec_min (a b : Recommendation) : Recommendation :=
  if Recommendation_value b <? Recommendation_value a then b else a.

(* ===================================================================== *)
(** * Data model *)
(* ===================================================================== *)

(** [beets.library.Item]: one track as known locally.  Only the fields the
    matching code reads are kept.  [oid] is the identity of the object:
    [Item] defines neither [__eq__] nor [__hash__], so dictionaries and sets
    distinguish items by identity. *)
Module Item.
Record t : Type := mk {
  oid : positive;
  title : string;
  artist : string;
  album : string;
  albumartist : string;
  year : Z;
  disctotal : Z;
  mb_albumid : string;
  mb_trackid : string;
  label : string;
  barcode : string;
  catalognum : string;
  country : string;
  media : string;
  albumdisambig : string;
  track : Z;
  disc : Z;
  length : Qc;
  comp : bool
}.

#[global] Instance eq_dec : EqDecision t.
Proof. solve_decision. Defined.

(** [item[field]]; an unknown field raises [KeyError]. *)
Definition getitem (i : t) (field : string) : res Value :=
  if decide (field = "artist") then Ok (VStr (artist i))
  else if decide (field = "album") then Ok (VStr (album i))
  else if decide (field = "albumartist") then Ok (VStr (albumartist i))
  else if decide (field = "year") then Ok (VInt (year i))
  else if decide (field = "disctotal") then Ok (VInt (disctotal i))
  else if decide (field = "mb_albumid") then Ok (VStr (mb_albumid i))
  else if decide (field = "label") then Ok (VStr (label i))
  else if decide (field = "barcode") then Ok (VStr (barcode i))
  else if decide (field = "catalognum") then Ok (VStr (catalognum i))
  else if decide (field = "country") then Ok (VStr (country i))
  else if decide (field = "media") then Ok (VStr (media i))
  else if decide (field = "albumdisambig") then Ok (VStr (albumdisambig i))
  else if decide (field = "title") then Ok (VStr (title i))
  else if decide (field = "mb_trackid") then Ok (VStr (mb_trackid i))
  else if decide (field = "track") then Ok (VInt (track i))
  else if decide (field = "disc") then Ok (VInt (disc i))
  else if decide (field = "length") then Ok (VFloat (length i))
  else if decide (field = "comp") then Ok (VBool (comp i))
  else Raise KeyError.

(** The value of a field that is known to exist. *)
Definition value (i : t) (field : string) : Value :=
  match getitem i field with
  | Ok v => v
  | Raise _ => VNone
  end.

(** [bool(item)]: the class defines neither [__bool__] nor [__len__], so
    every item is true. *)
Definition truth (i : t) : bool := true.
End Item.

(** [beets.autotag.TrackInfo]: a track as known from the catalog; every
    field is optional.  The class hashes by identity ([oid]). *)
Module TrackInfo.
Record t : Type := mk {
  oid : positive;
  title : option string;
  track_id : option string;
  artist : option string;
  length : option Qc;
  index : option Z;
  medium : option Z;
  medium_index : option Z
}.

#[global] Instance eq_dec : EqDecision t.
Proof. solve_decision. Defined.

(** The same track with another [index], or another [medium]. *)
Definition with_index (t0 : t) (i : option Z) : t :=
  mk (oid t0) (title t0) (track_id t0) (artist t0) (length t0) i
     (medium t0) (medium_index t0).
Definition with_medium (t0 : t) (m : option Z) : t :=
  mk (oid t0) (title t0) (track_id t0) (artist t0) (length t0) (index t0)
     m (medium_index t0).
End TrackInfo.

(** [beets.autotag.AlbumInfo]: a release as known from the catalog. *)
Module AlbumInfo.
Record t : Type := mk {
  tracks : list TrackInfo.t;
  album : option string;
  album_id : option string;
  artist : option string;
  va : bool;
  year : option Z;
  original_year : option Z;
  mediums : option Z;
  country : option string;
  label : option string;
  catalognum : option string;
  media : option string;
  albumdisambig : option string
}.

#[global] Instance eq_dec : EqDecision t.
Proof. solve_decision. Defined.

(** [getattr(info, name)]: [AttributeError] for a name that is not an
    attribute of the record. *)
Definition getattr (a : t) (name : string) : res Value :=
  if decide (name = "album") then Ok (VOptStr (album a))
  else if decide (name = "album_id") then Ok (VOptStr (album_id a))
  else if decide (name = "artist") then Ok (VOptStr (artist a))
  else if decide (name = "va") then Ok (VBool (va a))
  else if decide (name = "year") then Ok (VOptInt (year a))
  else if decide (name = "original_year") then Ok (VOptInt (original_year a))
  else if decide (name = "mediums") then Ok (VOptInt (mediums a))
  else if decide (name = "country") then Ok (VOptStr (country a))
  else if decide (name = "label") then Ok (VOptStr (label a))
  else if decide (name = "catalognum") then Ok (VOptStr (catalognum a))
  else if decide (name = "media") then Ok (VOptStr (media a))
  else if decide (name = "albumdisambig") then Ok (VOptStr (albumdisambig a))
  else Raise AttributeError.
End AlbumInfo.

(** The pairing built by [assign_items]: [Dict[Item, TrackInfo]]. *)
Abbreviation Mapping := (dict Item.t TrackInfo.t).

(* ===================================================================== *)
(** * Configuration *)
(* ===================================================================== *)

(** The configuration values read by the matching code
    ([config["match"][...]], [config["import"]["timid"]],
    [config["musicbrainz"]["extra_tags"]]). *)
Module Config.
Record t : Type := mk {
  strong_rec_thresh : Qc;
  medium_rec_thresh : Qc;
  rec_gap_thresh : Qc;
  max_rec : gmap string Recommendation;
  required : list string;
  ignored : list string;
  preferred_media : list string;
  preferred_countries : list string;
  preferred_original_year : bool;
  track_length_grace : Qc;
  track_length_max : Qc;
  distance_weights : string -> Qc;
  timid : bool;
  extra_tags : list string
}.

(** The same configuration with other ceilings ([match.max_rec]). *)
Definition with_max_rec (c : t) (ceilings : gmap string Recommendation) : t :=
  mk (strong_rec_thresh c) (medium_rec_thresh c) (rec_gap_thresh c) ceilings
     (required c) (ignored c) (preferred_media c) (preferred_countries c)
     (preferred_original_year c) (track_length_grace c) (track_length_max c)
     (distance_weights c) (timid c) (extra_tags c).
End Config.

(* ===================================================================== *)
(** * Distance *)
(* ===================================================================== *)

(** [beets.autotag.hooks.Distance].  [match.py] only imports the class; its
    state and methods are modelled here from what the spec says of them. *)
Module Distance.
(** The contributions, per category key, in insertion order. *)
Abbreviation Penalties := (dict string (list Qc)).

(** Modelled from the spec: the class [hooks.Distance], "a named multiset
    of penalty contributions, each in [0,1], each associated with a category
    key"; a release-level Distance "additionally owns a mapping from
    Canonical Track Record to per-track Distance". *)
Record t : Type := mk {
  _penalties : Penalties;
  tracks : dict TrackInfo.t Penalties
}.

(** [Distance()] *)
Definition new : t := mk [] [].

Definition set_penalties (d : t) (p : Penalties) : t := mk p (tracks d).
Definition set_tracks (d : t) (tr : dict TrackInfo.t Penalties) : t :=
  mk (_penalties d) tr.

Definition Qcsum (l : list Qc) : Qc := fold_right Qcplus 0%Qc l.

(** Sum of the contributions, weighted per category. *)
Definition raw_distance (w : string -> Qc) (p : Penalties) : Qc :=
  Qcsum (map (fun kv => (Qcsum (snd kv) * w (fst kv))%Qc) p).

(** The largest value [raw_distance] can take: every contribution at 1. *)
Definition max_distance (w : string -> Qc) (p : Penalties) : Qc :=
  Qcsum (map (fun kv =>
    (Q2Qc (inject_Z (Z.of_nat (List.length (snd kv)))) * w (fst kv))%Qc) p).

(** Modelled from the spec: the aggregate score, "the normalized sum of
    contributions (equal or weighted per category -- weights come from
    configuration)"; [0] for a Distance without contributions. *)
Definition score (w : string -> Qc) (p : Penalties) : Qc :=
  if decide (max_distance w p = 0%Qc) then 0%Qc
  else (raw_distance w p / max_distance w p)%Qc.

(** [dist.distance] *)
Definition distance (cfg : Config.t) (d : t) : Qc :=
  score (Config.distance_weights cfg) (_penalties d).

(** Modelled from the spec: [dist.keys()] and the iteration over a
    Distance, "every penalty-category key present" in it. *)
Definition keys (d : t) : list string := dict_keys (_penalties d).

(** [min(a, b)] and [max(a, b)] on numbers. *)
Definition Qc_min (a b : Qc) : Qc := if decide (b < a)%Qc then b else a.
Definition Qc_max (a b : Qc) : Qc := if decide (a < b)%Qc then b else a.

(** Clamping of a contribution to [0,1]. *)
Definition clamp01 (q : Qc) : Qc :=
  if decide (q < 0)%Qc then 0%Qc
  else if decide (1 < q)%Qc then 1%Qc else q.

(** [penalties.setdefault(key, []).extend(l)] *)
Definition extend (p : Penalties) (key : string) (l : list Qc) : Penalties :=
  match dict_get p key with
  | Some old => dict_set p key (old ++ l)%list
  | None => dict_set p key l
  end.

(** Modelled from the spec: [dist.add(key, dist)], one contribution under
    [key]; "every contribution is clamped to [0,1]". *)
Definition add (d : t) (key : string) (q : Qc) : t :=
  set_penalties d (extend (_penalties d) key [clamp01 q]).

(** Modelled from the spec: [dist.add_expr(key, expr)], "a binary penalty
    (1.0 or 0.0)". *)
Definition add_expr (d : t) (key : string) (expr : bool) : t :=
  add d key (if expr then 1%Qc else 0%Qc).

(** Modelled from the spec: [dist.add_ratio(key, number1, number2)], the
    ratio [number1 / number2] where "negative results clamp to 0" and the
    ratio is at most 1. *)
Definition add_ratio (d : t) (key : string) (n1 n2 : Qc) : t :=
  let number := Qc_max (Qc_min n1 n2) 0%Qc in
  add d key (if decide (n2 = 0%Qc) then 0%Qc else (number / n2)%Qc).

(** Modelled from the spec: [dist.add_number(key, number1, number2)],
    "compared as a numeric difference": one full penalty per unit of
    difference, a single zero penalty for equal numbers. *)
Definition add_number (d : t) (key : string) (n1 n2 : Z) : t :=
  let diff := Z.abs (n1 - n2) in
  if (diff =? 0)%Z then add d key 0%Qc
  else set_penalties d
         (extend (_penalties d) key (repeat 1%Qc (Z.to_nat diff))).

(** Modelled from the spec: [dist.add_equality(key, value, option)], "an
    exact-match penalty". *)
Definition add_equality (d : t) (key : string) (v1 v2 : Value) : t :=
  add_expr d key (negb (py_eq v2 v1)).

(** The contributions recorded under [key], in the order they were
    made. *)
Definition contributions (d : t) (key : string) : list Qc :=
  default [] (dict_get (_penalties d) key).

(** All the contributions a list of entries holds for [k], in order. *)
Definition entries_for (k : string) (o : Penalties) : list Qc :=
  concat (map snd (List.filter (fun kv => bool_decide (fst kv = k)) o)).

(** Modelled from the spec: [dist.update(other)], which merges the
    contributions of [other] key by key ("merge is additive"). *)
Definition update (d : t) (other : t) : t :=
  set_penalties d
    (fold_left (fun p kv => extend p (fst kv) (snd kv))
               (_penalties other) (_penalties d)).
End Distance.

(* ===================================================================== *)
(** * Floats *)
(* ===================================================================== *)

(** Python's [float] is the format binary64 of IEEE 754.  Every double is a
    rational; an operation on doubles returns the double nearest to the
    exact result, the one with the even significand of two that are equally
    near, and an infinity when that reaches [2^1024]. *)
Module Float.
(** The power [2^k] of two, for any integer [k]. *)
Definition pow2 (k : Z) : Q := ((2 # 1) ^ k)%Q.

(** The nearest integer, the even one of two that are equally near. *)
Definition round_half_even (q : Q) : Z :=
  let f := Qfloor q in
  match (q - inject_Z f ?= 1 # 2)%Q with
  | Lt => f
  | Gt => f + 1
  | Eq => if Z.even f then f else f + 1
  end.

(** The exponent [e] with [2^e <= q < 2^(e+1)], for a positive [q]. *)
Definition binade (q : Q) : Z :=
  let e := Z.log2 (Qnum q) - Z.log2 (Zpos (Qden q)) in
  if Qle_bool (pow2 e) q then e else e - 1.

(** The format binary64: 53 significant bits, exponents from -1022. *)
Definition prec : Z := 53.
Definition emin : Z := -1022.
Definition emax : Z := 1024.

(** The distance between two neighbouring doubles around a positive
    [q]. *)
Definition ulp (q : Q) : Q := pow2 (Z.max (binade q) emin - (prec - 1)).

(** The multiple of [ulp q] nearest to a positive [q]. *)
Definition round_pos (q : Q) : Q :=
  (inject_Z (round_half_even (q / ulp q)) * ulp q)%Q.

(** A float that is not a NaN: a double, or an infinity. *)
Inductive t : Type :=
| finite (q : Qc)
| infinity (negative : bool).

(** Rounding to the nearest double, ties to even; what reaches [2^1024]
    overflows. *)
Definition round (q : Q) : t :=
  match (q ?= 0)%Q with
  | Eq => finite 0%Qc
  | Gt =>
      let r := round_pos q in
      if Qle_bool (pow2 emax) r then infinity false else finite (Q2Qc r)
  | Lt =>
      let r := round_pos (- q) in
      if Qle_bool (pow2 emax) r then infinity true else finite (Q2Qc (- r))
  end.

(** [a - b] on floats. *)
Definition sub (a b : Qc) : t := round (a - b)%Qc.

(** [x >= y] for a float [x] and a number [y]. *)
Definition ge (x : t) (y : Qc) : bool :=
  match x with
  | finite q => bool_decide (y <= q)%Qc
  | infinity negative => negb negative
  end.

(** The order of the floats. *)
Definition le (x y : t) : Prop :=
  match x, y with
  | finite a, finite b => (a <= b)%Qc
  | infinity true, _ => True
  | _, infinity false => True
  | _, _ => False
  end.

(** The double a decimal literal [n/d] denotes. *)
Definition double (n : Z) (d : positive) : Qc :=
  match round (n # d) with
  | finite q => q
  | infinity _ => 0%Qc
  end.

(** The float a [spec_float] of the standard library stands for. *)
Definition of_spec (f : SpecFloat.spec_float) : option t :=
  match f with
  | SpecFloat.S754_zero _ => Some (finite 0%Qc)
  | SpecFloat.S754_infinity s => Some (infinity s)
  | SpecFloat.S754_nan => None
  | SpecFloat.S754_finite s m e =>
      Some (finite (Q2Qc ((if s then -1 else 1) * inject_Z (Zpos m) * pow2 e)%Q))
  end.

Definition eqb (x y : option t) : bool :=
  match x, y with
  | Some (finite a), Some (finite b) => Qeq_bool a b
  | Some (infinity s), Some (infinity s') => Bool.eqb s s'
  | None, None => true
  | _, _ => false
  end.

(** Whether [sub] on two doubles gives what the subtraction [SFsub] of the
    standard library's specification of IEEE 754 gives. *)
Definition agrees (x y : SpecFloat.spec_float) : bool :=
  match of_spec x, of_spec y with
  | Some (finite a), Some (finite b) =>
      eqb (Some (sub a b)) (of_spec (SpecFloat.SFsub prec emax x y))
  | _, _ => false
  end.
End Float.

(* ===================================================================== *)
(** * Matches and proposals *)
(* ===================================================================== *)

(** [hooks.AlbumMatch | hooks.TrackMatch]: the two kinds of candidate. *)
Inductive Match : Type :=
| AlbumMatch (distance : Distance.t) (info : AlbumInfo.t) (mapping : Mapping)
    (extra_items : list Item.t) (extra_tracks : list TrackInfo.t)
| TrackMatch (distance : Distance.t) (info : TrackInfo.t).

(** [match.distance] *)
Definition match_distance (m : Match) : Distance.t :=
  match m with
  | AlbumMatch d _ _ _ _ => d
  | TrackMatch d _ => d
  end.

(** [isinstance(match, hooks.AlbumMatch)] *)
Definition is_AlbumMatch (m : Match) : bool :=
  match m with
  | AlbumMatch _ _ _ _ _ => true
  | TrackMatch _ _ => false
  end.

(** [class Proposal(NamedTuple)] *)
Record Proposal : Type := mkProposal {
  candidates : list Match;
  recommendation : Recommendation
}.

(** Artist signals that indicate "various artists". *)
Definition VA_ARTISTS : list string :=
  [""; "various artists"; "various"; "va"; "unknown"].

(* ===================================================================== *)
(** * plurality *)
(* ===================================================================== *)

(** [beets.util.plurality], which [match.py] only imports. *)
Section Plurality.
Context {A : Type} `{EqDecision A}.

(** Counting one more occurrence of [v]. *)
Definition counter_step (c : dict A nat) (v : A) : dict A nat :=
  dict_set c v (S (default O (dict_get c v))).

(** Occurrence counts, in first-encountered order. *)
Definition counter (objs : list A) : dict A nat :=
  fold_left counter_step objs [].

(** The first entry with the largest count. *)
Fixpoint most_common (best : A * nat) (l : list (A * nat)) : A * nat :=
  match l with
  | [] => best
  | kv :: l' =>
      most_common (if (snd best <? snd kv)%nat then kv else best) l'
  end.

(** Modelled from the spec: [plurality(objs)], "the most frequent value;
    ties broken by first-encountered order", together with its frequency;
    an empty sequence is refused. *)
Definition plurality (objs : list A) : res (A * nat) :=
  match counter objs with
  | [] => Raise ValueError
  | kv :: c => Ok (most_common kv c)
  end.
End Plurality.

(* ===================================================================== *)
(** * The matching functions *)
(* ===================================================================== *)

(** [d[k]] on a configuration or result mapping: [KeyError] when absent. *)
Definition map_getitem {V} (m : gmap string V) (k : string) : res V :=
  match m !! k with
  | Some v => Ok v
  | None => Raise KeyError
  end.

(** [float(n)] *)
Definition Z2Qc (n : Z) : Qc := Q2Qc (inject_Z n).

(** The number [n / d], for decimal constants such as 0.04 = 4 / 100. *)
Definition frac (n d : Z) : Qc := Q2Qc (n # Z.to_pos d).

(** Reading a value as an [int] in arithmetic. *)
Definition as_int (v : Value) : res Z :=
  match v with
  | VInt n => Ok n
  | VBool b => Ok (if b then 1 else 0)
  | _ => Raise TypeError
  end.

(** The release-level fields [current_metadata] summarises. *)
Definition fields : list string :=
  ["artist"; "album"; "albumartist"; "year"; "disctotal"; "mb_albumid";
   "label"; "barcode"; "catalognum"; "country"; "media"; "albumdisambig"].

Section Matching.
(** Configuration. *)
Variable cfg : Config.t.

(** External collaborators: the string-similarity measure
    ([hooks.string_dist]), regular-expression matching ([re], case
    insensitive, anchored at the start), the current year, the plugin
    hooks, the linear-assignment solver ([lap.lapjv], third component of
    its result), the iteration order of a set of objects, and the catalog
    lookups and searches of [hooks]. *)
Variable string_dist : Value -> Value -> Qc.
Variable re_match : string -> string -> bool.
Variable today_year : Z.
Variable plugins_track_distance : Item.t -> TrackInfo.t -> Distance.t.
Variable plugins_album_distance :
  list Item.t -> AlbumInfo.t -> Mapping -> Distance.t.
Variable lapjv : list (list Qc) -> res (list Z).
Variable item_set_order : list Item.t -> list Item.t.
Variable track_set_order : list TrackInfo.t -> list TrackInfo.t.
Variable album_for_mbid : string -> option AlbumInfo.t.
Variable albums_for_id : string -> list AlbumInfo.t.
Variable album_candidates :
  list Item.t -> Value -> Value -> bool -> option (gmap string Value) ->
  list AlbumInfo.t.
Variable tracks_for_id : string -> list TrackInfo.t.
Variable item_candidates : Item.t -> Value -> Value -> list TrackInfo.t.

(** Modelled from the spec: [dist.add_string(key, str1, str2)], "a
    string-dissimilarity" delegated to the external collaborator. *)
Definition add_string (d : Distance.t) (key : string) (s1 s2 : Value)
  : Distance.t :=
  Distance.add d key (string_dist s1 s2).

(** Modelled from the spec: [Distance.add_priority], "a priority-rank
    penalty (earlier pattern = lower penalty, no match = maximum)": the
    rank of the first matching pattern over the number of patterns. *)
Fixpoint priority_rank (value : string) (options : list string) (i : nat)
  : option nat :=
  match options with
  | [] => None
  | opt :: rest =>
      if re_match opt value then Some i else priority_rank value rest (S i)
  end.

Definition add_priority (d : Distance.t) (key : string) (value : string)
    (options : list string) : Distance.t :=
  match priority_rank value options O with
  | Some i =>
      Distance.add d key
        (Q2Qc (inject_Z (Z.of_nat i)) /
         Q2Qc (inject_Z (Z.of_nat (List.length options))))%Qc
  | None => Distance.add d key 1%Qc
  end.

(** ** current_metadata *)

(** The loop over [fields]. *)
Fixpoint current_metadata_loop (items : list Item.t) (fs : list string)
    (likelies : gmap string Value) (consensus : gmap string bool)
  : res (gmap string Value * gmap string bool) :=
  match fs with
  | [] => Ok (likelies, consensus)
  | field :: fs' =>
      values ← mapM (fun item => Item.getitem item field)
                    (List.filter Item.truth items);
      '(v, freq) ← plurality values;
      current_metadata_loop items fs'
        (<[field := v]> likelies)
        (<[field := bool_decide (freq = List.length values)]> consensus)
  end.

Definition current_metadata (items : list Item.t)
  : res (gmap string Value * gmap string bool) :=
  match items with
  | [] => Raise AssertionError
  | _ :: _ =>
      '(likelies, consensus) ← current_metadata_loop items fields ∅ ∅;
      c ← map_getitem consensus "albumartist";
      if (c : bool) then
        la ← map_getitem likelies "albumartist";
        if truthy la then Ok (<["artist" := la]> likelies, consensus)
        else Ok (likelies, consensus)
      else Ok (likelies, consensus)
  end.

(** ** track_distance *)

Definition track_index_changed (item : Item.t) (track_info : TrackInfo.t)
  : bool :=
  negb (py_in (VInt (Item.track item))
              [VOptInt (TrackInfo.medium_index track_info);
               VOptInt (TrackInfo.index track_info)]).

Definition get_track_length_grace : Qc := Config.track_length_grace cfg.
Definition get_track_length_max : Qc := Config.track_length_max cfg.

(** The length factor. *)
Definition track_distance_length (item : Item.t) (track_info : TrackInfo.t)
    (dist : Distance.t) : Distance.t :=
  match TrackInfo.length track_info with
  | Some info_length =>
      if truthy (VFloat info_length) then
        let diff :=
          (Qcabs (Item.length item - info_length) - get_track_length_grace)%Qc in
        Distance.add_ratio dist "track_length" diff get_track_length_max
      else dist
  | None => dist
  end.

(** The title factor. *)
Definition track_distance_title (item : Item.t) (track_info : TrackInfo.t)
    (dist : Distance.t) : Distance.t :=
  add_string dist "track_title" (VStr (Item.title item))
             (VOptStr (TrackInfo.title track_info)).

(** The condition guarding the artist factor. *)
Definition artist_considered (item : Item.t) (track_info : TrackInfo.t)
    (incl_artist : bool) : bool :=
  incl_artist
  && truthy_opt_str (TrackInfo.artist track_info)
  && negb (bool_decide (lower (Item.artist item) ∈ VA_ARTISTS)).

Definition track_distance_artist (item : Item.t) (track_info : TrackInfo.t)
    (incl_artist : bool) (dist : Distance.t) : Distance.t :=
  if artist_considered item track_info incl_artist then
    add_string dist "track_artist" (VStr (Item.artist item))
               (VOptStr (TrackInfo.artist track_info))
  else dist.

(** The track index factor. *)
Definition track_distance_index (item : Item.t) (track_info : TrackInfo.t)
    (dist : Distance.t) : Distance.t :=
  if truthy_opt_int (TrackInfo.index track_info)
     && truthy_int (Item.track item) then
    Distance.add_expr dist "track_index" (track_index_changed item track_info)
  else dist.

(** The track identifier factor. *)
Definition track_distance_id (item : Item.t) (track_info : TrackInfo.t)
    (dist : Distance.t) : Distance.t :=
  if truthy_str (Item.mb_trackid item) then
    Distance.add_expr dist "track_id"
      (negb (py_eq (VStr (Item.mb_trackid item))
                   (VOptStr (TrackInfo.track_id track_info))))
  else dist.

(** The medium factor. *)
Definition track_distance_medium (item : Item.t) (track_info : TrackInfo.t)
    (dist : Distance.t) : Distance.t :=
  if truthy_opt_int (TrackInfo.medium track_info)
     && truthy_int (Item.disc item) then
    Distance.add_expr dist "medium"
      (negb (py_eq (VInt (Item.disc item))
                   (VOptInt (TrackInfo.medium track_info))))
  else dist.

(** The body of [track_distance] up to the plugin hook. *)
Definition track_distance_factors (item : Item.t) (track_info : TrackInfo.t)
    (incl_artist : bool) : Distance.t :=
  let dist := Distance.new in
  let dist := track_distance_length item track_info dist in
  let dist := track_distance_title item track_info dist in
  let dist := track_distance_artist item track_info incl_artist dist in
  let dist := track_distance_index item track_info dist in
  let dist := track_distance_id item track_info dist in
  let dist := track_distance_medium item track_info dist in
  dist.

Definition track_distance (item : Item.t) (track_info : TrackInfo.t)
    (incl_artist : bool) : Distance.t :=
  let dist := track_distance_factors item track_info incl_artist in
  Distance.update dist (plugins_track_distance item track_info).

(** ** assign_items *)

(** The comprehension building the pairing from the solver's answer: entry
    [j] is the index of the item assigned to track [j], or [-1]. *)
Fixpoint assign_items_mapping (items : list Item.t)
    (pairs : list (Z * TrackInfo.t)) (mapping : Mapping) : res Mapping :=
  match pairs with
  | [] => Ok mapping
  | (iidx, t) :: rest =>
      if iidx =? -1 then assign_items_mapping items rest mapping
      else
        item ← py_index items iidx;
        assign_items_mapping items rest (dict_set mapping item t)
  end.

Definition extra_items_key (i : Item.t) : list Value :=
  [VInt (Item.disc i); VInt (Item.track i); VStr (Item.title i)].

Definition extra_tracks_key (t : TrackInfo.t) : list Value :=
  [VOptInt (TrackInfo.index t); VOptStr (TrackInfo.title t)].

Definition assign_items (items : list Item.t) (tracks : list TrackInfo.t)
  : res (Mapping * list Item.t * list TrackInfo.t) :=
  let costs :=
    map (fun i =>
           map (fun t => Distance.distance cfg (track_distance i t false))
               tracks)
        items in
  assigned_item_idxs ← lapjv costs;
  mapping ← assign_items_mapping items (combine assigned_item_idxs tracks) [];
  let extra_items :=
    item_set_order
      (remove_dups
         (List.filter (fun i => negb (bool_decide (i ∈ dict_keys mapping)))
                      items)) in
  extra_items ← py_sort extra_items_key extra_items;
  let extra_tracks :=
    track_set_order
      (remove_dups
         (List.filter (fun t => negb (bool_decide (t ∈ dict_values mapping)))
                      tracks)) in
  extra_tracks ← py_sort extra_tracks_key extra_tracks;
  Ok (mapping, extra_items, extra_tracks).

(** ** distance *)

Definition distance_artist (likelies : gmap string Value)
    (album_info : AlbumInfo.t) (dist : Distance.t) : res Distance.t :=
  if negb (AlbumInfo.va album_info) then
    a ← map_getitem likelies "artist";
    Ok (add_string dist "artist" a (VOptStr (AlbumInfo.artist album_info)))
  else Ok dist.

Definition distance_album (likelies : gmap string Value)
    (album_info : AlbumInfo.t) (dist : Distance.t) : res Distance.t :=
  a ← map_getitem likelies "album";
  Ok (add_string dist "album" a (VOptStr (AlbumInfo.album album_info))).

Definition distance_media (likelies : gmap string Value)
    (album_info : AlbumInfo.t) (dist : Distance.t) : res Distance.t :=
  match AlbumInfo.media album_info with
  | Some media =>
      if truthy_str media then
        let patterns := Config.preferred_media cfg in
        let options :=
          map (fun pat => "(\d+x)?(" ++ pat ++ ")")%string patterns in
        match options with
        | _ :: _ => Ok (add_priority dist "media" media options)
        | [] =>
            m ← map_getitem likelies "media";
            if truthy m then
              Ok (Distance.add_equality dist "media" (VStr media) m)
            else Ok dist
        end
      else Ok dist
  | None => Ok dist
  end.

Definition distance_mediums (likelies : gmap string Value)
    (album_info : AlbumInfo.t) (dist : Distance.t) : res Distance.t :=
  d ← map_getitem likelies "disctotal";
  if truthy d && truthy_opt_int (AlbumInfo.mediums album_info) then
    n ← as_int d;
    Ok (Distance.add_number dist "mediums" n
          (default 0 (AlbumInfo.mediums album_info)))
  else Ok dist.

Definition distance_year (likelies : gmap string Value)
    (album_info : AlbumInfo.t) (dist : Distance.t) : res Distance.t :=
  let year := default 0 (AlbumInfo.year album_info) in
  let original_year := default 0 (AlbumInfo.original_year album_info) in
  if truthy_opt_int (AlbumInfo.year album_info)
     && Config.preferred_original_year cfg then
    let original :=
      if truthy_opt_int (AlbumInfo.original_year album_info)
      then original_year else 1889 in
    let diff := Z.abs (year - original) in
    let diff_max := Z.abs (today_year - original) in
    Ok (Distance.add_ratio dist "year" (Z2Qc diff) (Z2Qc diff_max))
  else
    y ← map_getitem likelies "year";
    if truthy y && truthy_opt_int (AlbumInfo.year album_info) then
      if py_in y [VOptInt (AlbumInfo.year album_info);
                  VOptInt (AlbumInfo.original_year album_info)] then
        Ok (Distance.add dist "year" 0%Qc)
      else if truthy_opt_int (AlbumInfo.original_year album_info) then
        n ← as_int y;
        let diff := Z.abs (n - year) in
        let diff_max := Z.abs (today_year - original_year) in
        Ok (Distance.add_ratio dist "year" (Z2Qc diff) (Z2Qc diff_max))
      else Ok (Distance.add dist "year" 1%Qc)
    else Ok dist.

Definition distance_country (likelies : gmap string Value)
    (album_info : AlbumInfo.t) (dist : Distance.t) : res Distance.t :=
  let options := Config.preferred_countries cfg in
  if truthy_opt_str (AlbumInfo.country album_info)
     && negb (bool_decide (options = [])) then
    Ok (add_priority dist "country"
          (default "" (AlbumInfo.country album_info)) options)
  else
    c ← map_getitem likelies "country";
    if truthy c && truthy_opt_str (AlbumInfo.country album_info) then
      Ok (add_string dist "country" c (VOptStr (AlbumInfo.country album_info)))
    else Ok dist.

(** The label, catalog number and disambiguation comparisons. *)
Definition distance_string (field key : string) (info_value : option string)
    (likelies : gmap string Value) (dist : Distance.t) : res Distance.t :=
  l ← map_getitem likelies field;
  if truthy l && truthy_opt_str info_value then
    Ok (add_string dist key l (VOptStr info_value))
  else Ok dist.

Definition distance_album_id (likelies : gmap string Value)
    (album_info : AlbumInfo.t) (dist : Distance.t) : res Distance.t :=
  i ← map_getitem likelies "mb_albumid";
  if truthy i then
    Ok (Distance.add_equality dist "album_id" i
          (VOptStr (AlbumInfo.album_id album_info)))
  else Ok dist.

(** The loop over the pairing: every pair's track distance is stored and
    folded into the release distance. *)
Definition distance_tracks (album_info : AlbumInfo.t) (mapping : Mapping)
    (dist : Distance.t) : Distance.t :=
  fold_left
    (fun dist (it : Item.t * TrackInfo.t) =>
       let td := track_distance (fst it) (snd it) (AlbumInfo.va album_info) in
       let dist :=
         Distance.set_tracks dist
           (dict_set (Distance.tracks dist) (snd it) (Distance._penalties td)) in
       Distance.add dist "tracks" (Distance.distance cfg td))
    mapping (Distance.set_tracks dist []).

(** [for _ in range(n): dist.add(key, 1.0)] *)
Definition distance_repeat (key : string) (n : Z) (dist : Distance.t)
  : Distance.t :=
  fold_left (fun dist _ => Distance.add dist key 1%Qc)
            (seq 0 (Z.to_nat n)) dist.

Definition distance (items : list Item.t) (album_info : AlbumInfo.t)
    (mapping : Mapping) : res Distance.t :=
  '(likelies, _) ← current_metadata items;
  let dist := Distance.new in
  dist ← distance_artist likelies album_info dist;
  dist ← distance_album likelies album_info dist;
  dist ← distance_media likelies album_info dist;
  dist ← distance_mediums likelies album_info dist;
  dist ← distance_year likelies album_info dist;
  dist ← distance_country likelies album_info dist;
  dist ← distance_string "label" "label"
           (AlbumInfo.label album_info) likelies dist;
  dist ← distance_string "catalognum" "catalognum"
           (AlbumInfo.catalognum album_info) likelies dist;
  dist ← distance_string "albumdisambig" "albumdisambig"
           (AlbumInfo.albumdisambig album_info) likelies dist;
  dist ← distance_album_id likelies album_info dist;
  let dist := distance_tracks album_info mapping dist in
  let dist :=
    distance_repeat "missing_tracks"
      (Z.of_nat (List.length (AlbumInfo.tracks album_info))
       - Z.of_nat (List.length mapping)) dist in
  let dist :=
    distance_repeat "unmatched_tracks"
      (Z.of_nat (List.length items) - Z.of_nat (List.length mapping)) dist in
  Ok (Distance.update dist (plugins_album_distance items album_info mapping)).

(** ** match_by_id *)

(** The result is paired with the identifiers handed to
    [hooks.album_for_mbid] during the call. *)
Definition match_by_id (items : list Item.t)
  : list string * option AlbumInfo.t :=
  let albumids := List.filter truthy_str (map Item.mb_albumid items) in
  match albumids with
  | [] => ([], None)
  | first :: others =>
      if existsb (fun other => negb (bool_decide (other = first))) others
      then ([], None)
      else ([first], album_for_mbid first)
  end.

(** ** _recommendation *)

(** [dist.distance] of a candidate. *)
Definition match_score (m : Match) : Qc :=
  Distance.distance cfg (match_distance m).

(** Basic distance thresholding; [None] is the early return of
    [Recommendation.none]. *)
Definition threshold_rec (results : list Match) : option Recommendation :=
  match results with
  | [] => None
  | best :: rest =>
      let min_dist := match_score best in
      if bool_decide (min_dist < Config.strong_rec_thresh cfg)%Qc then
        Some strong
      else if bool_decide (min_dist <= Config.medium_rec_thresh cfg)%Qc then
        Some medium
      else
        match rest with
        | [] => Some low
        | second :: _ =>
            if Float.ge (Float.sub (match_score second) min_dist)
                        (Config.rec_gap_thresh cfg)
            then Some low
            else None
        end
  end.

(** The keys the downgrade looks at: those of the best candidate's
    distance and, for an [AlbumMatch], those of its track distances. *)
Definition penalty_keys (best : Match) : gset string :=
  let min_dist := match_distance best in
  let keys : gset string := list_to_set (Distance.keys min_dist) in
  if is_AlbumMatch best then
    fold_left
      (fun (keys : gset string) (track_dist : Distance.Penalties) =>
         keys ∪ list_to_set (dict_keys track_dist))
      (dict_values (Distance.tracks min_dist)) keys
  else keys.

(** One step of the loop over the keys. *)
Definition downgrade_step (key : string) (rec : Recommendation)
  : Recommendation :=
  match Config.max_rec cfg !! key with
  | Some max_rec => rec_min rec max_rec
  | None => rec
  end.

Definition _recommendation (results : list Match) : Recommendation :=
  match results with
  | [] => none
  | best :: _ =>
      match threshold_rec results with
      | None => none
      | Some rec => set_fold downgrade_step rec (penalty_keys best)
      end
  end.

(** ** _sort_candidates *)

Definition _sort_candidates (candidates : list Match) : list Match :=
  stable_sort (fun m => [VFloat (match_score m)]) candidates.

(** ** _add_candidate *)

(** The loop over the required tags: [true] when one of them is [None]. *)
Fixpoint missing_required (info : AlbumInfo.t) (tags : list string)
  : res bool :=
  match tags with
  | [] => Ok false
  | req_tag :: rest =>
      v ← AlbumInfo.getattr info req_tag;
      if bool_decide (v = VNone) then Ok true
      else missing_required info rest
  end.

Definition _add_candidate (items : list Item.t)
    (results : dict (option string) Match) (info : AlbumInfo.t)
  : res (dict (option string) Match) :=
  match AlbumInfo.tracks info with
  | [] => Ok results
  | _ :: _ =>
      if truthy_opt_str (AlbumInfo.album_id info)
         && dict_mem results (AlbumInfo.album_id info) then Ok results
      else
        missing ← missing_required info (Config.required cfg);
        if (missing : bool) then Ok results
        else
          '(mapping, extra_items, extra_tracks) ←
            assign_items items (AlbumInfo.tracks info);
          dist ← distance items info mapping;
          let penalties := Distance.keys dist in
          if existsb (fun penalty => bool_decide (penalty ∈ penalties))
                     (Config.ignored cfg)
          then Ok results
          else
            Ok (dict_set results (AlbumInfo.album_id info)
                  (AlbumMatch dist info mapping extra_items extra_tracks))
  end.

(** [for info in infos: _add_candidate(items, candidates, info)] *)
Fixpoint add_candidates (items : list Item.t)
    (candidates : dict (option string) Match) (infos : list AlbumInfo.t)
  : res (dict (option string) Match) :=
  match infos with
  | [] => Ok candidates
  | info :: rest =>
      candidates ← _add_candidate items candidates info;
      add_candidates items candidates rest
  end.

(** ** tag_album *)

(** [s.lower()] on a value that has to be a string. *)
Definition value_lower (v : Value) : res string :=
  match v with
  | VStr s => Ok (lower s)
  | _ => Raise AttributeError
  end.

Definition tag_album (items : list Item.t)
    (search_artist search_album : option string) (search_ids : list string)
  : res (Value * Value * Proposal) :=
  '(likelies, consensus) ← current_metadata items;
  cur_artist ← map_getitem likelies "artist";
  cur_album ← map_getitem likelies "album";
  let candidates : dict (option string) Match := [] in
  let finish (candidates : dict (option string) Match) :=
    let candidates_sorted := _sort_candidates (dict_values candidates) in
    let rec := _recommendation candidates_sorted in
    Ok (cur_artist, cur_album, mkProposal candidates_sorted rec) in
  match search_ids with
  | _ :: _ =>
      candidates ←
        add_candidates items candidates (concat (map albums_for_id search_ids));
      finish candidates
  | [] =>
      let search candidates :=
        let '(search_artist, search_album) :=
          if truthy_opt_str search_artist && truthy_opt_str search_album
          then (VOptStr search_artist, VOptStr search_album)
          else (cur_artist, cur_album) in
        let extra_tags :=
          match Config.extra_tags cfg with
          | [] => None
          | tag_list =>
              Some (filter (fun kv => fst kv ∈ tag_list) likelies)
          end in
        c ← map_getitem consensus "artist";
        va_likely ←
          (if negb c then Ok true
           else
             a ← value_lower search_artist;
             Ok (bool_decide (a ∈ VA_ARTISTS) || existsb Item.comp items));
        candidates ←
          add_candidates items candidates
            (album_candidates items search_artist search_album va_likely
                              extra_tags);
        finish candidates in
      match snd (match_by_id items) with
      | Some id_info =>
          candidates ← _add_candidate items candidates id_info;
          let rec := _recommendation (dict_values candidates) in
          if negb (bool_decide (candidates = []))
             && negb (Config.timid cfg)
             && bool_decide (rec = strong)
          then
            Ok (cur_artist, cur_album,
                mkProposal (dict_values candidates) rec)
          else search candidates
      | None => search candidates
      end
  end.

(** ** tag_item *)

(** The loop over the tracks found for one identifier; [inl] is the early
    return of a strong match. *)
Fixpoint tag_item_tracks (item : Item.t) (infos : list TrackInfo.t)
    (candidates : dict (option string) Match) (rec : option Recommendation)
  : Proposal + (dict (option string) Match * option Recommendation) :=
  match infos with
  | [] => inr (candidates, rec)
  | track_info :: rest =>
      let dist := track_distance item track_info true in
      let candidates :=
        dict_set candidates (TrackInfo.track_id track_info)
                 (TrackMatch dist track_info) in
      let rec := _recommendation (_sort_candidates (dict_values candidates)) in
      if bool_decide (rec = strong) && negb (Config.timid cfg) then
        inl (mkProposal (_sort_candidates (dict_values candidates)) rec)
      else tag_item_tracks item rest candidates (Some rec)
  end.

(** The loop over the identifiers. *)
Fixpoint tag_item_ids (item : Item.t) (trackids : list string)
    (candidates : dict (option string) Match) (rec : option Recommendation)
  : Proposal + (dict (option string) Match * option Recommendation) :=
  match trackids with
  | [] => inr (candidates, rec)
  | trackid :: rest =>
      match tag_item_tracks item (tracks_for_id trackid) candidates rec with
      | inl p => inl p
      | inr (candidates, rec) => tag_item_ids item rest candidates rec
      end
  end.

Definition tag_item (item : Item.t)
    (search_artist search_title : option string)
    (search_ids : option (list string)) : res Proposal :=
  let ids_given :=
    match search_ids with Some (_ :: _) => true | _ => false end in
  let trackids :=
    if ids_given then default [] search_ids
    else List.filter truthy_str [Item.mb_trackid item] in
  match tag_item_ids item trackids [] None with
  | inl p => Ok p
  | inr (candidates, rec) =>
      if ids_given then
        match candidates with
        | _ :: _ =>
            match rec with
            | Some rec =>
                Ok (mkProposal (_sort_candidates (dict_values candidates)) rec)
            | None => Raise AssertionError
            end
        | [] => Ok (mkProposal [] none)
        end
      else
        let '(search_artist, search_title) :=
          if truthy_opt_str search_artist && truthy_opt_str search_title
          then (VOptStr search_artist, VOptStr search_title)
          else (VStr (Item.artist item), VStr (Item.title item)) in
        let candidates :=
          fold_left
            (fun candidates track_info =>
               let dist := track_distance item track_info true in
               dict_set candidates (TrackInfo.track_id track_info)
                        (TrackMatch dist track_info))
            (item_candidates item search_artist search_title) candidates in
        let candidates_sorted := _sort_candidates (dict_values candidates) in
        let rec := _recommendation candidates_sorted in
        Ok (mkProposal candidates_sorted rec)
  end.
End Matching.

(** A value is the most frequent of a list when it occurs in it and nothing
    occurs more often. *)
Definition most_frequent (values : list Value) (v : Value) : Prop :=
  v ∈ values /\
  forall v', (count_occ (fun x y : Value => decide (x = y)) values v'
              <= count_occ (fun x y : Value => decide (x = y)) values v)%nat.

(** The state of the identifier search of [tag_item]: once there are
    candidates, [rec] is the recommendation for them. *)
Definition tag_item_state (cfg : Config.t)
    (cands : dict (option string) Match) (rec : option Recommendation)
  : Prop :=
  (cands <> [] -> is_Some rec) /\
  (forall r, rec = Some r ->
             r = _recommendation cfg (_sort_candidates cfg (dict_values cands))).

(** A step from [d] to [d'] that only adds to the categories [ks]: the
    other categories and the track distances are as before. *)
Definition only_touches (ks : list string) (d d' : Distance.t) : Prop :=
  Distance.tracks d' = Distance.tracks d /\
  forall k, k ∉ ks ->
    dict_get (Distance._penalties d') k = dict_get (Distance._penalties d) k.

(** The categories [distance] itself contributes to. *)
Definition album_categories : list string :=
  ["artist"; "album"; "media"; "mediums"; "year"; "country"; "label";
   "catalognum"; "albumdisambig"; "album_id"; "tracks"; "missing_tracks";
   "unmatched_tracks"].

(** The identifier a candidate is stored under: [info.album_id] of a
    release, [info.track_id] of a track. *)
Definition candidate_id (m : Match) : option string :=
  match m with
  | AlbumMatch _ info _ _ _ => AlbumInfo.album_id info
  | TrackMatch _ info => TrackInfo.track_id info
  end.

(** A candidate as [_add_candidate] stores it for [items]: the release has
    tracks and all the required attributes, the pairing and the distance
    are those computed for [items], and the distance has none of the ignored
    categories. *)
Definition accepted_candidate (cfg : Config.t)
    (string_dist : Value -> Value -> Qc) (re_match : string -> string -> bool)
    (today_year : Z)
    (plugins_track_distance : Item.t -> TrackInfo.t -> Distance.t)
    (plugins_album_distance :
       list Item.t -> AlbumInfo.t -> Mapping -> Distance.t)
    (lapjv : list (list Qc) -> res (list Z))
    (item_set_order : list Item.t -> list Item.t)
    (track_set_order : list TrackInfo.t -> list TrackInfo.t)
    (items : list Item.t) (m : Match) : Prop :=
  exists dist info mapping extra_items extra_tracks,
    m = AlbumMatch dist info mapping extra_items extra_tracks /\
    AlbumInfo.tracks info <> [] /\
    missing_required info (Config.required cfg) = Ok false /\
    assign_items cfg string_dist plugins_track_distance lapjv item_set_order
                 track_set_order items (AlbumInfo.tracks info)
    = Ok (mapping, extra_items, extra_tracks) /\
    distance cfg string_dist re_match today_year plugins_track_distance
             plugins_album_distance items info mapping = Ok dist /\
    forall penalty, penalty ∈ Config.ignored cfg ->
                    penalty ∉ Distance.keys dist.

(** A candidate as [tag_item] stores it for [item]: a track together with
    its distance from [item], the artist included. *)
Definition track_candidate (cfg : Config.t)
    (string_dist : Value -> Value -> Qc)
    (plugins_track_distance : Item.t -> TrackInfo.t -> Distance.t)
    (item : Item.t) (m : Match) : Prop :=
  exists info,
    m = TrackMatch
          (track_distance cfg string_dist plugins_track_distance item info true)
          info.

(** The solver answers for [items] and [tracks], every entry of its answer
    being -1 or the index of an item. *)
Definition solver_fits (cfg : Config.t) (string_dist : Value -> Value -> Qc)
    (plugins_track_distance : Item.t -> TrackInfo.t -> Distance.t)
    (lapjv : list (list Qc) -> res (list Z))
    (items : list Item.t) (tracks : list TrackInfo.t) : Prop :=
  exists assigned_item_idxs,
    lapjv (map (fun i =>
                  map (fun t =>
                         Distance.distance cfg
                           (track_distance cfg string_dist
                                           plugins_track_distance i t false))
                      tracks)
               items)
    = Ok assigned_item_idxs /\
    forall iidx, iidx ∈ assigned_item_idxs ->
                 iidx = -1 \/ 0 <= iidx < Z.of_nat (List.length items).

(** The keys (index, title) of any two of the tracks can be compared. *)
Definition orderable_tracks (tracks : list TrackInfo.t) : Prop :=
  forall a b, a ∈ tracks -> b ∈ tracks ->
    is_ok (tuple_lt (extra_tracks_key a) (extra_tracks_key b)) = true.

(* ===================================================================== *)
(** * A concrete setting *)
(* ===================================================================== *)

(** Small inputs on which the functions are evaluated. *)
Module Demo.
(** Thresholds 0.04 / 0.25 / 0.4, equal weights, no ceilings. *)
Definition cfg : Config.t :=
  Config.mk (frac 4 100) (frac 25 100) (frac 4 10) ∅ [] [] [] [] false
            (frac 10 1) (frac 30 1) (fun _ => 1%Qc) false [].

(** The same, requiring the attribute "year"; requiring a name that is
    no attribute of a release, and then "year"; and ignoring the category
    "tracks". *)
Definition cfg_required : Config.t :=
  Config.mk (frac 4 100) (frac 25 100) (frac 4 10) ∅ ["year"] [] [] [] false
            (frac 10 1) (frac 30 1) (fun _ => 1%Qc) false [].
Definition cfg_required_unknown : Config.t :=
  Config.mk (frac 4 100) (frac 25 100) (frac 4 10) ∅ ["nosuchfield"; "year"]
            [] [] [] false (frac 10 1) (frac 30 1) (fun _ => 1%Qc) false [].
Definition cfg_ignored : Config.t :=
  Config.mk (frac 4 100) (frac 25 100) (frac 4 10) ∅ [] ["tracks"] [] [] false
            (frac 10 1) (frac 30 1) (fun _ => 1%Qc) false [].

(** Some doubles, by significand and exponent: 0.1, 0.3, 0.4, 0.5, 0.7, 1,
    1/3 rounded, -2^-53, the largest double and its opposite, and two
    subnormal numbers. *)
Definition d01 := SpecFloat.S754_finite false 7205759403792794 (-56).
Definition d03 := SpecFloat.S754_finite false 5404319552844595 (-54).
Definition d04 := SpecFloat.S754_finite false 7205759403792794 (-54).
Definition d05 := SpecFloat.S754_finite false 4503599627370496 (-53).
Definition d07 := SpecFloat.S754_finite false 6305039478318694 (-53).
Definition d1 := SpecFloat.S754_finite false 4503599627370496 (-52).
Definition third := SpecFloat.S754_finite false 6004799503160661 (-54).
Definition tiny := SpecFloat.S754_finite true 4503599627370496 (-105).
Definition dmax := SpecFloat.S754_finite false 9007199254740991 971.
Definition dmin := SpecFloat.S754_finite true 9007199254740991 971.
Definition sub3 := SpecFloat.S754_finite false 3 (-1074).
Definition sub1 := SpecFloat.S754_finite false 1 (-1074).

(** Pairs of them whose difference is exact, is rounded up, is rounded
    down, is a tie, overflows, is subnormal. *)
Definition double_pairs
  : list (SpecFloat.spec_float * SpecFloat.spec_float) :=
  [(d05, d01); (d01, d05); (d07, d03); (d03, d07); (d04, d01); (d1, tiny);
   (tiny, d1); (d1, third); (third, d01); (dmax, dmin); (dmin, dmax);
   (dmax, d1); (sub3, sub1); (sub1, sub3); (d1, sub1)].

(** Thresholds 0.04 / 0.05 and the gap threshold 0.4, as doubles. *)
Definition cfg_gap : Config.t :=
  Config.mk (Float.double 4 100) (Float.double 5 100) (Float.double 4 10) ∅
            [] [] [] [] false (frac 10 1) (frac 30 1) (fun _ => 1%Qc) false
            [].

(** The same, with a ceiling of [low] on the category "track_id". *)
Definition cfg_ceiling : Config.t :=
  Config.mk (frac 4 100) (frac 25 100) (frac 4 10) {["track_id" := low]} [] [] [] []
            false (frac 10 1) (frac 30 1) (fun _ => 1%Qc) false [].

Definition track (oid : positive) (title : string) (index : option Z)
  : TrackInfo.t :=
  TrackInfo.mk oid (Some title) None (Some "Artist X") None index None None.

Definition item (oid : positive) (title artist albumartist mb_albumid : string)
    (track : Z) : Item.t :=
  Item.mk oid title artist "Album" albumartist 2000 1 mb_albumid "" "" "" ""
          "" "" "" track 1 (frac 200 1) false.

(** A single-track candidate whose aggregate score is [score]. *)
Definition candidate (score : Qc) : Match :=
  TrackMatch (Distance.mk [("track_title", [score])] []) (track 1 "T" None).

Definition release : AlbumInfo.t :=
  AlbumInfo.mk [track 1 "T" (Some 1)] (Some "Album") (Some "A1")
               (Some "Artist X") false None None None None None None None
               None.

(** A release candidate with score 0.03 whose only track distance has the
    category "track_id". *)
Definition release_candidate : Match :=
  AlbumMatch
    (Distance.mk [("album", [frac 3 100])]
                 [(track 1 "T" (Some 1), [("track_id", [1%Qc])])])
    release [] [] [].

(** A single-track candidate with score 0.5 and the category
    "track_id". *)
Definition second_candidate : Match :=
  TrackMatch (Distance.mk [("track_id", [frac 5 10])] []) (track 2 "U" None).

(** Collaborators: a string measure that only tells equal from different,
    no regular expression matches, no plugin contributions, a solver that
    pairs item [j] with track [j], sets iterated in list order, and an
    empty catalog. *)
Definition string_dist (a b : Value) : Qc :=
  if bool_decide (a = b) then 0%Qc else 1%Qc.
Definition re_match (pattern subject : string) : bool := false.
Definition plugins_track_distance (i : Item.t) (t : TrackInfo.t)
  : Distance.t := Distance.new.
Definition plugins_album_distance (items : list Item.t) (a : AlbumInfo.t)
    (m : Mapping) : Distance.t := Distance.new.

(** A stand-in for the solver: item [j] goes to track [j] while there are
    items left; like the solver, it refuses an empty matrix. *)
Definition lapjv (costs : list (list Qc)) : res (list Z) :=
  match costs with
  | [] => Raise ValueError
  | row :: _ =>
      Ok (map (fun j => if (j <? List.length costs)%nat then Z.of_nat j else -1)
              (seq 0 (List.length row)))
  end.
Definition item_set_order (l : list Item.t) : list Item.t := l.
Definition track_set_order (l : list TrackInfo.t) : list TrackInfo.t := l.

Definition today_year : Z := 2024.

(** An empty catalog. *)
Definition albums_for_id (id : string) : list AlbumInfo.t := [].
Definition album_candidates (items : list Item.t) (artist album : Value)
  (va_likely : bool) (extra_tags : option (gmap string Value))
: list AlbumInfo.t := [].
Definition tracks_for_id (id : string) : list TrackInfo.t := [].
Definition item_candidates (i : Item.t) (artist title : Value)
: list TrackInfo.t := [].

(** Two releases without identifier, told apart by their titles. *)
Definition unidentified (album : string) : AlbumInfo.t :=
  AlbumInfo.mk [track 1 "T" (Some 1)] (Some album) None (Some "Artist X")
               false None None None None None None None None.

(** The candidate stored for the first of them. *)
Definition unidentified_match : Match :=
  AlbumMatch Distance.new (unidentified "First") [] [] [].

(** A catalog that knows the release "A1" only. *)
Definition album_for_mbid (id : string) : option AlbumInfo.t :=
  if bool_decide (id = "A1") then Some release else None.

(** Two items by differing artists on a release of "Artist X". *)
Definition item1 : Item.t := item 1 "T" "Artist A" "Artist X" "A1" 1.
Definition item2 : Item.t := item 2 "U" "Artist B" "Artist X" "A1" 2.
Definition item_va : Item.t := item 3 "T" "Various Artists" "" "A2" 1.
Definition item_untracked : Item.t := item 4 "T" "Artist A" "" "" 0.

(** Ten records of the album artist "Artist X", by two artists in
    turn. *)
Definition ten_items : list Item.t :=
  map (fun n =>
         item (Pos.of_nat n) "T"
              (if Nat.even n then "Artist A" else "Artist B")
              "Artist X" "A1" (Z.of_nat n))
      (seq 1 10).

(** An item that carries the track identifier "T1", of 200 seconds, and
    the track "T1" of 205 seconds, which is the first of its medium and the
    seventh of its release. *)
Definition item_identified : Item.t :=
  Item.mk 5 "T" "Artist A" "Album" "Artist X" 2000 1 "A1" "T1" "" "" "" ""
          "" "" 1 1 (frac 200 1) false.
Definition track_identified : TrackInfo.t :=
  TrackInfo.mk 5 (Some "T") (Some "T1") (Some "Artist A") (Some (frac 205 1))
               (Some 7) (Some 1) (Some 1).

(** What [tag_album] returned: the current artist and album, the number of
    candidates and the recommendation. *)
Definition album_summary (r : res (Value * Value * Proposal))
  : option (Value * Value * nat * Recommendation) :=
  match r with
  | Ok (cur_artist, cur_album, p) =>
      Some (cur_artist, cur_album, List.length (candidates p),
            recommendation p)
  | Raise _ => None
  end.

(** The entries of the result of [current_metadata] for the artist and
    the album artist. *)
Definition artist_summary
    (r : res (gmap string Value * gmap string bool))
  : option (option Value * option bool * option bool) :=
  match r with
  | Ok (likelies, consensus) =>
      Some (likelies !! "artist", consensus !! "artist",
            consensus !! "albumartist")
  | Raise _ => None
  end.
End Demo.

(** One step of a computation in [res]. *)
Ltac res_step := unfold mbind, res_mbind; cbn [res_bind].

(** Equality of two closed rationals, by evaluation. *)
Ltac qc_eq := apply Qc_is_canon; vm_compute; reflexivity.

(** Every element of one explicit list is in another. *)
Ltac list_sub :=
  let k := fresh "k" in
  let Hk := fresh "Hk" in
  intros k Hk; apply list_elem_of_In in Hk; apply list_elem_of_In;
  simpl in Hk |- *; intuition.

(** One more step [T] of a chain composed with [trans], after enlarging
    its list with [weaken]. *)
Ltac chain_step trans weaken T :=
  eapply trans; [eapply weaken; [|exact T]; list_sub|].

(* ===================================================================== *)
(** * Properties of the rounding of floats *)
(* ===================================================================== *)

Module FloatFacts.
Import Float.

Lemma pow2_pos k : (0 < pow2 k)%Q.
Proof. apply Qpower_0_lt. reflexivity. Qed.

Lemma pow2_le a b : a <= b -> (pow2 a <= pow2 b)%Q.
Proof. intros H. apply Qpower_le_compat_l; [exact H|discriminate]. Qed.

Lemma pow2_plus a b : (pow2 (a + b) == pow2 a * pow2 b)%Q.
Proof. apply Qpower_plus. discriminate. Qed.

Lemma pow2_Z k : 0 <= k -> (pow2 k == inject_Z (2 ^ k))%Q.
Proof. intros H. unfold pow2. now rewrite (Zpower_Qpower 2 k H). Qed.

Lemma pow2_succ k : (pow2 (k + 1) == 2 * pow2 k)%Q.
Proof. rewrite pow2_plus. unfold pow2 at 2. rewrite Qpower_1_r. ring. Qed.

#[local] Instance round_half_even_comp : Proper (Qeq ==> eq) round_half_even.
Proof.
  intros x y E. unfold round_half_even. rewrite (Qfloor_comp x y E).
  now rewrite E.
Qed.

(** The rounded value is the floor or the floor plus one, and nearest. *)
Lemma round_half_even_cases q :
  (round_half_even q = Qfloor q /\ (q - inject_Z (Qfloor q) <= 1 # 2)%Q) \/
  (round_half_even q = Qfloor q + 1 /\ (1 # 2 <= q - inject_Z (Qfloor q))%Q).
Proof.
  unfold round_half_even.
  destruct (Qcompare_spec (q - inject_Z (Qfloor q)) (1 # 2)) as [E|E|E].
  - destruct (Z.even (Qfloor q)); [left|right]; split; try reflexivity;
      rewrite E; apply Qle_refl.
  - left. split; [reflexivity|]. now apply Qlt_le_weak.
  - right. split; [reflexivity|]. now apply Qlt_le_weak.
Qed.

Lemma round_half_even_mono a b :
  (a <= b)%Q -> round_half_even a <= round_half_even b.
Proof.
  intros Hab. pose proof (Qfloor_resp_le a b Hab) as Hf.
  destruct (Z.eq_dec (Qfloor a) (Qfloor b)) as [E|E].
  - unfold round_half_even. rewrite <- E.
    destruct (Qcompare_spec (a - inject_Z (Qfloor a)) (1 # 2)) as [Ea|Ea|Ea];
      destruct (Qcompare_spec (b - inject_Z (Qfloor a)) (1 # 2)) as [Eb|Eb|Eb];
      try lia; try (destruct (Z.even (Qfloor a)); lia); exfalso; lra.
  - destruct (round_half_even_cases a) as [[-> _]|[-> _]];
      destruct (round_half_even_cases b) as [[-> _]|[-> _]]; lia.
Qed.

Lemma round_half_even_Z n : round_half_even (inject_Z n) = n.
Proof.
  unfold round_half_even. rewrite Qfloor_Z.
  destruct (Qcompare_spec (inject_Z n - inject_Z n) (1 # 2)) as [E|E|E];
    [exfalso; lra|reflexivity|exfalso; lra].
Qed.

(** The binade of a positive number. *)
Lemma binade_spec q :
  (0 < q)%Q -> (pow2 (binade q) <= q < pow2 (binade q + 1))%Q.
Proof.
  intros Hq. destruct q as [n d]. unfold binade. cbn [Qnum Qden].
  assert (Hn : 0 < n) by (unfold Qlt in Hq; cbn in Hq; lia).
  set (ln := Z.log2 n). set (ld := Z.log2 (Z.pos d)).
  pose proof (Z.log2_spec n Hn) as [Hn1 Hn2]. fold ln in Hn1, Hn2.
  pose proof (Z.log2_spec (Z.pos d) eq_refl) as [Hd1 Hd2]. fold ld in Hd1, Hd2.
  pose proof (Z.log2_nonneg n) as Hln. fold ln in Hln.
  pose proof (Z.log2_nonneg (Z.pos d)) as Hld. fold ld in Hld.
  assert (Hq' : (n # d == inject_Z n / inject_Z (Z.pos d))%Q)
    by apply Qmake_Qdiv.
  assert (HA : (pow2 ln == inject_Z (2 ^ ln))%Q) by now apply pow2_Z.
  assert (HB : (pow2 ld == inject_Z (2 ^ ld))%Q) by now apply pow2_Z.
  assert (HP : (pow2 (ln - ld) * pow2 ld == pow2 ln)%Q).
  { rewrite <- pow2_plus. now replace (ln - ld + ld) with ln by lia. }
  pose proof (pow2_pos (ln - ld)) as HPp.
  pose proof (pow2_pos ld) as HBp.
  assert (Hdpos : (0 < inject_Z (Z.pos d))%Q) by (unfold Qlt; cbn; lia).
  assert (Hqd : ((n # d) * inject_Z (Z.pos d) == inject_Z n)%Q).
  { rewrite Hq'. field. intros H. rewrite H in Hdpos. now apply Qlt_irrefl in Hdpos. }
  assert (Hn1q : (pow2 ln <= inject_Z n)%Q).
  { rewrite HA. now rewrite <- Zle_Qle. }
  assert (Hn2q : (inject_Z n < 2 * pow2 ln)%Q).
  { rewrite HA. change 2%Q with (inject_Z 2). rewrite <- inject_Z_mult.
    rewrite <- Zlt_Qlt. rewrite Z.pow_succ_r in Hn2 by lia. lia. }
  assert (Hd1q : (pow2 ld <= inject_Z (Z.pos d))%Q).
  { rewrite HB. now rewrite <- Zle_Qle. }
  assert (Hd2q : (inject_Z (Z.pos d) < 2 * pow2 ld)%Q).
  { rewrite HB. change 2%Q with (inject_Z 2). rewrite <- inject_Z_mult.
    rewrite <- Zlt_Qlt. rewrite Z.pow_succ_r in Hd2 by lia. lia. }
  assert (Hlow : (pow2 (ln - ld - 1) <= n # d)%Q).
  { assert (E : (2 * pow2 (ln - ld - 1) == pow2 (ln - ld))%Q).
    { rewrite <- pow2_succ. now replace (ln - ld - 1 + 1) with (ln - ld) by lia. }
    nra. }
  assert (Hhigh : (n # d < pow2 (ln - ld + 1))%Q).
  { rewrite pow2_succ. nra. }
  destruct (Qle_bool (pow2 (ln - ld)) (n # d)) eqn:Hb.
  - apply Qle_bool_iff in Hb. split; assumption.
  - replace (ln - ld - 1 + 1) with (ln - ld) by lia. split; [exact Hlow|].
    apply Qnot_le_lt. intros H. apply Qle_bool_iff in H. congruence.
Qed.

Lemma pow2_lt_inv a b : (pow2 a < pow2 b)%Q -> a < b.
Proof. intros H. apply (Qpower_lt_compat_l_inv (2 # 1)); [exact H|reflexivity]. Qed.

Lemma binade_mono q q' : (0 < q)%Q -> (q <= q')%Q -> binade q <= binade q'.
Proof.
  intros Hq Hle.
  destruct (binade_spec q Hq) as [H1 _].
  destruct (binade_spec q') as [_ H2]; [lra|].
  assert (H : (pow2 (binade q) < pow2 (binade q' + 1))%Q) by lra.
  apply pow2_lt_inv in H. lia.
Qed.

Lemma ulp_pos q : (0 < ulp q)%Q.
Proof. apply pow2_pos. Qed.

(** A power of two that is not below the [ulp] is a multiple of it, and is
    left as it is. *)
Lemma round_multiple (u : Z) (k : Z) :
  u <= k ->
  (inject_Z (round_half_even (pow2 k / pow2 u)) * pow2 u == pow2 k)%Q.
Proof.
  intros H.
  assert (E : (pow2 k / pow2 u == inject_Z (2 ^ (k - u)))%Q).
  { rewrite <- pow2_Z by lia. replace k with ((k - u) + u) at 1 by lia.
    rewrite pow2_plus. field. pose proof (pow2_pos u). lra. }
  rewrite E, round_half_even_Z, <- pow2_Z by lia.
  rewrite <- pow2_plus. now replace (k - u + u) with k by lia.
Qed.

(** Rounding to the multiples of a given power of two is monotone. *)
Lemma round_to_mono (u : Z) (a b : Q) :
  (a <= b)%Q ->
  (inject_Z (round_half_even (a / pow2 u)) * pow2 u
   <= inject_Z (round_half_even (b / pow2 u)) * pow2 u)%Q.
Proof.
  intros H. pose proof (pow2_pos u) as Hu.
  apply Qmult_le_compat_r; [|lra].
  rewrite <- Zle_Qle. apply round_half_even_mono.
  apply Qmult_le_compat_r; [exact H|].
  apply Qlt_le_weak, Qinv_lt_0_compat, Hu.
Qed.

Lemma round_pos_upper q :
  (0 < q)%Q -> (round_pos q <= pow2 (Z.max (binade q) emin + 1))%Q.
Proof.
  intros Hq. unfold round_pos, ulp.
  set (E := Z.max (binade q) emin).
  rewrite <- (round_multiple (E - (prec - 1)) (E + 1)) by (unfold prec; lia).
  apply round_to_mono.
  destruct (binade_spec q Hq) as [_ H].
  eapply Qle_trans; [apply Qlt_le_weak, H|]. apply pow2_le. lia.
Qed.

Lemma round_pos_lower q :
  (0 < q)%Q -> emin <= binade q -> (pow2 (binade q) <= round_pos q)%Q.
Proof.
  intros Hq He. unfold round_pos, ulp.
  replace (Z.max (binade q) emin) with (binade q) by lia.
  rewrite <- (round_multiple (binade q - (prec - 1)) (binade q))
    at 1 by (unfold prec; lia).
  apply round_to_mono. now destruct (binade_spec q Hq).
Qed.

Lemma round_pos_nonneg q : (0 < q)%Q -> (0 <= round_pos q)%Q.
Proof.
  intros Hq. unfold round_pos. pose proof (ulp_pos q) as Hu.
  apply Qmult_le_0_compat; [|lra].
  change 0%Q with (inject_Z 0). rewrite <- Zle_Qle.
  rewrite <- (round_half_even_Z 0). apply round_half_even_mono.
  apply Qmult_le_0_compat; [lra|].
  apply Qlt_le_weak, Qinv_lt_0_compat, Hu.
Qed.

Lemma round_pos_mono q q' :
  (0 < q)%Q -> (q <= q')%Q -> (round_pos q <= round_pos q')%Q.
Proof.
  intros Hq Hle. assert (Hq' : (0 < q')%Q) by lra.
  pose proof (binade_mono q q' Hq Hle) as Hb.
  destruct (Z.eq_dec (Z.max (binade q) emin) (Z.max (binade q') emin))
    as [E|E].
  - unfold round_pos, ulp. rewrite E. now apply round_to_mono.
  - eapply Qle_trans; [apply (round_pos_upper q Hq)|].
    eapply Qle_trans; [|apply (round_pos_lower q' Hq'); lia].
    apply pow2_le. lia.
Qed.

Lemma Q2Qc_le a b : (Q2Qc a <= Q2Qc b)%Qc <-> (a <= b)%Q.
Proof. unfold Qcle. cbn [this Q2Qc]. now rewrite !Qred_correct. Qed.

(** Rounding is monotone. *)
Lemma round_mono q q' : (q <= q')%Q -> le (round q) (round q').
Proof.
  intros Hle. unfold round.
  destruct (Qcompare_spec q 0) as [E|E|E];
    destruct (Qcompare_spec q' 0) as [E'|E'|E']; try (exfalso; lra).
  - apply Qcle_refl.
  - destruct (Qle_bool _ _); [exact I|].
    change 0%Qc with (Q2Qc 0). apply Q2Qc_le. now apply round_pos_nonneg.
  - destruct (Qle_bool _ _); [exact I|].
    change 0%Qc with (Q2Qc 0). apply Q2Qc_le.
    pose proof (round_pos_nonneg (- q)). lra.
  - pose proof (round_pos_mono (- q') (- q)) as H.
    destruct (Qle_bool (pow2 emax) (round_pos (- q))) eqn:B; [exact I|].
    destruct (Qle_bool (pow2 emax) (round_pos (- q'))) eqn:B'.
    + exfalso. apply Qle_bool_iff in B'.
      assert (Hc : (pow2 emax <= round_pos (- q))%Q)
        by (eapply Qle_trans; [exact B'|apply H; lra]).
      apply Qle_bool_iff in Hc. congruence.
    + apply Q2Qc_le. apply Qopp_le_compat. apply H; lra.
  - destruct (Qle_bool (pow2 emax) (round_pos (- q))); [exact I|].
    destruct (Qle_bool (pow2 emax) (round_pos q')); [exact I|].
    apply Q2Qc_le. pose proof (round_pos_nonneg (- q)).
    pose proof (round_pos_nonneg q'). lra.
  - pose proof (round_pos_mono q q' E Hle) as H.
    destruct (Qle_bool (pow2 emax) (round_pos q')) eqn:B';
      [destruct (Qle_bool (pow2 emax) (round_pos q)); exact I|].
    destruct (Qle_bool (pow2 emax) (round_pos q)) eqn:B.
    + exfalso. apply Qle_bool_iff in B.
      assert (Hc : (pow2 emax <= round_pos q')%Q)
        by (eapply Qle_trans; [exact B|exact H]).
      apply Qle_bool_iff in Hc. congruence.
    + now apply Q2Qc_le.
Qed.

(** A smaller subtrahend gives a difference that is not smaller. *)
Lemma sub_mono (a b b' : Qc) : (b' <= b)%Qc -> le (sub a b) (sub a b').
Proof.
  intros H. unfold sub. apply round_mono.
  change (this (a - b)%Qc <= this (a - b')%Qc)%Q.
  change ((a - b)%Qc <= (a - b')%Qc)%Qc.
  unfold Qcminus. apply Qcplus_le_mono_l. now apply Qcopp_le_compat.
Qed.

Lemma ge_mono (x x' : t) (y : Qc) : le x x' -> ge x y = true -> ge x' y = true.
Proof.
  destruct x as [a|[|]], x' as [b|[|]]; cbn [le ge negb]; try easy.
  intros H Hy. apply bool_decide_eq_true in Hy. apply bool_decide_eq_true.
  eapply Qcle_trans; eauto.
Qed.

(** On the following doubles the subtraction is the one of the standard
    library's specification of IEEE 754, and a decimal literal denotes the
    double that specification gives. *)
Example sub_agrees_with_specification :
  forallb (fun p => agrees (fst p) (snd p)) Demo.double_pairs = true.
Proof. vm_compute. reflexivity. Qed.

Example double_agrees_with_specification :
  eqb (Some (finite (double 1 10))) (of_spec Demo.d01) = true /\
  eqb (Some (finite (double 3 10))) (of_spec Demo.d03) = true /\
  eqb (Some (finite (double 4 10))) (of_spec Demo.d04) = true /\
  eqb (Some (finite (double 5 10))) (of_spec Demo.d05) = true /\
  eqb (Some (finite (double 7 10))) (of_spec Demo.d07) = true /\
  eqb (Some (finite (double 1 3))) (of_spec Demo.third) = true.
Proof. repeat split; vm_compute; reflexivity. Qed.
End FloatFacts.

(* ===================================================================== *)
(** * Properties of the recommendation order *)
(* ===================================================================== *)

Lemma rec_le_refl (a : Recommendation) : rec_le a a.
Proof. unfold rec_le. lia. Qed.

Lemma rec_le_trans (a b c : Recommendation) :
  rec_le a b -> rec_le b c -> rec_le a c.
Proof. unfold rec_le. lia. Qed.

Lemma rec_le_none (a : Recommendation) : rec_le none a.
Proof. destruct a; unfold rec_le; simpl; lia. Qed.

Lemma rec_le_strong (a : Recommendation) : rec_le a strong.
Proof. destruct a; unfold rec_le; simpl; lia. Qed.

Lemma rec_min_le_l (a b : Recommendation) : rec_le (rec_min a b) a.
Proof.
  unfold rec_min, rec_le.
  destruct (Z.ltb_spec (Recommendation_value b) (Recommendation_value a)); lia.
Qed.

Lemma rec_min_le_r (a b : Recommendation) : rec_le (rec_min a b) b.
Proof.
  unfold rec_min, rec_le.
  destruct (Z.ltb_spec (Recommendation_value b) (Recommendation_value a)); lia.
Qed.

Lemma rec_min_cases (a b : Recommendation) :
  rec_min a b = a \/ rec_min a b = b.
Proof. unfold rec_min. destruct (_ <? _); auto. Qed.

Lemma rec_min_mono (a a' b : Recommendation) :
  rec_le a a' -> rec_le (rec_min a b) (rec_min a' b).
Proof.
  unfold rec_min, rec_le.
  destruct (Z.ltb_spec (Recommendation_value b) (Recommendation_value a));
    destruct (Z.ltb_spec (Recommendation_value b) (Recommendation_value a'));
    lia.
Qed.

Create HintDb recdb.
#[local] Hint Resolve rec_le_refl rec_le_none rec_le_strong rec_min_le_l
  rec_min_le_r : recdb.

(* ===================================================================== *)
(** * The downgrade loop *)
(* ===================================================================== *)

Section Downgrade.
Variable cfg : Config.t.

Lemma downgrade_step_le key r : rec_le (downgrade_step cfg key r) r.
Proof.
  unfold downgrade_step. destruct (Config.max_rec cfg !! key); auto with recdb.
Qed.

Lemma downgrade_step_mono key r r' :
  rec_le r r' -> rec_le (downgrade_step cfg key r) (downgrade_step cfg key r').
Proof.
  unfold downgrade_step. destruct (Config.max_rec cfg !! key); auto.
  apply rec_min_mono.
Qed.

(** The loop never raises the recommendation. *)
Lemma downgrade_foldr_le (l : list string) r :
  rec_le (foldr (downgrade_step cfg) r l) r.
Proof.
  induction l as [|k l IH]; simpl; auto with recdb.
  eapply rec_le_trans; [apply downgrade_step_le | exact IH].
Qed.

(** Every configured ceiling of a visited key bounds the outcome. *)
Lemma downgrade_foldr_ceiling (l : list string) r k c :
  k ∈ l -> Config.max_rec cfg !! k = Some c ->
  rec_le (foldr (downgrade_step cfg) r l) c.
Proof.
  intros Hin Hc. induction l as [|k' l IH]; simpl.
  - inversion Hin.
  - apply elem_of_cons in Hin as [->|Hin].
    + unfold downgrade_step at 1. rewrite Hc. apply rec_min_le_r.
    + eapply rec_le_trans; [apply downgrade_step_le | auto].
Qed.

(** The outcome is the start value or one of the ceilings met. *)
Lemma downgrade_foldr_attained (l : list string) r :
  foldr (downgrade_step cfg) r l = r \/
  exists k, k ∈ l /\
    Config.max_rec cfg !! k = Some (foldr (downgrade_step cfg) r l).
Proof.
  induction l as [|k l IH]; simpl; [now left|].
  unfold downgrade_step at 1 3.
  destruct (Config.max_rec cfg !! k) as [c|] eqn:Hc.
  - destruct (rec_min_cases (foldr (downgrade_step cfg) r l) c) as [E|E];
      rewrite E.
    + destruct IH as [IH|[k' [Hk' IH]]]; [now left|].
      right. exists k'. split; [now apply elem_of_cons; right | exact IH].
    + right. exists k. split; [apply elem_of_cons; now left | exact Hc].
  - destruct IH as [IH|[k' [Hk' IH]]]; [now left|].
    right. exists k'. split; [now apply elem_of_cons; right | exact IH].
Qed.

Lemma downgrade_foldr_mono (l : list string) r r' :
  rec_le r r' ->
  rec_le (foldr (downgrade_step cfg) r l) (foldr (downgrade_step cfg) r' l).
Proof.
  intros H. induction l as [|k l IH]; simpl; auto.
  now apply downgrade_step_mono.
Qed.

Lemma downgrade_set_le (X : gset string) r :
  rec_le (set_fold (downgrade_step cfg) r X) r.
Proof. unfold set_fold; simpl. apply downgrade_foldr_le. Qed.

Lemma downgrade_set_ceiling (X : gset string) r k c :
  k ∈ X -> Config.max_rec cfg !! k = Some c ->
  rec_le (set_fold (downgrade_step cfg) r X) c.
Proof.
  intros Hin Hc. unfold set_fold; simpl.
  eapply downgrade_foldr_ceiling; [|exact Hc]. now apply elem_of_elements.
Qed.

Lemma downgrade_set_attained (X : gset string) r :
  set_fold (downgrade_step cfg) r X = r \/
  exists k, k ∈ X /\
    Config.max_rec cfg !! k = Some (set_fold (downgrade_step cfg) r X).
Proof.
  unfold set_fold; simpl.
  destruct (downgrade_foldr_attained (elements X) r) as [E|[k [Hk E]]];
    [now left|].
  right. exists k. split; [now apply elem_of_elements | exact E].
Qed.

Lemma downgrade_set_mono (X : gset string) r r' :
  rec_le r r' ->
  rec_le (set_fold (downgrade_step cfg) r X)
         (set_fold (downgrade_step cfg) r' X).
Proof. unfold set_fold; simpl. apply downgrade_foldr_mono. Qed.
End Downgrade.

(** The keys gathered from the track distances of a release. *)
Lemma track_keys_fold (l : list Distance.Penalties) (keys : gset string) k :
  k ∈ fold_left
        (fun (keys : gset string) (track_dist : Distance.Penalties) =>
           keys ∪ list_to_set (dict_keys track_dist)) l keys
  <-> k ∈ keys \/ exists td, td ∈ l /\ k ∈ dict_keys td.
Proof.
  revert keys. induction l as [|td l IH]; intros keys; simpl.
  - split; [now left|]. intros [H|[td [H _]]]; [exact H | inversion H].
  - rewrite IH, elem_of_union, elem_of_list_to_set. split.
    + intros [[H|H]|[td' [H1 H2]]]; [now left | right | right].
      * exists td. split; [apply elem_of_cons; now left | exact H].
      * exists td'. split; [apply elem_of_cons; now right | exact H2].
    + intros [H|[td' [H1 H2]]]; [now left; left|].
      apply elem_of_cons in H1 as [->|H1]; [now left; right|].
      right. now exists td'.
Qed.

Lemma penalty_keys_spec (best : Match) k :
  k ∈ penalty_keys best <->
  k ∈ Distance.keys (match_distance best) \/
  (is_AlbumMatch best = true /\
   exists track td,
     (track, td) ∈ Distance.tracks (match_distance best) /\ k ∈ dict_keys td).
Proof.
  unfold penalty_keys. destruct (is_AlbumMatch best) eqn:E.
  - rewrite track_keys_fold, elem_of_list_to_set. split.
    + intros [H|[td [H1 H2]]]; [now left|]. right. split; [reflexivity|].
      unfold dict_values in H1. apply list_elem_of_fmap in H1 as [[t td'] [-> H1]].
      now exists t, td'.
    + intros [H|[_ [t [td [H1 H2]]]]]; [now left|]. right. exists td.
      split; [|exact H2]. unfold dict_values.
      apply list_elem_of_fmap. now exists (t, td).
  - rewrite elem_of_list_to_set. split; [now left|].
    intros [H|[H _]]; [exact H | discriminate].
Qed.

(* ===================================================================== *)
(** * The recommendation classifier *)
(* ===================================================================== *)

(** Without a ceiling on the categories of the best candidate the downgrade
    leaves the recommendation as it is. *)
Lemma downgrade_unceilinged (cfg : Config.t) (best : Match)
    (level : Recommendation) :
  (forall key,
     key ∈ Distance.keys (match_distance best) \/
     (is_AlbumMatch best = true /\
      exists track td,
        (track, td) ∈ Distance.tracks (match_distance best) /\
        key ∈ dict_keys td) ->
     Config.max_rec cfg !! key = None) ->
  set_fold (downgrade_step cfg) level (penalty_keys best) = level.
Proof.
  intros Hfree.
  destruct (downgrade_set_attained cfg (penalty_keys best) level)
    as [E|(k & Hk & E)]; [exact E|].
  apply penalty_keys_spec in Hk. rewrite (Hfree k Hk) in E. discriminate E.
Qed.

(** C1.  [_recommendation] returns [none] for an empty list.  Otherwise
    the threshold rules give a level, in this order: [strong] for a best
    score strictly below the strong threshold; [medium] for a best score at
    or below the medium threshold; [low] for a single candidate; [low] when
    the difference of the second score and the best, as the subtraction of
    floats computes it, is at least the gap threshold.  What is returned is
    never above that level, and it is that level when none of the
    categories of the best candidate (those of its distance and, for an
    [AlbumMatch], those of its track distances) has a configured ceiling.
    When none of the rules applies the result is [none], whatever the
    ceilings are.  With thresholds 0.04 and 0.25 and no such ceiling a best
    score of 0.05 gives [medium] and a best score of 0.03 gives [strong],
    whether the decimals are taken exactly or as the doubles they denote. *)
Theorem recommendation_threshold_rules (cfg : Config.t) :
  _recommendation cfg [] = none /\
  (forall best rest,
     let d := match_score cfg best in
     let results := best :: rest in
     let unceilinged :=
       forall key,
         key ∈ Distance.keys (match_distance best) \/
         (is_AlbumMatch best = true /\
          exists track td,
            (track, td) ∈ Distance.tracks (match_distance best) /\
            key ∈ dict_keys td) ->
         Config.max_rec cfg !! key = None in
     let returns level :=
       rec_le (_recommendation cfg results) level /\
       (unceilinged -> _recommendation cfg results = level) in
     ((d < Config.strong_rec_thresh cfg)%Qc -> returns strong) /\
     (~ (d < Config.strong_rec_thresh cfg)%Qc ->
      (d <= Config.medium_rec_thresh cfg)%Qc ->
      returns medium) /\
     (~ (d < Config.strong_rec_thresh cfg)%Qc ->
      ~ (d <= Config.medium_rec_thresh cfg)%Qc ->
      rest = [] ->
      returns low) /\
     (forall second rest',
        ~ (d < Config.strong_rec_thresh cfg)%Qc ->
        ~ (d <= Config.medium_rec_thresh cfg)%Qc ->
        rest = second :: rest' ->
        Float.ge (Float.sub (match_score cfg second) d)
                 (Config.rec_gap_thresh cfg) = true ->
        returns low) /\
     (forall second rest',
        ~ (d < Config.strong_rec_thresh cfg)%Qc ->
        ~ (d <= Config.medium_rec_thresh cfg)%Qc ->
        rest = second :: rest' ->
        Float.ge (Float.sub (match_score cfg second) d)
                 (Config.rec_gap_thresh cfg) = false ->
        _recommendation cfg results = none) /\
     (forall hundredths : Z -> Qc,
        (forall n, hundredths n = frac n 100) \/
        (forall n, hundredths n = Float.double n 100) ->
        Config.strong_rec_thresh cfg = hundredths 4 ->
        Config.medium_rec_thresh cfg = hundredths 25 ->
        unceilinged ->
        (d = hundredths 5 -> _recommendation cfg results = medium) /\
        (d = hundredths 3 -> _recommendation cfg results = strong))).
Proof.
  split; [reflexivity|].
  intros best rest d results unceilinged returns. subst results.
  assert (Hret : forall level,
            threshold_rec cfg (best :: rest) = Some level -> returns level).
  { intros level Hl. unfold returns, _recommendation. rewrite Hl. split.
    - apply downgrade_set_le.
    - intros Hfree. now apply downgrade_unceilinged. }
  assert (Hstrong : (d < Config.strong_rec_thresh cfg)%Qc -> returns strong).
  { intros H. apply Hret. unfold threshold_rec. fold d.
    now rewrite bool_decide_true. }
  assert (Hmedium : ~ (d < Config.strong_rec_thresh cfg)%Qc ->
                    (d <= Config.medium_rec_thresh cfg)%Qc ->
                    returns medium).
  { intros H1 H2. apply Hret. unfold threshold_rec. fold d.
    rewrite bool_decide_false by exact H1. now rewrite bool_decide_true. }
  split; [exact Hstrong|]. split; [exact Hmedium|].
  split; [|split; [|split]].
  - intros H1 H2 ->. apply Hret. unfold threshold_rec. fold d.
    rewrite bool_decide_false by exact H1.
    now rewrite bool_decide_false by exact H2.
  - intros second rest' H1 H2 -> H3. apply Hret. unfold threshold_rec. fold d.
    rewrite bool_decide_false by exact H1.
    rewrite bool_decide_false by exact H2.
    now rewrite H3.
  - intros second rest' H1 H2 -> H3. unfold _recommendation, threshold_rec.
    fold d. rewrite bool_decide_false by exact H1.
    rewrite bool_decide_false by exact H2.
    now rewrite H3.
  - intros hundredths Hdec Hs Hm Hfree. split; intros Hd.
    + destruct Hmedium as [_ E]; [| |exact (E Hfree)].
      * rewrite Hd, Hs.
        destruct Hdec as [E|E]; rewrite !E; intros H; vm_compute in H;
          discriminate H.
      * rewrite Hd, Hm.
        destruct Hdec as [E|E]; rewrite !E; vm_compute; discriminate.
    + destruct Hstrong as [_ E]; [|exact (E Hfree)].
      rewrite Hd, Hs.
      destruct Hdec as [E|E]; rewrite !E; vm_compute; reflexivity.
Qed.

(** The statement above, on a single candidate of score 0.05, on one of
    score 0.03, and, with the gap threshold 0.4 and the thresholds 0.04 and
    0.05, on two candidates whose scores are the doubles 0.30 and 0.90. *)
Lemma recommendation_threshold_rules_witness :
  _recommendation Demo.cfg [Demo.candidate (frac 5 100)] = medium /\
  _recommendation Demo.cfg [Demo.candidate (frac 3 100)] = strong /\
  _recommendation Demo.cfg_gap
    [Demo.candidate (Float.double 30 100);
     Demo.candidate (Float.double 90 100)]
  = low.
Proof.
  split; [|split].
  - pose proof (recommendation_threshold_rules Demo.cfg) as [_ H].
    destruct (H (Demo.candidate (frac 5 100)) [])
      as (_ & _ & _ & _ & _ & Hs).
    destruct (Hs (fun n => frac n 100)) as [Hs' _];
      [now left | reflexivity | reflexivity
       | intros key _; apply lookup_empty |].
    apply Hs'. qc_eq.
  - pose proof (recommendation_threshold_rules Demo.cfg) as [_ H].
    destruct (H (Demo.candidate (frac 3 100)) [])
      as (_ & _ & _ & _ & _ & Hs).
    destruct (Hs (fun n => frac n 100)) as [_ Hs'];
      [now left | reflexivity | reflexivity
       | intros key _; apply lookup_empty |].
    apply Hs'. qc_eq.
  - pose proof (recommendation_threshold_rules Demo.cfg_gap) as [_ H].
    destruct (H (Demo.candidate (Float.double 30 100))
                [Demo.candidate (Float.double 90 100)])
      as (_ & _ & _ & Hs & _).
    destruct (Hs (Demo.candidate (Float.double 90 100)) []) as [_ Hlow].
    + intros Hlt. vm_compute in Hlt. discriminate Hlt.
    + intros Hle. vm_compute in Hle. congruence.
    + reflexivity.
    + vm_compute. reflexivity.
    + apply Hlow. intros key _. apply lookup_empty.
Defined.

(** What the rules read without the ceilings and with exact differences
    does not hold.  With a ceiling of [low] on the category "track_id", a
    release candidate of score 0.03, below the strong threshold 0.04, whose
    track distance has that category is recommended [low], not [strong].
    And the gap is the difference the subtraction of floats gives: of the
    doubles 0.7 and 0.3 it is below the double 0.4, and the result is
    [none], although 0.7 - 0.3 is 0.4; of the doubles 0.5 and 0.1 it is the
    double 0.4, and the result is [low], although the exact difference of
    the two doubles is below that threshold. *)
Lemma recommendation_ceiling_lowers_strong :
  ((match_score Demo.cfg_ceiling Demo.release_candidate
    < Config.strong_rec_thresh Demo.cfg_ceiling)%Qc /\
   _recommendation Demo.cfg_ceiling [Demo.release_candidate] = low) /\
  ((frac 4 10 <= frac 7 10 - frac 3 10)%Qc /\
   _recommendation Demo.cfg_gap
     [Demo.candidate (Float.double 3 10); Demo.candidate (Float.double 7 10)]
   = none) /\
  ((Float.double 5 10 - Float.double 1 10 < Float.double 4 10)%Qc /\
   _recommendation Demo.cfg_gap
     [Demo.candidate (Float.double 1 10); Demo.candidate (Float.double 5 10)]
   = low).
Proof.
  split; [|split]; split; try (vm_compute; reflexivity).
  vm_compute. discriminate.
Qed.

(** Lowering the best score never lowers the threshold value. *)
Lemma threshold_rec_monotone (cfg : Config.t) (best1 best2 : Match)
    (rest : list Match) :
  (match_score cfg best1 < match_score cfg best2)%Qc ->
  match threshold_rec cfg (best2 :: rest),
        threshold_rec cfg (best1 :: rest) with
  | Some r2, Some r1 => rec_le r2 r1
  | Some _, None => False
  | None, _ => True
  end.
Proof.
  intros Hlt. unfold threshold_rec.
  set (d1 := match_score cfg best1) in *.
  set (d2 := match_score cfg best2) in *.
  destruct (decide (d2 < Config.strong_rec_thresh cfg)%Qc) as [H2|H2].
  { rewrite (bool_decide_true _ H2).
    rewrite bool_decide_true; [apply rec_le_refl|].
    eapply Qclt_trans; eauto. }
  rewrite (bool_decide_false _ H2).
  destruct (decide (d2 <= Config.medium_rec_thresh cfg)%Qc) as [M2|M2].
  { rewrite (bool_decide_true _ M2).
    assert (M1 : (d1 <= Config.medium_rec_thresh cfg)%Qc).
    { apply Qclt_le_weak. eapply Qclt_le_trans; eauto. }
    rewrite (bool_decide_true _ M1).
    destruct (bool_decide (d1 < Config.strong_rec_thresh cfg)%Qc);
      unfold rec_le; simpl; lia. }
  rewrite (bool_decide_false _ M2).
  destruct rest as [|second rest'].
  { repeat case_bool_decide; unfold rec_le; simpl; lia. }
  destruct (Float.ge (Float.sub (match_score cfg second) d2)
                     (Config.rec_gap_thresh cfg)) eqn:G2; [|exact I].
  assert (G1 : Float.ge (Float.sub (match_score cfg second) d1)
                        (Config.rec_gap_thresh cfg) = true).
  { eapply FloatFacts.ge_mono; [|exact G2].
    apply FloatFacts.sub_mono. now apply Qclt_le_weak. }
  rewrite G1.
  repeat case_bool_decide; unfold rec_le; simpl; lia.
Qed.

(** C8.  Monotonicity in the best score: with the same keys for the
    downgrade, the same remaining candidates and the same configuration, a
    strictly smaller best score never gives a lower recommendation. *)
Theorem recommendation_monotone (cfg : Config.t) (best1 best2 : Match)
    (rest : list Match) :
  (match_score cfg best1 < match_score cfg best2)%Qc ->
  penalty_keys best1 = penalty_keys best2 ->
  rec_le (_recommendation cfg (best2 :: rest))
         (_recommendation cfg (best1 :: rest)).
Proof.
  intros Hlt Hkeys.
  pose proof (threshold_rec_monotone cfg best1 best2 rest Hlt) as H.
  unfold _recommendation.
  destruct (threshold_rec cfg (best2 :: rest)) as [r2|];
    [|apply rec_le_none].
  destruct (threshold_rec cfg (best1 :: rest)) as [r1|]; [|contradiction].
  rewrite Hkeys. now apply downgrade_set_mono.
Qed.

(** The statement above, on best scores 0.03 and 0.05 followed by a candidate of score 0.5. *)
Lemma recommendation_monotone_witness :
  rec_le
    (_recommendation Demo.cfg_ceiling
       [Demo.candidate (frac 5 100); Demo.second_candidate])
    (_recommendation Demo.cfg_ceiling
       [Demo.candidate (frac 3 100); Demo.second_candidate]).
Proof.
  apply (recommendation_monotone Demo.cfg_ceiling
           (Demo.candidate (frac 3 100)) (Demo.candidate (frac 5 100))
           [Demo.second_candidate]).
  - vm_compute. reflexivity.
  - reflexivity.
Defined.

(* ===================================================================== *)
(** * Properties of dictionaries *)
(* ===================================================================== *)

Section DictFacts.
Context {K V : Type} `{EqDecision K}.
Implicit Types (d : dict K V) (k : K) (v : V).

Lemma dict_get_set d k v k' :
  dict_get (dict_set d k v) k' =
  if decide (k = k') then Some v else dict_get d k'.
Proof.
  induction d as [|[k0 v0] d IH]; simpl.
  - destruct (decide (k = k')); reflexivity.
  - destruct (decide (k0 = k)) as [->|Hne]; simpl.
    + destruct (decide (k = k')); reflexivity.
    + destruct (decide (k0 = k')) as [->|Hne'].
      * destruct (decide (k = k')); [congruence | reflexivity].
      * exact IH.
Qed.

Lemma dict_get_set_eq d k v : dict_get (dict_set d k v) k = Some v.
Proof. rewrite dict_get_set. now rewrite decide_True. Qed.

Lemma dict_get_set_ne d k v k' :
  k <> k' -> dict_get (dict_set d k v) k' = dict_get d k'.
Proof. intros. rewrite dict_get_set. now rewrite decide_False. Qed.

Lemma dict_keys_get d k : k ∈ dict_keys d <-> is_Some (dict_get d k).
Proof.
  induction d as [|[k0 v0] d IH]; simpl.
  - split; [intros H; inversion H | intros [? ?]; discriminate].
  - rewrite elem_of_cons. destruct (decide (k0 = k)) as [->|Hne].
    + split; [eauto | now left].
    + rewrite <- IH. split; [intros [?|?]; congruence | now right].
Qed.

Lemma dict_get_None d k : dict_get d k = None <-> k ∉ dict_keys d.
Proof.
  rewrite dict_keys_get. destruct (dict_get d k) eqn:E.
  - split; [discriminate | intros Hn; exfalso; apply Hn; eauto].
  - split; [intros _ [? ?]; discriminate | reflexivity].
Qed.

Lemma dict_mem_true d k : dict_mem d k = true <-> k ∈ dict_keys d.
Proof.
  unfold dict_mem. rewrite dict_keys_get. destruct (dict_get d k) eqn:E.
  - split; eauto.
  - split; [discriminate | intros [? ?]; discriminate].
Qed.

Lemma dict_get_elem d k v : dict_get d k = Some v -> (k, v) ∈ d.
Proof.
  induction d as [|[k0 v0] d IH]; simpl; [discriminate|].
  destruct (decide (k0 = k)) as [->|Hne].
  - intros [= ->]. apply elem_of_cons; now left.
  - intros H. apply elem_of_cons; right. auto.
Qed.

(** Assigning to a key that is present keeps the keys; assigning to a new
    key appends it. *)
Lemma dict_keys_set d k v :
  dict_keys (dict_set d k v) =
  if bool_decide (k ∈ dict_keys d) then dict_keys d else (dict_keys d ++ [k])%list.
Proof.
  induction d as [|[k0 v0] d IH]; cbn [dict_set dict_keys map fst].
  - rewrite bool_decide_false; [reflexivity | intros H; inversion H].
  - destruct (decide (k0 = k)) as [->|Hne]; cbn [dict_keys map fst].
    + rewrite bool_decide_true; [reflexivity | apply elem_of_cons; now left].
    + fold (dict_keys (dict_set d k v)). fold (dict_keys d).
      rewrite IH. destruct (decide (k ∈ dict_keys d)) as [Hin|Hnin].
      * rewrite !bool_decide_true; auto. apply elem_of_cons; now right.
      * rewrite !bool_decide_false; auto.
        rewrite elem_of_cons; intros [?|?]; congruence.
Qed.

Lemma dict_keys_set_elem d k v k' :
  k' ∈ dict_keys (dict_set d k v) <-> k' = k \/ k' ∈ dict_keys d.
Proof.
  rewrite !dict_keys_get, dict_get_set.
  destruct (decide (k = k')) as [->|Hne].
  - split; [now left | eauto].
  - split; [now right | intros [?|?]; congruence || assumption].
Qed.

Lemma dict_set_NoDup d k v :
  NoDup (dict_keys d) -> NoDup (dict_keys (dict_set d k v)).
Proof.
  intros Hnd. rewrite dict_keys_set. case_bool_decide; [exact Hnd|].
  apply list.NoDup_app. split; [exact Hnd|]. split.
  - intros x Hx Hx'. apply list_elem_of_singleton in Hx'. congruence.
  - apply NoDup_singleton.
Qed.

(** Entries other than the assigned one are kept. *)
Lemma dict_set_elem_ne d k v k' v' :
  k' <> k -> ((k', v') ∈ dict_set d k v <-> (k', v') ∈ d).
Proof.
  intros Hne. induction d as [|[k0 v0] d IH]; simpl.
  - rewrite list_elem_of_singleton. split; [congruence | intros H; inversion H].
  - destruct (decide (k0 = k)) as [->|Hne0].
    + rewrite !elem_of_cons. split; intros [?|?]; try congruence; now right.
    + rewrite !elem_of_cons, IH. reflexivity.
Qed.

Lemma dict_set_elem d k v k' v' :
  (k', v') ∈ dict_set d k v -> (k' = k /\ v' = v) \/ (k', v') ∈ d.
Proof.
  induction d as [|[k0 v0] d IH]; simpl.
  - rewrite list_elem_of_singleton. intros [= -> ->]. now left.
  - destruct (decide (k0 = k)) as [->|Hne0].
    + rewrite !elem_of_cons. intros [[= -> ->]|?]; [now left | right; now right].
    + rewrite !elem_of_cons. intros [?|?]; [right; now left|].
      destruct IH as [?|?]; auto.
Qed.

Lemma dict_set_nonempty d k v : dict_set d k v <> [].
Proof.
  destruct d as [|[k0 v0] d]; simpl; [discriminate|].
  destruct (decide (k0 = k)); discriminate.
Qed.
End DictFacts.

(* ===================================================================== *)
(** * Properties of Distance *)
(* ===================================================================== *)

Module DistanceFacts.
Import Distance.

Lemma extend_get (p : Penalties) key l k :
  dict_get (extend p key l) k =
  if decide (key = k) then Some (default [] (dict_get p key) ++ l)%list
  else dict_get p k.
Proof.
  unfold extend. destruct (dict_get p key) eqn:E; simpl;
    rewrite dict_get_set; reflexivity.
Qed.

Lemma add_get (d : t) key q k :
  dict_get (_penalties (add d key q)) k =
  if decide (key = k) then Some (contributions d key ++ [clamp01 q])%list
  else dict_get (_penalties d) k.
Proof. unfold add, contributions; simpl. apply extend_get. Qed.

Lemma add_get_ne (d : t) key q k :
  key <> k -> dict_get (_penalties (add d key q)) k = dict_get (_penalties d) k.
Proof. intros. rewrite add_get. now rewrite decide_False. Qed.

Lemma add_expr_get_ne (d : t) key b k :
  key <> k ->
  dict_get (_penalties (add_expr d key b)) k = dict_get (_penalties d) k.
Proof. intros. unfold add_expr. now apply add_get_ne. Qed.

Lemma add_ratio_get_ne (d : t) key n1 n2 k :
  key <> k ->
  dict_get (_penalties (add_ratio d key n1 n2)) k = dict_get (_penalties d) k.
Proof. intros. unfold add_ratio. now apply add_get_ne. Qed.

Lemma entries_for_absent (o : Penalties) k :
  k ∉ dict_keys o -> entries_for k o = [].
Proof.
  unfold entries_for. induction o as [|[k0 l0] o IH]; simpl; [reflexivity|].
  rewrite not_elem_of_cons. intros [Hne Hnin].
  rewrite bool_decide_false by congruence. auto.
Qed.

Lemma extend_fold_get (o p : Penalties) k :
  dict_get (fold_left (fun p kv => extend p (fst kv) (snd kv)) o p) k =
  if bool_decide (k ∈ dict_keys o)
  then Some (default [] (dict_get p k) ++ entries_for k o)%list
  else dict_get p k.
Proof.
  revert p. induction o as [|[k0 l0] o IH]; intros p.
  - rewrite bool_decide_false; [reflexivity | intros H; inversion H].
  - cbn [fold_left fst snd]. rewrite IH, extend_get.
    change (dict_keys ((k0, l0) :: o)) with (k0 :: dict_keys o).
    destruct (decide (k0 = k)) as [->|Hne].
    + rewrite (bool_decide_true (k ∈ k :: dict_keys o))
        by (apply elem_of_cons; now left).
      assert (E : entries_for k ((k, l0) :: o) = (l0 ++ entries_for k o)%list).
      { unfold entries_for. cbn [List.filter fst].
        rewrite bool_decide_true by reflexivity. reflexivity. }
      rewrite E. case_bool_decide; cbn [default].
      * now rewrite app_assoc.
      * rewrite entries_for_absent by assumption.
        now rewrite !app_nil_r.
    + assert (E : entries_for k ((k0, l0) :: o) = entries_for k o).
      { unfold entries_for. cbn [List.filter fst].
        rewrite bool_decide_false by exact Hne. reflexivity. }
      rewrite E.
      destruct (decide (k ∈ dict_keys o)) as [Hin|Hnin].
      * rewrite !bool_decide_true; auto. apply elem_of_cons; now right.
      * rewrite !bool_decide_false; auto.
        rewrite elem_of_cons. intros [?|?]; congruence.
Qed.

(** What [update] leaves under a key: the contributions already there,
    followed by those of the merged distance. *)
Lemma update_get (d other : t) k :
  dict_get (_penalties (update d other)) k =
  if bool_decide (k ∈ keys other)
  then Some (contributions d k ++ entries_for k (_penalties other))%list
  else dict_get (_penalties d) k.
Proof. unfold update, keys, contributions; simpl. apply extend_fold_get. Qed.

Lemma update_contributions (d other : t) k :
  contributions (update d other) k =
  (contributions d k ++ entries_for k (_penalties other))%list.
Proof.
  unfold contributions at 1. rewrite update_get. case_bool_decide; [reflexivity|].
  rewrite entries_for_absent by assumption. now rewrite app_nil_r.
Qed.

Lemma update_keys (d other : t) k :
  k ∈ keys (update d other) <-> k ∈ keys d \/ k ∈ keys other.
Proof.
  unfold keys at 1 2. rewrite !dict_keys_get, update_get.
  case_bool_decide; split; eauto.
  intros [?|?]; [assumption | contradiction].
Qed.

Lemma add_keys (d : t) key q k :
  k ∈ keys (add d key q) <-> k = key \/ k ∈ keys d.
Proof.
  unfold keys. rewrite !dict_keys_get, add_get.
  destruct (decide (key = k)) as [->|Hne]; split; eauto.
  intros [?|?]; [congruence | assumption].
Qed.
End DistanceFacts.

(* ===================================================================== *)
(** * The track distance *)
(* ===================================================================== *)

Section TrackDistanceFacts.
Variable cfg : Config.t.
Variable string_dist : Value -> Value -> Qc.
Variable plugins_track_distance : Item.t -> TrackInfo.t -> Distance.t.
Implicit Types (item : Item.t) (track_info : TrackInfo.t) (d : Distance.t).

Import Distance DistanceFacts.

Lemma clamp01_expr (b : bool) :
  clamp01 (if b then 1%Qc else 0%Qc) = if b then 1%Qc else 0%Qc.
Proof. destruct b; reflexivity. Qed.

(** Each factor only touches its own category. *)
Lemma length_factor_other item track_info d k :
  k <> "track_length" ->
  dict_get (_penalties (track_distance_length cfg item track_info d)) k
  = dict_get (_penalties d) k.
Proof.
  intros Hk. unfold track_distance_length.
  destruct (TrackInfo.length track_info); [|reflexivity].
  destruct (truthy _); [|reflexivity].
  apply add_ratio_get_ne. congruence.
Qed.

Lemma title_factor_other item track_info d k :
  k <> "track_title" ->
  dict_get (_penalties (track_distance_title string_dist item track_info d)) k
  = dict_get (_penalties d) k.
Proof.
  intros Hk. unfold track_distance_title, add_string.
  apply add_get_ne. congruence.
Qed.

Lemma artist_factor_other item track_info incl d k :
  k <> "track_artist" ->
  dict_get
    (_penalties (track_distance_artist string_dist item track_info incl d)) k
  = dict_get (_penalties d) k.
Proof.
  intros Hk. unfold track_distance_artist, add_string.
  destruct (artist_considered _ _ _); [|reflexivity].
  apply add_get_ne. congruence.
Qed.

Lemma index_factor_other item track_info d k :
  k <> "track_index" ->
  dict_get (_penalties (track_distance_index item track_info d)) k
  = dict_get (_penalties d) k.
Proof.
  intros Hk. unfold track_distance_index.
  destruct (_ && _); [|reflexivity].
  apply add_expr_get_ne. congruence.
Qed.

Lemma id_factor_other item track_info d k :
  k <> "track_id" ->
  dict_get (_penalties (track_distance_id item track_info d)) k
  = dict_get (_penalties d) k.
Proof.
  intros Hk. unfold track_distance_id.
  destruct (truthy_str _); [|reflexivity].
  apply add_expr_get_ne. congruence.
Qed.

Lemma medium_factor_other item track_info d k :
  k <> "medium" ->
  dict_get (_penalties (track_distance_medium item track_info d)) k
  = dict_get (_penalties d) k.
Proof.
  intros Hk. unfold track_distance_medium.
  destruct (_ && _); [|reflexivity].
  apply add_expr_get_ne. congruence.
Qed.

(** What the factors leave under "track_artist", "track_index" and
    "medium". *)
Lemma factors_track_artist item track_info incl :
  dict_get
    (_penalties (track_distance_factors cfg string_dist item track_info incl))
    "track_artist"
  = if artist_considered item track_info incl then
      Some [clamp01 (string_dist (VStr (Item.artist item))
                                 (VOptStr (TrackInfo.artist track_info)))]
    else None.
Proof.
  unfold track_distance_factors.
  rewrite medium_factor_other, id_factor_other, index_factor_other
    by discriminate.
  unfold track_distance_artist.
  destruct (artist_considered item track_info incl).
  - unfold add_string. rewrite add_get, decide_True by reflexivity.
    unfold contributions.
    rewrite title_factor_other, length_factor_other by discriminate.
    reflexivity.
  - rewrite title_factor_other, length_factor_other by discriminate.
    reflexivity.
Qed.

Lemma factors_track_index item track_info incl :
  dict_get
    (_penalties (track_distance_factors cfg string_dist item track_info incl))
    "track_index"
  = if truthy_opt_int (TrackInfo.index track_info)
       && truthy_int (Item.track item)
    then Some [if track_index_changed item track_info then 1%Qc else 0%Qc]
    else None.
Proof.
  unfold track_distance_factors.
  rewrite medium_factor_other, id_factor_other by discriminate.
  unfold track_distance_index.
  destruct (_ && _).
  - unfold add_expr. rewrite add_get, decide_True by reflexivity.
    unfold contributions.
    rewrite artist_factor_other, title_factor_other, length_factor_other
      by discriminate.
    rewrite clamp01_expr. reflexivity.
  - rewrite artist_factor_other, title_factor_other, length_factor_other
      by discriminate.
    reflexivity.
Qed.

Lemma factors_medium item track_info incl :
  dict_get
    (_penalties (track_distance_factors cfg string_dist item track_info incl))
    "medium"
  = if truthy_opt_int (TrackInfo.medium track_info)
       && truthy_int (Item.disc item)
    then Some [if negb (py_eq (VInt (Item.disc item))
                              (VOptInt (TrackInfo.medium track_info)))
               then 1%Qc else 0%Qc]
    else None.
Proof.
  unfold track_distance_factors, track_distance_medium.
  destruct (_ && _).
  - unfold add_expr. rewrite add_get, decide_True by reflexivity.
    unfold contributions.
    rewrite id_factor_other, index_factor_other, artist_factor_other,
      title_factor_other, length_factor_other by discriminate.
    rewrite clamp01_expr. reflexivity.
  - rewrite id_factor_other, index_factor_other, artist_factor_other,
      title_factor_other, length_factor_other by discriminate.
    reflexivity.
Qed.

(** A category that the factors leave empty holds the plugin's
    contributions only. *)
Lemma track_distance_skipped item track_info incl k :
  dict_get
    (_penalties (track_distance_factors cfg string_dist item track_info incl)) k
  = None ->
  let d := track_distance cfg string_dist plugins_track_distance
                          item track_info incl in
  let plugin := plugins_track_distance item track_info in
  contributions d k = entries_for k (_penalties plugin) /\
  (k ∈ keys d <-> k ∈ keys plugin).
Proof.
  intros Hnone d plugin. subst d. unfold track_distance. split.
  - rewrite update_contributions. unfold contributions. now rewrite Hnone.
  - rewrite update_keys. split; [|now right].
    intros [H|H]; [|exact H]. unfold keys in H.
    apply dict_keys_get in H as [x Hx]. congruence.
Qed.

(** A category in which the factors made the contribution [q] holds [q]
    followed by the plugin's contributions. *)
Lemma track_distance_contributed item track_info incl k q :
  dict_get
    (_penalties (track_distance_factors cfg string_dist item track_info incl)) k
  = Some [q] ->
  let d := track_distance cfg string_dist plugins_track_distance
                          item track_info incl in
  let plugin := plugins_track_distance item track_info in
  contributions d k = q :: entries_for k (_penalties plugin) /\
  k ∈ keys d.
Proof.
  intros Hsome d plugin. subst d. unfold track_distance. split.
  - rewrite update_contributions. unfold contributions. now rewrite Hsome.
  - rewrite update_keys. left. unfold keys. apply dict_keys_get. eauto.
Qed.
End TrackDistanceFacts.

Lemma truthy_opt_str_spec (o : option string) :
  truthy_opt_str o = true <-> exists a, o = Some a /\ a <> "".
Proof.
  destruct o as [a|]; unfold truthy_opt_str; simpl.
  - rewrite negb_true_iff, bool_decide_eq_false. split.
    + intros H. now exists a.
    + now intros [b [[= ->] H]].
  - split; [discriminate | intros [a [? _]]; discriminate].
Qed.

Lemma truthy_opt_int_spec (o : option Z) :
  truthy_opt_int o = true <-> exists n, o = Some n /\ n <> 0.
Proof.
  destruct o as [n|]; unfold truthy_opt_int; simpl.
  - rewrite negb_true_iff, Z.eqb_neq. split.
    + intros H. now exists n.
    + now intros [b [[= ->] H]].
  - split; [discriminate | intros [a [? _]]; discriminate].
Qed.

Lemma truthy_int_spec (n : Z) : truthy_int n = true <-> n <> 0.
Proof. unfold truthy_int; simpl. now rewrite negb_true_iff, Z.eqb_neq. Qed.

Lemma truthy_str_spec (s : string) : truthy_str s = true <-> s <> "".
Proof.
  unfold truthy_str; simpl. now rewrite negb_true_iff, bool_decide_eq_false.
Qed.

Lemma artist_considered_spec (item : Item.t) (track_info : TrackInfo.t)
    (incl_artist : bool) :
  artist_considered item track_info incl_artist = true <->
  incl_artist = true /\
  (exists a, TrackInfo.artist track_info = Some a /\ a <> "") /\
  lower (Item.artist item)
    ∉ [""; "various artists"; "various"; "va"; "unknown"].
Proof.
  unfold artist_considered.
  rewrite !andb_true_iff, negb_true_iff, bool_decide_eq_false,
    truthy_opt_str_spec.
  unfold VA_ARTISTS. tauto.
Qed.

(** C7.  [track_distance] makes the artist contribution, under the
    category "track_artist", exactly when [incl_artist] is requested, the
    track's artist is known and not empty, and the lower-cased local artist
    is none of "", "various artists", "various", "va", "unknown".  When it is
    made, it is the first contribution of the category, ahead of those of
    the plugins.  Otherwise the factor is skipped: the distance is the one
    computed without [incl_artist], and the category holds what the plugins
    contributed and nothing else; so it is absent unless a plugin uses
    it. *)
Theorem track_artist_factor_condition (cfg : Config.t)
    (string_dist : Value -> Value -> Qc)
    (plugins_track_distance : Item.t -> TrackInfo.t -> Distance.t)
    (item : Item.t) (track_info : TrackInfo.t) (incl_artist : bool) :
  let considered :=
    incl_artist = true /\
    (exists a, TrackInfo.artist track_info = Some a /\ a <> "") /\
    lower (Item.artist item)
      ∉ [""; "various artists"; "various"; "va"; "unknown"] in
  let d := track_distance cfg string_dist plugins_track_distance
                          item track_info incl_artist in
  let plugin := plugins_track_distance item track_info in
  (considered ->
   Distance.contributions d "track_artist" =
     Distance.clamp01 (string_dist (VStr (Item.artist item))
                                   (VOptStr (TrackInfo.artist track_info)))
     :: Distance.entries_for "track_artist" (Distance._penalties plugin) /\
   "track_artist" ∈ Distance.keys d) /\
  (~ considered ->
   d = track_distance cfg string_dist plugins_track_distance
                      item track_info false /\
   Distance.contributions d "track_artist" =
     Distance.entries_for "track_artist" (Distance._penalties plugin) /\
   ("track_artist" ∈ Distance.keys d <->
    "track_artist" ∈ Distance.keys plugin)).
Proof.
  intros considered d plugin.
  pose proof (artist_considered_spec item track_info incl_artist) as Hspec.
  pose proof (factors_track_artist cfg string_dist item track_info incl_artist)
    as Hf.
  split.
  - intros Hc. apply Hspec in Hc. rewrite Hc in Hf.
    now apply track_distance_contributed.
  - intros Hc.
    assert (Hn : artist_considered item track_info incl_artist = false).
    { destruct (artist_considered item track_info incl_artist) eqn:E;
        [|reflexivity].
      exfalso. apply Hc, Hspec. reflexivity. }
    rewrite Hn in Hf. split.
    + subst d. unfold track_distance, track_distance_factors,
        track_distance_artist.
      rewrite Hn.
      assert (Hfalse : artist_considered item track_info false = false)
        by reflexivity.
      now rewrite Hfalse.
    + now apply track_distance_skipped.
Qed.

(** The statement above, on concrete tracks: a local artist "Artist A" against a known
    artist is compared; "Various Artists" is not, nor is anything when
    [incl_artist] is off. *)
Lemma track_artist_factor_condition_witness :
  Distance.keys
    (track_distance Demo.cfg Demo.string_dist Demo.plugins_track_distance
                    Demo.item1 (Demo.track 1 "T" None) true)
  = ["track_title"; "track_artist"] /\
  Distance.keys
    (track_distance Demo.cfg Demo.string_dist Demo.plugins_track_distance
                    Demo.item_va (Demo.track 1 "T" None) true)
  = ["track_title"] /\
  "track_artist"
    ∈ Distance.keys
        (track_distance Demo.cfg Demo.string_dist Demo.plugins_track_distance
                        Demo.item1 (Demo.track 1 "T" None) true).
Proof.
  split; [reflexivity|]. split; [reflexivity|].
  destruct (track_artist_factor_condition
              Demo.cfg Demo.string_dist Demo.plugins_track_distance
              Demo.item1 (Demo.track 1 "T" None) true) as [H _].
  apply H. split; [reflexivity|]. split.
  - exists "Artist X". split; [reflexivity | discriminate].
  - vm_compute. intros Hin.
    repeat (apply elem_of_cons in Hin as [Hin|Hin]; [discriminate|]).
    inversion Hin.
Defined.

(** C10.  The track-index penalty is made exactly when the track's index
    and the item's track number are both known and not zero, the medium
    penalty exactly when the track's medium and the item's disc number are;
    otherwise the category holds what the plugins contributed and nothing
    else.  A track whose index (or medium) is 0 gets the same factors as the
    same track without index (or medium), and the same distance whenever the
    plugins do not tell the two apart. *)
Theorem track_distance_zero_is_unknown (cfg : Config.t)
    (string_dist : Value -> Value -> Qc)
    (plugins_track_distance : Item.t -> TrackInfo.t -> Distance.t)
    (item : Item.t) (track_info : TrackInfo.t) (incl_artist : bool) :
  let index_considered :=
    (exists n, TrackInfo.index track_info = Some n /\ n <> 0) /\
    Item.track item <> 0 in
  let medium_considered :=
    (exists n, TrackInfo.medium track_info = Some n /\ n <> 0) /\
    Item.disc item <> 0 in
  let distance_of t :=
    track_distance cfg string_dist plugins_track_distance item t incl_artist in
  let d := distance_of track_info in
  let plugin := plugins_track_distance item track_info in
  (index_considered ->
   Distance.contributions d "track_index" =
     (if track_index_changed item track_info then 1%Qc else 0%Qc)
     :: Distance.entries_for "track_index" (Distance._penalties plugin) /\
   "track_index" ∈ Distance.keys d) /\
  (~ index_considered ->
   Distance.contributions d "track_index" =
     Distance.entries_for "track_index" (Distance._penalties plugin) /\
   ("track_index" ∈ Distance.keys d <-> "track_index" ∈ Distance.keys plugin)) /\
  (medium_considered ->
   Distance.contributions d "medium" =
     (if negb (py_eq (VInt (Item.disc item))
                     (VOptInt (TrackInfo.medium track_info)))
      then 1%Qc else 0%Qc)
     :: Distance.entries_for "medium" (Distance._penalties plugin) /\
   "medium" ∈ Distance.keys d) /\
  (~ medium_considered ->
   Distance.contributions d "medium" =
     Distance.entries_for "medium" (Distance._penalties plugin) /\
   ("medium" ∈ Distance.keys d <-> "medium" ∈ Distance.keys plugin)) /\
  (TrackInfo.index track_info = Some 0 ->
   let unknown := TrackInfo.with_index track_info None in
   track_distance_factors cfg string_dist item track_info incl_artist =
   track_distance_factors cfg string_dist item unknown incl_artist /\
   (plugins_track_distance item unknown = plugin ->
    distance_of unknown = d)) /\
  (TrackInfo.medium track_info = Some 0 ->
   let unknown := TrackInfo.with_medium track_info None in
   track_distance_factors cfg string_dist item track_info incl_artist =
   track_distance_factors cfg string_dist item unknown incl_artist /\
   (plugins_track_distance item unknown = plugin ->
    distance_of unknown = d)).
Proof.
  intros index_considered medium_considered distance_of d plugin.
  pose proof (factors_track_index cfg string_dist item track_info incl_artist)
    as Hi.
  pose proof (factors_medium cfg string_dist item track_info incl_artist)
    as Hm.
  assert (Hic : truthy_opt_int (TrackInfo.index track_info)
                && truthy_int (Item.track item) = true <-> index_considered).
  { rewrite andb_true_iff, truthy_opt_int_spec, truthy_int_spec. reflexivity. }
  assert (Hmc : truthy_opt_int (TrackInfo.medium track_info)
                && truthy_int (Item.disc item) = true <-> medium_considered).
  { rewrite andb_true_iff, truthy_opt_int_spec, truthy_int_spec. reflexivity. }
  repeat apply conj.
  - intros H. apply Hic in H. rewrite H in Hi.
    now apply track_distance_contributed.
  - intros H. destruct (_ && _) eqn:E in Hi.
    + exfalso. apply H, Hic, E.
    + now apply track_distance_skipped.
  - intros H. apply Hmc in H. rewrite H in Hm.
    now apply track_distance_contributed.
  - intros H. destruct (_ && _) eqn:E in Hm.
    + exfalso. apply H, Hmc, E.
    + now apply track_distance_skipped.
  - intros Hz unknown.
    assert (E : track_distance_factors cfg string_dist item track_info
                  incl_artist
                = track_distance_factors cfg string_dist item unknown
                    incl_artist).
    { subst unknown. destruct track_info; simpl in Hz; subst.
      reflexivity. }
    split; [exact E|]. intros Hp. subst distance_of d; simpl.
    unfold track_distance. now rewrite Hp, E.
  - intros Hz unknown.
    assert (E : track_distance_factors cfg string_dist item track_info
                  incl_artist
                = track_distance_factors cfg string_dist item unknown
                    incl_artist).
    { subst unknown. destruct track_info; simpl in Hz; subst.
      reflexivity. }
    split; [exact E|]. intros Hp. subst distance_of d; simpl.
    unfold track_distance. now rewrite Hp, E.
Qed.

(** The statement above, on concrete tracks: index 1 against track number 1 is compared; an
    index of 0, or a track number of 0, is not. *)
Lemma track_distance_zero_is_unknown_witness :
  Distance.keys
    (track_distance Demo.cfg Demo.string_dist Demo.plugins_track_distance
                    Demo.item1 (Demo.track 1 "T" (Some 1)) false)
  = ["track_title"; "track_index"] /\
  Distance.keys
    (track_distance Demo.cfg Demo.string_dist Demo.plugins_track_distance
                    Demo.item_untracked (Demo.track 1 "T" (Some 1)) false)
  = ["track_title"] /\
  track_distance Demo.cfg Demo.string_dist Demo.plugins_track_distance
                 Demo.item1 (Demo.track 1 "T" None) false
  = track_distance Demo.cfg Demo.string_dist Demo.plugins_track_distance
                   Demo.item1 (Demo.track 1 "T" (Some 0)) false.
Proof.
  split; [reflexivity|]. split; [reflexivity|].
  destruct (track_distance_zero_is_unknown
              Demo.cfg Demo.string_dist Demo.plugins_track_distance
              Demo.item1 (Demo.track 1 "T" (Some 0)) false)
    as (_ & _ & _ & _ & H & _).
  destruct (H eq_refl) as [_ H']. apply H'. reflexivity.
Defined.

(* ===================================================================== *)
(** * Identifier lookup *)
(* ===================================================================== *)

(** The loop of [match_by_id] finds an identifier different from the first
    one exactly when two of the identifiers differ. *)
Lemma albumid_disagreement (first : string) (others : list string) :
  existsb (fun other => negb (bool_decide (other = first))) others = true <->
  exists a b, a ∈ first :: others /\ b ∈ first :: others /\ a <> b.
Proof.
  rewrite existsb_exists. split.
  - intros [x [Hin Hx]]. apply negb_true_iff, bool_decide_eq_false in Hx.
    exists x, first. split; [|split; [|exact Hx]].
    + apply elem_of_cons; right. now apply list_elem_of_In.
    + apply elem_of_cons; now left.
  - intros (a & b & Ha & Hb & Hab).
    destruct (decide (a = first)) as [->|Hna].
    + exists b. apply elem_of_cons in Hb as [->|Hb]; [congruence|].
      split; [now apply list_elem_of_In|].
      apply negb_true_iff, bool_decide_eq_false. congruence.
    + exists a. apply elem_of_cons in Ha as [->|Ha]; [congruence|].
      split; [now apply list_elem_of_In|].
      now apply negb_true_iff, bool_decide_eq_false.
Qed.

Lemma carried_albumid (items : list Item.t) (a : string) :
  a ∈ List.filter truthy_str (map Item.mb_albumid items) <->
  exists i, i ∈ items /\ Item.mb_albumid i = a /\ a <> "".
Proof.
  rewrite list_elem_of_In, filter_In, in_map_iff, truthy_str_spec. split.
  - intros [[i [E Hin]] Hne]. exists i. now rewrite list_elem_of_In.
  - intros [i [Hin [E Hne]]]. split; [|exact Hne].
    exists i. now rewrite <- list_elem_of_In.
Qed.

(** C6.  [match_by_id] looks an album up only on unanimous agreement of the
    album identifiers the records carry, a record with the empty identifier
    carrying none: when two records carry different non-empty identifiers
    it returns [None] and hands nothing to the lookup; the same holds when
    no record carries an identifier; otherwise, records with the empty
    identifier or not, the one identifier carried is looked up.  In
    particular three records carrying "A1" and a fourth carrying "A2" give
    [None]. *)
Theorem match_by_id_requires_agreement
    (album_for_mbid : string -> option AlbumInfo.t) (items : list Item.t) :
  ((exists i j, i ∈ items /\ j ∈ items /\
                Item.mb_albumid i <> "" /\ Item.mb_albumid j <> "" /\
                Item.mb_albumid i <> Item.mb_albumid j) ->
   match_by_id album_for_mbid items = ([], None)) /\
  ((forall i, i ∈ items -> Item.mb_albumid i = "") ->
   match_by_id album_for_mbid items = ([], None)) /\
  (forall first,
     (exists i, i ∈ items /\ Item.mb_albumid i = first) ->
     first <> "" ->
     (forall i, i ∈ items -> Item.mb_albumid i <> "" ->
                Item.mb_albumid i = first) ->
     match_by_id album_for_mbid items = ([first], album_for_mbid first)) /\
  (forall i1 i2 i3 i4,
     items = [i1; i2; i3; i4] ->
     Item.mb_albumid i1 = "A1" -> Item.mb_albumid i2 = "A1" ->
     Item.mb_albumid i3 = "A1" -> Item.mb_albumid i4 = "A2" ->
     match_by_id album_for_mbid items = ([], None)).
Proof.
  assert (Hdis : (exists i j, i ∈ items /\ j ∈ items /\
                    Item.mb_albumid i <> "" /\ Item.mb_albumid j <> "" /\
                    Item.mb_albumid i <> Item.mb_albumid j) ->
                 match_by_id album_for_mbid items = ([], None)).
  { intros (i & j & Hi & Hj & Hti & Htj & Hne). unfold match_by_id.
    destruct (List.filter truthy_str (map Item.mb_albumid items))
      as [|first others] eqn:E; [reflexivity|].
    rewrite (proj2 (albumid_disagreement first others)); [reflexivity|].
    exists (Item.mb_albumid i), (Item.mb_albumid j). rewrite <- E.
    split; [|split; [|exact Hne]]; apply carried_albumid; eauto. }
  split; [exact Hdis|]. split; [|split].
  - intros Hall. unfold match_by_id.
    destruct (List.filter truthy_str (map Item.mb_albumid items))
      as [|first others] eqn:E; [reflexivity|].
    assert (Hin : first ∈ List.filter truthy_str (map Item.mb_albumid items))
      by (rewrite E; apply elem_of_cons; now left).
    apply carried_albumid in Hin as (i & Hi & Hid & Hne).
    rewrite (Hall i Hi) in Hid. congruence.
  - intros first (i & Hi & Hid) Hne Hall. unfold match_by_id.
    destruct (List.filter truthy_str (map Item.mb_albumid items))
      as [|first' others] eqn:E.
    + assert (Hin : first ∈ List.filter truthy_str (map Item.mb_albumid items))
        by (apply carried_albumid; eauto).
      rewrite E in Hin. inversion Hin.
    + assert (Hcar : forall a, a ∈ first' :: others -> a = first).
      { intros a Ha. rewrite <- E in Ha.
        apply carried_albumid in Ha as (i' & Hi' & Hid' & Hne').
        rewrite <- Hid'. apply Hall; [exact Hi' | congruence]. }
      assert (first' = first) as -> by (apply Hcar, elem_of_cons; now left).
      destruct (existsb _ others) eqn:Ex; [|reflexivity].
      apply albumid_disagreement in Ex as (a & b & Ha & Hb & Hab).
      rewrite (Hcar a Ha), (Hcar b Hb) in Hab. congruence.
  - intros i1 i2 i3 i4 -> H1 H2 H3 H4. apply Hdis.
    exists i1, i4. rewrite H1, H4.
    repeat split; try discriminate.
    + apply elem_of_cons; now left.
    + do 3 (apply elem_of_cons; right). apply elem_of_cons; now left.
Qed.

(** The statement above, on four records, three of the album "A1" and one of "A2". *)
Lemma match_by_id_requires_agreement_witness :
  match_by_id Demo.album_for_mbid
    [Demo.item1; Demo.item2; Demo.item1; Demo.item_va] = ([], None).
Proof.
  destruct (match_by_id_requires_agreement Demo.album_for_mbid
              [Demo.item1; Demo.item2; Demo.item1; Demo.item_va])
    as (_ & _ & _ & H).
  apply (H Demo.item1 Demo.item2 Demo.item1 Demo.item_va); reflexivity.
Defined.

(** Records without an album identifier take no part in the agreement: of
    two records whose album identifiers differ, one being empty, the
    identifier of the other is looked up. *)
Lemma match_by_id_skips_untagged :
  Item.mb_albumid Demo.item1 = "A1" /\
  Item.mb_albumid Demo.item_untracked = "" /\
  Item.mb_albumid Demo.item1 <> Item.mb_albumid Demo.item_untracked /\
  match_by_id Demo.album_for_mbid [Demo.item1; Demo.item_untracked]
  = (["A1"], Some Demo.release).
Proof. repeat split. discriminate. Qed.

(* ===================================================================== *)
(** * plurality *)
(* ===================================================================== *)

Lemma dict_elem_get {K V : Type} `{EqDecision K} (d : dict K V) k v :
  NoDup (dict_keys d) -> (k, v) ∈ d -> dict_get d k = Some v.
Proof.
  induction d as [|[k0 v0] d IH]; simpl; intros Hnd Hin; [inversion Hin|].
  apply list.NoDup_cons in Hnd as [Hnin Hnd].
  apply elem_of_cons in Hin as [[= -> ->]|Hin].
  - now rewrite decide_True.
  - rewrite decide_False; [auto|]. intros ->. apply Hnin.
    unfold dict_keys. apply list_elem_of_fmap. now exists (k, v).
Qed.

Section PluralityFacts.
Context {A : Type} `{EqDecision A}.
Implicit Types (objs : list A) (c : dict A nat) (v : A).

(** The number of occurrences of [v] in [objs]. *)
Abbreviation occ objs v := (count_occ (fun x y : A => decide (x = y)) objs v).

Lemma counter_fold_count objs c v :
  default O (dict_get (fold_left counter_step objs c) v) =
  (default O (dict_get c v) + occ objs v)%nat.
Proof.
  revert c. induction objs as [|x objs IH]; intros c; simpl; [lia|].
  rewrite IH. unfold counter_step. rewrite dict_get_set.
  destruct (decide (x = v)) as [->|Hne]; simpl; lia.
Qed.

Lemma counter_fold_keys objs c v :
  v ∈ dict_keys (fold_left counter_step objs c) <-> v ∈ dict_keys c \/ v ∈ objs.
Proof.
  revert c. induction objs as [|x objs IH]; intros c; simpl.
  - split; [now left | intros [?|H]; [assumption | inversion H]].
  - rewrite IH. unfold counter_step. rewrite dict_keys_set_elem, elem_of_cons.
    tauto.
Qed.

Lemma counter_fold_NoDup objs c :
  NoDup (dict_keys c) -> NoDup (dict_keys (fold_left counter_step objs c)).
Proof.
  revert c. induction objs as [|x objs IH]; intros c Hnd; simpl; [exact Hnd|].
  apply IH. unfold counter_step. now apply dict_set_NoDup.
Qed.

Lemma counter_keys objs v : v ∈ dict_keys (counter objs) <-> v ∈ objs.
Proof.
  unfold counter. pose proof (counter_fold_keys objs [] v) as Hk.
  rewrite Hk. split; [|now right].
  intros [H'|H']; [inversion H' | exact H'].
Qed.

Lemma counter_NoDup objs : NoDup (dict_keys (counter objs)).
Proof.
  unfold counter. pose proof (counter_fold_NoDup objs []) as Hn.
  apply Hn. constructor.
Qed.

Lemma counter_get objs v :
  dict_get (counter objs) v =
  if decide (v ∈ objs) then Some (occ objs v) else None.
Proof.
  pose proof (counter_fold_count objs [] v) as Hc.
  pose proof (counter_keys objs v) as Hk.
  fold (counter objs) in Hc. simpl in Hc.
  destruct (decide (v ∈ objs)) as [Hin|Hnin].
  - assert (Hs : is_Some (dict_get (counter objs) v))
      by (apply dict_keys_get, Hk; assumption).
    destruct Hs as [n Hn]. rewrite Hn in Hc |- *. simpl in Hc. congruence.
  - apply dict_get_None. now rewrite Hk.
Qed.

Lemma counter_elem objs v n :
  (v, n) ∈ counter objs <-> v ∈ objs /\ n = occ objs v.
Proof.
  split.
  - intros Hin. apply dict_elem_get in Hin.
    + rewrite counter_get in Hin. destruct (decide (v ∈ objs)); [|discriminate].
      split; [assumption | congruence].
    + apply counter_NoDup.
  - intros [Hin ->]. apply dict_get_elem. rewrite counter_get.
    now rewrite decide_True.
Qed.

Lemma most_common_elem (best : A * nat) (l : list (A * nat)) :
  most_common best l ∈ best :: l.
Proof.
  revert best. induction l as [|kv l IH]; intros best; simpl.
  - apply elem_of_cons; now left.
  - specialize (IH (if (snd best <? snd kv)%nat then kv else best)).
    apply elem_of_cons in IH as [IH|IH].
    + rewrite IH. destruct (_ <? _)%nat.
      * apply elem_of_cons; right. apply elem_of_cons; now left.
      * apply elem_of_cons; now left.
    + apply elem_of_cons; right. apply elem_of_cons; now right.
Qed.

Lemma most_common_max (best : A * nat) (l : list (A * nat)) kv :
  kv ∈ best :: l -> (snd kv <= snd (most_common best l))%nat.
Proof.
  revert best kv. induction l as [|kv' l IH]; intros best kv Hin; simpl.
  - apply list_elem_of_singleton in Hin as ->. lia.
  - set (b' := if (snd best <? snd kv')%nat then kv' else best).
    assert (Hb' : (snd best <= snd b')%nat /\ (snd kv' <= snd b')%nat).
    { subst b'. destruct (Nat.ltb_spec (snd best) (snd kv')); lia. }
    assert (H0 : (snd b' <= snd (most_common b' l))%nat).
    { apply IH. apply elem_of_cons. now left. }
    apply elem_of_cons in Hin as [->|Hin]; [lia|].
    apply elem_of_cons in Hin as [->|Hin]; [lia|].
    apply IH. apply elem_of_cons. now right.
Qed.

(** On a non-empty sequence [plurality] returns one of its values, the
    number of its occurrences, and no value occurs more often. *)
Lemma plurality_spec objs :
  objs <> [] ->
  exists v freq,
    plurality objs = Ok (v, freq) /\
    v ∈ objs /\
    freq = occ objs v /\
    forall v', (occ objs v' <= freq)%nat.
Proof.
  intros Hne. unfold plurality.
  destruct (counter objs) as [|kv c] eqn:E.
  - exfalso. destruct objs as [|x objs]; [congruence|].
    assert (Hin : x ∈ dict_keys (counter (x :: objs))).
    { apply counter_keys. apply elem_of_cons; now left. }
    rewrite E in Hin. inversion Hin.
  - destruct (most_common kv c) as [v freq] eqn:Em.
    exists v, freq. split; [reflexivity|].
    pose proof (most_common_elem kv c) as Hin.
    rewrite Em, <- E in Hin. apply counter_elem in Hin as [Hin Hfreq].
    split; [exact Hin|]. split; [exact Hfreq|].
    intros v'. destruct (decide (v' ∈ objs)) as [Hin'|Hnin'].
    + assert (Hel : (v', occ objs v') ∈ kv :: c)
        by (rewrite <- E; now apply counter_elem).
      apply most_common_max in Hel. now rewrite Em in Hel.
    + rewrite (proj1 (count_occ_not_In _ objs v')); [lia|].
      now rewrite <- list_elem_of_In.
Qed.

(** A value fills the whole sequence exactly when all values are it. *)
Lemma occ_all objs v :
  occ objs v = List.length objs <-> forall x, x ∈ objs -> x = v.
Proof.
  induction objs as [|x objs IH]; simpl.
  - split; [intros _ y Hy; inversion Hy | reflexivity].
  - pose proof (count_occ_bound (fun x y : A => decide (x = y)) v objs) as Hb.
    destruct (decide (x = v)) as [->|Hne].
    + split.
      * intros Hc y Hy. apply elem_of_cons in Hy as [->|Hy]; [reflexivity|].
        apply IH; [lia | exact Hy].
      * intros Hall. f_equal. apply IH. intros y Hy. apply Hall.
        apply elem_of_cons; now right.
    + split; [lia|]. intros Hall. exfalso. apply Hne, Hall.
      apply elem_of_cons; now left.
Qed.
End PluralityFacts.

(* ===================================================================== *)
(** * The consensus extractor *)
(* ===================================================================== *)

Lemma getitem_field (i : Item.t) (field : string) :
  field ∈ fields -> Item.getitem i field = Ok (Item.value i field).
Proof.
  intros H. unfold fields in H.
  repeat (apply elem_of_cons in H as [->|H]; [reflexivity|]).
  inversion H.
Qed.

Lemma mapM_getitem (items : list Item.t) (field : string) :
  field ∈ fields ->
  mapM (fun item => Item.getitem item field) (List.filter Item.truth items)
  = Ok (map (fun item => Item.value item field) items).
Proof.
  intros Hf. induction items as [|i items IH]; [reflexivity|].
  cbn [List.filter Item.truth mapM map]. rewrite IH, (getitem_field i field Hf).
  reflexivity.
Qed.

(** The outcome of the loop over the fields. *)
Lemma current_metadata_loop_spec (items : list Item.t) (fs : list string)
    (likelies : gmap string Value) (consensus : gmap string bool) :
  items <> [] ->
  (forall f, f ∈ fs -> f ∈ fields) ->
  exists likelies' consensus',
    current_metadata_loop items fs likelies consensus
    = Ok (likelies', consensus') /\
    forall f,
      (f ∈ fs ->
       let values := map (fun item => Item.value item f) items in
       exists v flag,
         likelies' !! f = Some v /\ most_frequent values v /\
         consensus' !! f = Some flag /\
         (flag = true <-> forall x, x ∈ values -> x = v)) /\
      (f ∉ fs ->
       likelies' !! f = likelies !! f /\ consensus' !! f = consensus !! f).
Proof.
  intros Hne. revert likelies consensus.
  induction fs as [|f0 fs IH]; intros likelies consensus Hfs.
  - exists likelies, consensus. split; [reflexivity|]. intros f. split.
    + intros H. inversion H.
    + intros _. split; reflexivity.
  - cbn [current_metadata_loop].
    rewrite mapM_getitem by (apply Hfs, elem_of_cons; now left).
    set (values0 := map (fun item => Item.value item f0) items).
    assert (Hv0 : values0 <> []).
    { subst values0. destruct items; [congruence | discriminate]. }
    destruct (plurality_spec values0 Hv0) as (v0 & freq & Hp & Hin & Hfreq & Hmax).
    res_step. rewrite Hp. res_step.
    destruct (IH (<[f0:=v0]> likelies)
                 (<[f0:=bool_decide (freq = List.length values0)]> consensus))
      as (lk & cs & Hloop & Hspec).
    { intros f Hf. apply Hfs, elem_of_cons. now right. }
    exists lk, cs. split; [exact Hloop|]. intros f. split.
    + intros Hf. cbv zeta. destruct (decide (f ∈ fs)) as [Hin'|Hnin'].
      * now apply Hspec.
      * apply elem_of_cons in Hf as [->|Hf]; [|contradiction].
        destruct (Hspec f0) as [_ Hrest].
        destruct (Hrest Hnin') as [Hl Hc].
        exists v0, (bool_decide (freq = List.length values0)).
        rewrite Hl, Hc, !lookup_insert_eq.
        split; [reflexivity|]. split; [|split; [reflexivity|]].
        -- split; [exact Hin|]. intros v'. specialize (Hmax v').
           rewrite Hfreq in Hmax. exact Hmax.
        -- rewrite bool_decide_eq_true, Hfreq. apply occ_all.
    + intros Hnin. apply not_elem_of_cons in Hnin as [Hne0 Hnin].
      destruct (Hspec f) as [_ Hrest]. destruct (Hrest Hnin) as [Hl Hc].
      rewrite Hl, Hc, !lookup_insert_ne by congruence. split; reflexivity.
Qed.

Lemma unanimous_values (items : list Item.t) (field : string) (v : Value) :
  field ∈ fields ->
  v ∈ map (fun item => Item.value item field) items ->
  (forall x, x ∈ map (fun item => Item.value item field) items -> x = v) <->
  (forall i j, i ∈ items -> j ∈ items ->
               Item.getitem i field = Item.getitem j field).
Proof.
  intros Hf Hv. split.
  - intros Hall i j Hi Hj. rewrite !getitem_field by exact Hf. f_equal.
    transitivity v; [|symmetry]; apply Hall, list_elem_of_fmap; eauto.
  - intros Hall x Hx.
    apply list_elem_of_fmap in Hx as [i [-> Hi]].
    apply list_elem_of_fmap in Hv as [j [-> Hj]].
    specialize (Hall i j Hi Hj). rewrite !getitem_field in Hall by exact Hf.
    congruence.
Qed.

(** C5.  On a non-empty sequence of records [current_metadata] returns,
    for every field of its list: a unanimity flag that is true exactly when
    all records have the same value for the field, and a likely value that
    is a most frequent one of the records' values; except that the likely
    "artist" is the likely "albumartist" when the latter is unanimous and
    non-empty.  So records that all have the album artist "Artist X" and do
    not all have the same artist give artist = "Artist X", consensus.artist
    = false and consensus.albumartist = true. *)
Theorem current_metadata_consensus (items : list Item.t) :
  items <> [] ->
  exists likelies consensus,
    current_metadata items = Ok (likelies, consensus) /\
    (forall field,
       field ∈ fields ->
       let values := map (fun item => Item.value item field) items in
       exists flag v,
         consensus !! field = Some flag /\
         (flag = true <->
          forall i j, i ∈ items -> j ∈ items ->
                      Item.getitem i field = Item.getitem j field) /\
         likelies !! field = Some v /\
         (field <> "artist" -> most_frequent values v) /\
         (field = "artist" ->
          match consensus !! "albumartist", likelies !! "albumartist" with
          | Some true, Some la =>
              if truthy la then v = la else most_frequent values v
          | _, _ => most_frequent values v
          end)) /\
    (forall x,
       x <> "" ->
       (forall i, i ∈ items -> Item.albumartist i = x) ->
       (exists i j, i ∈ items /\ j ∈ items /\ Item.artist i <> Item.artist j) ->
       likelies !! "artist" = Some (VStr x) /\
       consensus !! "artist" = Some false /\
       consensus !! "albumartist" = Some true).
Proof.
  intros Hne.
  destruct (current_metadata_loop_spec items fields ∅ ∅ Hne (fun f H => H))
    as (lk & cs & Hloop & Hspec).
  assert (Hfa : "albumartist" ∈ fields)
    by (apply list_elem_of_In; simpl; auto 20).
  assert (Hfr : "artist" ∈ fields)
    by (apply list_elem_of_In; simpl; auto 20).
  destruct (proj1 (Hspec "albumartist") Hfa)
    as (va & fa & Hlva & Hmva & Hcfa & Hfa_iff).
  set (override := fa && truthy va).
  set (likelies := if override then <["artist" := va]> lk else lk).
  assert (Hcm : current_metadata items = Ok (likelies, cs)).
  { unfold current_metadata. destruct items as [|i0 items']; [congruence|].
    res_step. rewrite Hloop. res_step.
    unfold map_getitem. rewrite Hcfa. res_step.
    subst likelies override. destruct fa; [|reflexivity].
    rewrite Hlva. res_step. cbn [andb]. destruct (truthy va); reflexivity. }
  assert (Hla : likelies !! "albumartist" = Some va).
  { subst likelies. destruct override; [|exact Hlva].
    rewrite lookup_insert_ne by discriminate. exact Hlva. }
  assert (Hfields : forall field,
    field ∈ fields ->
    let values := map (fun item => Item.value item field) items in
    exists flag v,
      cs !! field = Some flag /\
      (flag = true <->
       forall i j, i ∈ items -> j ∈ items ->
                   Item.getitem i field = Item.getitem j field) /\
      likelies !! field = Some v /\
      (field <> "artist" -> most_frequent values v) /\
      (field = "artist" ->
       if override then v = va else most_frequent values v)).
  { intros field Hf values.
    destruct (proj1 (Hspec field) Hf) as (v & flag & Hlv & Hmv & Hcf & Hiff).
    fold values in Hmv, Hiff.
    assert (Hflag : flag = true <->
              forall i j, i ∈ items -> j ∈ items ->
                          Item.getitem i field = Item.getitem j field).
    { rewrite Hiff. apply unanimous_values; [exact Hf | apply Hmv]. }
    destruct (decide (field = "artist")) as [->|Hna].
    - subst likelies. destruct override.
      + exists flag, va. rewrite lookup_insert_eq.
        split; [exact Hcf|]. split; [exact Hflag|]. split; [reflexivity|].
        split; [congruence | reflexivity].
      + exists flag, v.
        split; [exact Hcf|]. split; [exact Hflag|]. split; [exact Hlv|].
        split; [congruence | intros _; exact Hmv].
    - exists flag, v.
      split; [exact Hcf|]. split; [exact Hflag|]. split.
      + subst likelies. destruct override; [|exact Hlv].
        rewrite lookup_insert_ne by congruence. exact Hlv.
      + split; [intros _; exact Hmv | congruence]. }
  exists likelies, cs. split; [exact Hcm|]. split.
  - intros field Hf values.
    destruct (Hfields field Hf) as (flag & v & H1 & H2 & H3 & H4 & H5).
    exists flag, v. split; [exact H1|]. split; [exact H2|].
    split; [exact H3|]. split; [exact H4|].
    intros E. specialize (H5 E). rewrite Hcfa, Hla.
    subst override. destruct fa; simpl in H5 |- *; [|exact H5].
    destruct (truthy va); exact H5.
  - intros x Hx Hall (i & j & Hi & Hj & Hij).
    assert (Hva : va = VStr x).
    { destruct Hmva as [Hin _].
      apply list_elem_of_fmap in Hin as [i' [-> Hi']].
      unfold Item.value. simpl. now rewrite (Hall i' Hi'). }
    assert (Hfat : fa = true).
    { apply Hfa_iff. intros y Hy.
      apply list_elem_of_fmap in Hy as [i' [-> Hi']].
      unfold Item.value. simpl. rewrite (Hall i' Hi'). now symmetry. }
    assert (Hov : override = true).
    { subst override. rewrite Hfat, Hva. simpl.
      apply negb_true_iff, bool_decide_eq_false. exact Hx. }
    destruct (Hfields "artist" Hfr) as (flag & v & H1 & H2 & H3 & _ & H5).
    specialize (H5 eq_refl). rewrite Hov in H5. subst v.
    split; [now rewrite H3, Hva|]. split; [|now rewrite Hcfa, Hfat].
    rewrite H1. f_equal. destruct flag; [|reflexivity].
    exfalso. apply Hij.
    assert (Hg : Item.getitem i "artist" = Item.getitem j "artist")
      by (apply H2; [reflexivity | exact Hi | exact Hj]).
    unfold Item.getitem in Hg. simpl in Hg. congruence.
Qed.

(** The statement above, on ten records of the album artist "Artist X" by two artists. *)
Lemma current_metadata_consensus_witness :
  exists likelies consensus,
    current_metadata Demo.ten_items = Ok (likelies, consensus) /\
    likelies !! "artist" = Some (VStr "Artist X") /\
    consensus !! "artist" = Some false /\
    consensus !! "albumartist" = Some true.
Proof.
  destruct (current_metadata_consensus Demo.ten_items)
    as (likelies & consensus & H1 & _ & H3); [discriminate|].
  exists likelies, consensus. split; [exact H1|].
  apply (H3 "Artist X"); [discriminate | |].
  - intros i Hi. apply list_elem_of_In in Hi. simpl in Hi.
    repeat (destruct Hi as [<-|Hi]; [reflexivity|]). contradiction.
  - exists (Demo.item 1 "T" "Artist B" "Artist X" "A1" 1),
           (Demo.item 2 "T" "Artist A" "Artist X" "A1" 2).
    split; [|split; [|discriminate]]; apply list_elem_of_In; simpl; auto.
Defined.

(** The same by evaluation; and an empty sequence is refused. *)
Example current_metadata_ten_items :
  Demo.artist_summary (current_metadata Demo.ten_items)
  = Some (Some (VStr "Artist X"), Some false, Some true).
Proof. vm_compute. reflexivity. Qed.

Example current_metadata_empty : current_metadata [] = Raise AssertionError.
Proof. reflexivity. Qed.

(* ===================================================================== *)
(** * Comparisons and sorting *)
(* ===================================================================== *)

Lemma string_ltb_trans (s t u : string) :
  String.ltb s t = true -> String.ltb t u = true -> String.ltb s u = true.
Proof.
  unfold String.ltb. intros H1 H2.
  destruct (String.compare s t) eqn:E1; try discriminate.
  destruct (String.compare t u) eqn:E2; try discriminate.
  apply String_as_OT.cmp_lt in E1, E2.
  pose proof (String_as_OT.lt_trans _ _ _ E1 E2) as H.
  apply String_as_OT.cmp_lt in H. unfold String_as_OT.cmp in H. now rewrite H.
Qed.

Lemma string_ltb_asym (s t : string) :
  String.ltb s t = true -> String.ltb t s = false.
Proof.
  unfold String.ltb. intros H. rewrite String.compare_antisym.
  destruct (String.compare s t); try discriminate. reflexivity.
Qed.

Lemma string_ltb_irrefl (s : string) : String.ltb s s = false.
Proof.
  destruct (String.ltb s s) eqn:E; [|reflexivity].
  pose proof (string_ltb_asym s s E). congruence.
Qed.

Lemma as_number_eq (a b : Value) :
  as_number a = None -> py_eq a b = true -> a = b.
Proof.
  unfold py_eq. intros ->. now rewrite bool_decide_eq_true.
Qed.

Lemma py_eq_refl (a : Value) : py_eq a a = true.
Proof.
  unfold py_eq. destruct (as_number a); now rewrite bool_decide_eq_true.
Qed.

Lemma py_eq_sym (a b : Value) : py_eq a b = py_eq b a.
Proof.
  unfold py_eq. destruct (as_number a), (as_number b);
    apply bool_decide_ext; split; congruence.
Qed.

Lemma py_eq_numbers (a b : Value) :
  py_eq a b = true ->
  as_number a = as_number b.
Proof.
  unfold py_eq.
  destruct (as_number a) eqn:Ea, (as_number b) eqn:Eb;
    rewrite bool_decide_eq_true; intros H; congruence.
Qed.

(** Equal values compare alike. *)
Lemma py_lt_eq_l (a a' b : Value) :
  py_eq a a' = true -> py_lt a b = py_lt a' b.
Proof.
  intros H. pose proof (py_eq_numbers a a' H) as Hn. unfold py_lt.
  rewrite <- Hn. destruct (as_number a) eqn:Ea.
  - destruct (as_number b); [reflexivity|].
    destruct a, a'; simpl in *; try discriminate; reflexivity.
  - now rewrite (as_number_eq a a' Ea H).
Qed.

Lemma py_lt_eq_r (a b b' : Value) :
  py_eq b b' = true -> py_lt a b = py_lt a b'.
Proof.
  intros H. pose proof (py_eq_numbers b b' H) as Hn. unfold py_lt.
  rewrite <- Hn. destruct (as_number b) eqn:Eb.
  - destruct (as_number a); [reflexivity|].
    destruct a; try reflexivity.
    destruct b, b'; simpl in *; try discriminate; reflexivity.
  - now rewrite (as_number_eq b b' Eb H).
Qed.

Lemma py_eq_trans (a b c : Value) :
  py_eq a b = true -> py_eq b c = true -> py_eq a c = true.
Proof.
  intros H1 H2.
  pose proof (py_eq_numbers a b H1) as Hn1.
  pose proof (py_eq_numbers b c H2) as Hn2.
  destruct (as_number a) eqn:Ea.
  - unfold py_eq. rewrite Ea, <- Hn2, <- Hn1. now rewrite bool_decide_eq_true.
  - rewrite (as_number_eq a b Ea H1). exact H2.
Qed.

Lemma py_lt_trans (a b c : Value) :
  py_lt a b = Ok true -> py_lt b c = Ok true -> py_lt a c = Ok true.
Proof.
  unfold py_lt.
  destruct (as_number a) as [x|] eqn:Ea, (as_number b) as [y|] eqn:Eb,
    (as_number c) as [z|] eqn:Ec;
    intros H1 H2;
    try (destruct a, b; simpl in *; congruence);
    try (destruct b, c; simpl in *; congruence).
  - injection H1 as H1. injection H2 as H2.
    apply bool_decide_eq_true in H1, H2. f_equal.
    apply bool_decide_eq_true. eapply Qclt_trans; eauto.
  - destruct a, b, c; simpl in *; try congruence.
    injection H1 as H1. injection H2 as H2. f_equal.
    eapply string_ltb_trans; eauto.
Qed.

Lemma py_lt_asym (a b : Value) :
  py_lt a b = Ok true -> py_lt b a = Ok false.
Proof.
  unfold py_lt.
  destruct (as_number a) as [x|] eqn:Ea, (as_number b) as [y|] eqn:Eb;
    intros H; try (destruct a, b; simpl in *; congruence).
  - injection H as H. apply bool_decide_eq_true in H. f_equal.
    apply bool_decide_eq_false. now apply Qcle_not_lt, Qclt_le_weak.
  - destruct a, b; simpl in *; try congruence.
    injection H as H. f_equal. now apply string_ltb_asym.
Qed.

Lemma py_lt_eq_false (a b : Value) :
  py_eq a b = true -> py_lt a b <> Ok true.
Proof.
  intros He Hl. rewrite (py_lt_eq_r a b a) in Hl by (now rewrite py_eq_sym).
  pose proof (py_lt_asym a a Hl). congruence.
Qed.

Lemma tuple_lt_refl (a : list Value) : tuple_lt a a = Ok false.
Proof.
  induction a as [|x a IH]; simpl; [reflexivity|]. now rewrite py_eq_refl.
Qed.

Lemma tuple_lt_trans (a b c : list Value) :
  tuple_lt a b = Ok true -> tuple_lt b c = Ok true -> tuple_lt a c = Ok true.
Proof.
  revert b c. induction a as [|x a IH]; intros [|y b] [|z c]; simpl;
    try congruence.
  destruct (py_eq x y) eqn:Exy, (py_eq y z) eqn:Eyz; intros H1 H2.
  - rewrite (py_eq_trans x y z Exy Eyz). eauto.
  - assert (Exz : py_eq x z = false).
    { destruct (py_eq x z) eqn:E; [|reflexivity].
      rewrite py_eq_sym in Exy. rewrite (py_eq_trans y x z Exy E) in Eyz.
      discriminate. }
    rewrite Exz. now rewrite (py_lt_eq_l x y z Exy).
  - assert (Exz : py_eq x z = false).
    { destruct (py_eq x z) eqn:E; [|reflexivity].
      rewrite py_eq_sym in Eyz. rewrite (py_eq_trans x z y E Eyz) in Exy.
      discriminate. }
    rewrite Exz. rewrite py_eq_sym in Eyz.
    now rewrite (py_lt_eq_r x z y Eyz).
  - pose proof (py_lt_trans x y z H1 H2) as H.
    destruct (py_eq x z) eqn:E; [|exact H].
    exfalso. now apply (py_lt_eq_false x z E).
Qed.

Lemma tuple_lt_asym (a b : list Value) :
  tuple_lt a b = Ok true -> tuple_lt b a = Ok false.
Proof.
  revert b. induction a as [|x a IH]; intros [|y b]; simpl; try congruence.
  rewrite (py_eq_sym y x). destruct (py_eq x y); [apply IH | apply py_lt_asym].
Qed.

Section SortFacts.
Context {A : Type} (key : A -> list Value).
Implicit Types (x y z : A) (l : list A).

Lemma key_lt_true x y :
  key_lt key x y = true <-> tuple_lt (key x) (key y) = Ok true.
Proof.
  unfold key_lt. destruct (tuple_lt (key x) (key y)) as [[|]|];
    split; congruence.
Qed.

Lemma key_lt_trans x y z :
  key_lt key x y = true -> key_lt key y z = true -> key_lt key x z = true.
Proof. rewrite !key_lt_true. apply tuple_lt_trans. Qed.

Lemma key_lt_asym x y : key_lt key x y = true -> key_lt key y x = false.
Proof.
  rewrite key_lt_true. intros H. unfold key_lt.
  now rewrite (tuple_lt_asym _ _ H).
Qed.

Lemma insert_sorted_perm x l : Permutation (insert_sorted key x l) (x :: l).
Proof.
  induction l as [|y l IH]; simpl; [reflexivity|].
  destruct (key_lt key x y); [reflexivity|].
  rewrite IH. apply perm_swap.
Qed.

Lemma stable_sort_fold_perm l acc :
  Permutation (fold_left (fun acc x => insert_sorted key x acc) l acc)
              (acc ++ l).
Proof.
  revert acc. induction l as [|x l IH]; intros acc; simpl.
  - now rewrite app_nil_r.
  - rewrite IH, insert_sorted_perm. simpl. apply Permutation_middle.
Qed.

Lemma stable_sort_perm l : Permutation (stable_sort key l) l.
Proof. unfold stable_sort. apply (stable_sort_fold_perm l []). Qed.

Lemma insert_sorted_sorted x l :
  StronglySorted (key_le key) l -> StronglySorted (key_le key) (insert_sorted key x l).
Proof.
  induction 1 as [|y l Hs IH Hy]; simpl.
  - constructor; constructor.
  - destruct (key_lt key x y) eqn:E.
    + constructor; [constructor; assumption|].
      constructor; [unfold key_le; now apply key_lt_asym|].
      rewrite List.Forall_forall in Hy |- *. intros z Hz. unfold key_le.
      destruct (key_lt key z x) eqn:Ez; [|reflexivity].
      pose proof (key_lt_trans z x y Ez E) as Hzy.
      specialize (Hy z Hz). unfold key_le in Hy. congruence.
    + constructor; [exact IH|].
      rewrite List.Forall_forall in Hy |- *. intros z Hz.
      apply (Permutation_in _ (insert_sorted_perm x l)) in Hz.
      destruct Hz as [<-|Hz]; [exact E | now apply Hy].
Qed.

Lemma stable_sort_sorted l : StronglySorted (key_le key) (stable_sort key l).
Proof.
  unfold stable_sort.
  assert (H : forall acc, StronglySorted (key_le key) acc ->
              StronglySorted (key_le key)
                (fold_left (fun acc x => insert_sorted key x acc) l acc)).
  { induction l as [|x l IH]; intros acc Hacc; simpl; [exact Hacc|].
    apply IH. now apply insert_sorted_sorted. }
  apply H. constructor.
Qed.

(** The check of [py_sort] covers every pair of elements. *)
Lemma pairwise_comparable_spec l :
  pairwise_comparable key l = true <->
  forall x y, x ∈ l -> y ∈ l -> is_ok (tuple_lt (key x) (key y)) = true.
Proof.
  induction l as [|a l IH]; simpl.
  - split; [intros _ x y Hx; inversion Hx | reflexivity].
  - rewrite andb_true_iff, IH, forallb_forall. split.
    + intros [Ha Hl] x y Hx Hy.
      apply elem_of_cons in Hx as [->|Hx]; apply elem_of_cons in Hy as [->|Hy].
      * now rewrite tuple_lt_refl.
      * apply list_elem_of_In in Hy. specialize (Ha y Hy).
        unfold comparable in Ha. now apply andb_true_iff in Ha as [? _].
      * apply list_elem_of_In in Hx. specialize (Ha x Hx).
        unfold comparable in Ha. now apply andb_true_iff in Ha as [_ ?].
      * now apply Hl.
    + intros H. split.
      * intros y Hy. apply list_elem_of_In in Hy. unfold comparable.
        apply andb_true_iff. split; apply H;
          (apply elem_of_cons; (now left) || (now right)).
      * intros x y Hx Hy. apply H; apply elem_of_cons; now right.
Qed.

(** What a successful [py_sort] returns. *)
Lemma py_sort_spec l l' :
  py_sort key l = Ok l' ->
  Permutation l' l /\
  StronglySorted (fun x y => tuple_lt (key y) (key x) = Ok false) l'.
Proof.
  unfold py_sort. destruct (pairwise_comparable key l) eqn:E; [|discriminate].
  intros [= <-]. split; [apply stable_sort_perm|].
  pose proof (stable_sort_sorted l) as Hs.
  pose proof (proj1 (pairwise_comparable_spec l) E) as Hc.
  assert (Hin : forall x, x ∈ stable_sort key l -> x ∈ l).
  { intros x Hx. apply list_elem_of_In.
    apply list_elem_of_In in Hx.
    now apply (Permutation_in _ (stable_sort_perm l)). }
  induction Hs as [|x s Hs IH Hx]; constructor.
  - apply IH. intros y Hy. apply Hin, elem_of_cons. now right.
  - rewrite List.Forall_forall in Hx |- *. intros y Hy. specialize (Hx y Hy).
    unfold key_le, key_lt in Hx.
    assert (Hok : is_ok (tuple_lt (key y) (key x)) = true).
    { apply Hc; apply Hin, elem_of_cons;
        [right; now apply list_elem_of_In | now left]. }
    destruct (tuple_lt (key y) (key x)) as [[|]|]; simpl in *; congruence.
Qed.

Lemma py_sort_ok l :
  (forall x y, x ∈ l -> y ∈ l -> is_ok (tuple_lt (key x) (key y)) = true) ->
  exists l', py_sort key l = Ok l'.
Proof.
  intros H. unfold py_sort.
  rewrite (proj2 (pairwise_comparable_spec l) H). eauto.
Qed.
End SortFacts.

(** ** The order of the sort keys, spelled out *)

Lemma Z2Qc_lt (n m : Z) : (Z2Qc n < Z2Qc m)%Qc <-> n < m.
Proof.
  unfold Z2Qc, Qclt. simpl. rewrite !Qred_correct. unfold Qlt. simpl. lia.
Qed.

Lemma Z2Qc_inj (n m : Z) : Z2Qc n = Z2Qc m <-> n = m.
Proof.
  split; [|now intros ->]. intros H.
  destruct (Z.lt_trichotomy n m) as [Hlt|[Heq|Hgt]]; [|exact Heq|].
  - apply Z2Qc_lt in Hlt. rewrite H in Hlt.
    exfalso. apply (Qclt_not_le _ _ Hlt), Qcle_refl.
  - apply Z2Qc_lt in Hgt. rewrite H in Hgt.
    exfalso. apply (Qclt_not_le _ _ Hgt), Qcle_refl.
Qed.

Lemma py_eq_int (n m : Z) : py_eq (VInt n) (VInt m) = bool_decide (n = m).
Proof. unfold py_eq. simpl. apply bool_decide_ext, Z2Qc_inj. Qed.

Lemma py_lt_int (n m : Z) : py_lt (VInt n) (VInt m) = Ok (bool_decide (n < m)).
Proof. unfold py_lt. simpl. f_equal. apply bool_decide_ext, Z2Qc_lt. Qed.

Lemma py_eq_str (s t : string) : py_eq (VStr s) (VStr t) = bool_decide (s = t).
Proof.
  unfold py_eq. simpl. apply bool_decide_ext. split; congruence.
Qed.


(** The extra tracks are in ascending order of index, then title, when
    these are known. *)
Lemma extra_tracks_key_order (a b : TrackInfo.t) (ia ib : Z) (ta tb : string) :
  TrackInfo.index a = Some ia -> TrackInfo.index b = Some ib ->
  TrackInfo.title a = Some ta -> TrackInfo.title b = Some tb ->
  (tuple_lt (extra_tracks_key b) (extra_tracks_key a) = Ok false <->
   ia < ib \/ (ia = ib /\ String.ltb tb ta = false)).
Proof.
  intros Hia Hib Hta Htb. unfold extra_tracks_key.
  rewrite Hia, Hib, Hta, Htb. cbn [tuple_lt VOptInt VOptStr].
  rewrite py_eq_int, py_lt_int, py_eq_str. unfold py_lt. cbn [as_number].
  destruct (decide (ib = ia)) as [Ei|Ni].
  - rewrite (bool_decide_true _ Ei).
    destruct (decide (tb = ta)) as [Es|Ns].
    + rewrite (bool_decide_true _ Es), Es, string_ltb_irrefl.
      split; [intros _; right; now split | reflexivity].
    + rewrite (bool_decide_false _ Ns). split.
      * intros [= Hs]. right. now split.
      * intros [Hlt|[_ Hs]]; [lia | now rewrite Hs].
  - rewrite (bool_decide_false _ Ni). split.
    + intros [= Hb]. apply bool_decide_eq_false in Hb. left. lia.
    + intros Ho. f_equal. apply bool_decide_eq_false.
      destruct Ho as [Hlt|[Heq _]]; lia.
Qed.

(* ===================================================================== *)
(** * The track assignment *)
(* ===================================================================== *)

Lemma py_index_elem {A} (l : list A) (i : Z) (x : A) :
  py_index l i = Ok x -> x ∈ l.
Proof.
  unfold py_index. destruct (_ && _); [|discriminate].
  destruct (nth_error l _) eqn:E; [|discriminate].
  intros [= <-]. apply list_elem_of_In. eapply nth_error_In; eauto.
Qed.

Lemma py_index_ok {A} (l : list A) (i : Z) :
  0 <= i < Z.of_nat (List.length l) -> exists x, py_index l i = Ok x.
Proof.
  intros H. unfold py_index.
  rewrite (proj2 (Z.ltb_ge i 0)) by lia.
  rewrite (proj2 (Z.leb_le 0 i)) by lia.
  rewrite (proj2 (Z.ltb_lt i _)) by lia. simpl.
  destruct (nth_error l (Z.to_nat i)) eqn:E; [eauto|].
  apply nth_error_None in E. lia.
Qed.

Lemma extra_items_comparable (x y : Item.t) :
  is_ok (tuple_lt (extra_items_key x) (extra_items_key y)) = true.
Proof.
  unfold extra_items_key. simpl.
  repeat (destruct (py_eq _ _); [|reflexivity]). reflexivity.
Qed.

(** The comprehension of [assign_items] keeps the keys distinct, takes them
    from the items and the values from the tracks. *)
Lemma assign_items_mapping_spec (items : list Item.t)
    (pairs : list (Z * TrackInfo.t)) (mapping mapping' : Mapping) :
  assign_items_mapping items pairs mapping = Ok mapping' ->
  NoDup (dict_keys mapping) ->
  NoDup (dict_keys mapping') /\
  (forall i, i ∈ dict_keys mapping' -> i ∈ dict_keys mapping \/ i ∈ items) /\
  (forall t, t ∈ dict_values mapping' ->
             t ∈ dict_values mapping \/ t ∈ map snd pairs).
Proof.
  revert mapping. induction pairs as [|[iidx t] pairs IH]; intros mapping; simpl.
  - intros [= <-] Hnd. split; [exact Hnd|]. split; intros ? ?; now left.
  - destruct (iidx =? -1).
    + intros H Hnd. destruct (IH mapping H Hnd) as (H1 & H2 & H3).
      split; [exact H1|]. split; [exact H2|].
      intros t' Ht'. destruct (H3 t' Ht') as [?|?]; [now left|].
      right. apply elem_of_cons. now right.
    + destruct (py_index items iidx) as [item|] eqn:E; [|discriminate].
      res_step. intros H Hnd.
      destruct (IH _ H (dict_set_NoDup mapping item t Hnd)) as (H1 & H2 & H3).
      split; [exact H1|]. split.
      * intros i Hi. destruct (H2 i Hi) as [Hk|?]; [|now right].
        apply dict_keys_set_elem in Hk as [->|?]; [|now left].
        right. eapply py_index_elem; eauto.
      * intros t' Ht'. destruct (H3 t' Ht') as [Hv|?].
        -- unfold dict_values in Hv.
           apply list_elem_of_fmap in Hv as [[i0 t0] [-> Hv]].
           apply dict_set_elem in Hv as [[_ ->]|Hv].
           ++ right. apply elem_of_cons. now left.
           ++ left. unfold dict_values. apply list_elem_of_fmap.
              now exists (i0, t0).
        -- right. apply elem_of_cons. now right.
Qed.

Lemma assign_items_mapping_ok (items : list Item.t)
    (pairs : list (Z * TrackInfo.t)) (mapping : Mapping) :
  (forall p, p ∈ pairs ->
             fst p = -1 \/ 0 <= fst p < Z.of_nat (List.length items)) ->
  exists mapping', assign_items_mapping items pairs mapping = Ok mapping'.
Proof.
  revert mapping. induction pairs as [|[iidx t] pairs IH]; intros mapping H;
    simpl; [eauto|].
  assert (Hrest : forall p, p ∈ pairs ->
            fst p = -1 \/ 0 <= fst p < Z.of_nat (List.length items)).
  { intros p Hp. apply H, elem_of_cons. now right. }
  destruct (Z.eqb_spec iidx (-1)); [now apply IH|].
  destruct (H (iidx, t)) as [?|Hr]; [apply elem_of_cons; now left | contradiction|].
  destruct (py_index_ok items iidx Hr) as [item ->]. res_step. now apply IH.
Qed.

Lemma elem_of_combine_snd {A B} (l : list A) (k : list B) (b : B) :
  b ∈ map snd (combine l k) -> b ∈ k.
Proof.
  intros H. apply list_elem_of_fmap in H as [[a b'] [-> H]].
  apply list_elem_of_In in H. apply in_combine_r in H.
  now apply list_elem_of_In.
Qed.

Lemma elem_of_combine_fst {A B} (l : list A) (k : list B) (p : A * B) :
  p ∈ combine l k -> fst p ∈ l.
Proof.
  destruct p as [a b]. intros H. apply list_elem_of_In in H.
  apply in_combine_l in H. now apply list_elem_of_In.
Qed.

(** Membership in [list(set(xs) - ys)], whatever the iteration order. *)
Lemma set_difference_elem {A} `{EqDecision A} (order : list A -> list A)
    (xs ys : list A) (sorted : list A) :
  (forall l, Permutation (order l) l) ->
  Permutation sorted
    (order (remove_dups
              (List.filter (fun x => negb (bool_decide (x ∈ ys))) xs))) ->
  NoDup sorted /\ forall x, x ∈ sorted <-> x ∈ xs /\ x ∉ ys.
Proof.
  intros Horder Hperm. rewrite Horder in Hperm. split.
  - rewrite Hperm. apply NoDup_remove_dups.
  - intros x. rewrite Hperm, elem_of_remove_dups, list_elem_of_In, filter_In,
      negb_true_iff, bool_decide_eq_false, <- list_elem_of_In. reflexivity.
Qed.

Section AssignItems.
Variable cfg : Config.t.
Variable string_dist : Value -> Value -> Qc.
Variable plugins_track_distance : Item.t -> TrackInfo.t -> Distance.t.
Variable lapjv : list (list Qc) -> res (list Z).
Variable item_set_order : list Item.t -> list Item.t.
Variable track_set_order : list TrackInfo.t -> list TrackInfo.t.

(** A set is iterated in some order: each element once. *)
Hypothesis item_set_order_perm :
  forall l, Permutation (item_set_order l) l.
Hypothesis track_set_order_perm :
  forall l, Permutation (track_set_order l) l.

(** Whatever [assign_items] returns is a partition, with sorted extras. *)
Lemma assign_items_sound (items : list Item.t) (tracks : list TrackInfo.t)
    (mapping : Mapping) (extra_items : list Item.t)
    (extra_tracks : list TrackInfo.t) :
  assign_items cfg string_dist plugins_track_distance lapjv
               item_set_order track_set_order items tracks
  = Ok (mapping, extra_items, extra_tracks) ->
  (NoDup (dict_keys mapping) /\ NoDup extra_items /\
   (forall i, i ∈ dict_keys mapping -> i ∈ items) /\
   (forall i, i ∈ extra_items <-> i ∈ items /\ i ∉ dict_keys mapping)) /\
  (NoDup extra_tracks /\
   (forall t, t ∈ dict_values mapping -> t ∈ tracks) /\
   (forall t, t ∈ extra_tracks <-> t ∈ tracks /\ t ∉ dict_values mapping)) /\
  StronglySorted
    (fun a b => tuple_lt (extra_items_key b) (extra_items_key a) = Ok false)
    extra_items /\
  StronglySorted
    (fun a b => tuple_lt (extra_tracks_key b) (extra_tracks_key a) = Ok false)
    extra_tracks.
Proof.
  unfold assign_items. res_step.
  destruct (lapjv _) as [assigned|]; [|discriminate]. res_step.
  destruct (assign_items_mapping items (combine assigned tracks) [])
    as [m|] eqn:Em; [|discriminate]. res_step.
  destruct (py_sort extra_items_key _) as [ei|] eqn:Ei; [|discriminate].
  res_step.
  destruct (py_sort extra_tracks_key _) as [et|] eqn:Et; [|discriminate].
  res_step. intros [= <- <- <-].
  destruct (assign_items_mapping_spec _ _ _ _ Em) as (Hnd & Hkeys & Hvals);
    [constructor|].
  apply py_sort_spec in Ei as [Pi Si]. apply py_sort_spec in Et as [Pt St].
  destruct (set_difference_elem item_set_order items (dict_keys m) ei
              item_set_order_perm Pi) as [Ndi Hi].
  destruct (set_difference_elem track_set_order tracks (dict_values m) et
              track_set_order_perm Pt) as [Ndt Ht].
  repeat apply conj; try assumption.
  - intros i Hin. destruct (Hkeys i Hin) as [H|H]; [inversion H | exact H].
  - intros t Hin. destruct (Hvals t Hin) as [H|H]; [inversion H|].
    eapply elem_of_combine_snd; eauto.
Qed.





End AssignItems.


(** The sort of the extra tracks cannot order a track without index
    against one with an index: [assign_items] raises [TypeError]. *)
Example assign_items_unordered_tracks :
  assign_items Demo.cfg Demo.string_dist Demo.plugins_track_distance
               Demo.lapjv Demo.item_set_order Demo.track_set_order
               [Demo.item1]
               [Demo.track 1 "T" (Some 1); Demo.track 2 "U" None;
                Demo.track 3 "V" (Some 3)]
  = Raise TypeError.
Proof. vm_compute. reflexivity. Qed.

(* ===================================================================== *)
(** * The candidate accumulator *)
(* ===================================================================== *)

Lemma missing_required_found (info : AlbumInfo.t) (tags : list string) :
  (forall tag, tag ∈ tags -> is_ok (AlbumInfo.getattr info tag) = true) ->
  (exists tag, tag ∈ tags /\ AlbumInfo.getattr info tag = Ok VNone) ->
  missing_required info tags = Ok true.
Proof.
  induction tags as [|t tags IH]; intros Hknown [tag [Hin Hnone]].
  - inversion Hin.
  - simpl. destruct (AlbumInfo.getattr info t) as [v|e] eqn:E.
    + res_step. case_bool_decide; [reflexivity|].
      apply IH.
      * intros tag' Hin'. apply Hknown, elem_of_cons. now right.
      * apply elem_of_cons in Hin as [->|Hin]; [congruence|]. eauto.
    + specialize (Hknown t). rewrite E in Hknown.
      discriminate Hknown. apply elem_of_cons. now left.
Qed.

Lemma missing_required_none (info : AlbumInfo.t) (tags : list string) :
  (forall tag, tag ∈ tags ->
     exists v, AlbumInfo.getattr info tag = Ok v /\ v <> VNone) ->
  missing_required info tags = Ok false.
Proof.
  induction tags as [|t tags IH]; intros H; simpl; [reflexivity|].
  destruct (H t) as (v & -> & Hv); [apply elem_of_cons; now left|].
  res_step. rewrite bool_decide_false by exact Hv.
  apply IH. intros tag Hin. apply H, elem_of_cons. now right.
Qed.

Lemma missing_required_ok (info : AlbumInfo.t) (tags : list string) :
  (forall tag, tag ∈ tags -> is_ok (AlbumInfo.getattr info tag) = true) ->
  exists b, missing_required info tags = Ok b.
Proof.
  induction tags as [|t tags IH]; intros Hknown; simpl; [eauto|].
  destruct (AlbumInfo.getattr info t) as [v|e] eqn:E.
  - res_step. case_bool_decide; [eauto|].
    apply IH. intros tag Hin. apply Hknown, elem_of_cons. now right.
  - specialize (Hknown t). rewrite E in Hknown.
    discriminate Hknown. apply elem_of_cons. now left.
Qed.

(** The loop stops at the first required tag that is [None], or at the
    first that is no attribute. *)
Lemma missing_required_first (info : AlbumInfo.t) (before : list string)
    (tag : string) (after : list string) :
  (forall t, t ∈ before ->
     exists v, AlbumInfo.getattr info t = Ok v /\ v <> VNone) ->
  AlbumInfo.getattr info tag = Ok VNone ->
  missing_required info (before ++ tag :: after) = Ok true.
Proof.
  intros Hb Hn. induction before as [|t before IH]; simpl.
  - rewrite Hn. res_step. now rewrite bool_decide_true.
  - destruct (Hb t) as (v & -> & Hv); [apply elem_of_cons; now left|].
    res_step. rewrite bool_decide_false by exact Hv.
    apply IH. intros t' Hin. apply Hb, elem_of_cons. now right.
Qed.

Lemma missing_required_raises (info : AlbumInfo.t) (before : list string)
    (tag : string) (after : list string) (e : exn) :
  (forall t, t ∈ before ->
     exists v, AlbumInfo.getattr info t = Ok v /\ v <> VNone) ->
  AlbumInfo.getattr info tag = Raise e ->
  missing_required info (before ++ tag :: after) = Raise e.
Proof.
  intros Hb Hn. induction before as [|t before IH]; simpl.
  - rewrite Hn. reflexivity.
  - destruct (Hb t) as (v & -> & Hv); [apply elem_of_cons; now left|].
    res_step. rewrite bool_decide_false by exact Hv.
    apply IH. intros t' Hin. apply Hb, elem_of_cons. now right.
Qed.

Lemma ignored_penalty_found (ignored penalties : list string) :
  existsb (fun penalty => bool_decide (penalty ∈ penalties)) ignored = true <->
  exists penalty, penalty ∈ ignored /\ penalty ∈ penalties.
Proof.
  rewrite existsb_exists. split.
  - intros [p [Hin Hp]]. exists p. rewrite list_elem_of_In.
    now apply bool_decide_eq_true in Hp.
  - intros [p [Hin Hp]]. exists p. rewrite <- list_elem_of_In.
    now rewrite bool_decide_eq_true.
Qed.

Lemma dict_set_fresh {K V : Type} `{EqDecision K} (d : dict K V) k v :
  k ∉ dict_keys d -> dict_set d k v = (d ++ [(k, v)])%list.
Proof.
  induction d as [|[k0 v0] d IH]; simpl; [reflexivity|].
  rewrite not_elem_of_cons. intros [Hne Hnin].
  rewrite decide_False by congruence. now rewrite IH.
Qed.

Section AddCandidate.
Variable cfg : Config.t.
Variable string_dist : Value -> Value -> Qc.
Variable re_match : string -> string -> bool.
Variable today_year : Z.
Variable plugins_track_distance : Item.t -> TrackInfo.t -> Distance.t.
Variable plugins_album_distance :
  list Item.t -> AlbumInfo.t -> Mapping -> Distance.t.
Variable lapjv : list (list Qc) -> res (list Z).
Variable item_set_order : list Item.t -> list Item.t.
Variable track_set_order : list TrackInfo.t -> list TrackInfo.t.

#[local] Abbreviation add_candidate :=
  (_add_candidate cfg string_dist re_match today_year plugins_track_distance
                  plugins_album_distance lapjv item_set_order track_set_order).
#[local] Abbreviation assign :=
  (assign_items cfg string_dist plugins_track_distance lapjv item_set_order
                track_set_order).
#[local] Abbreviation album_distance :=
  (distance cfg string_dist re_match today_year plugins_track_distance
            plugins_album_distance).

(** C4, as the code has it.  A candidate leaves the result set unchanged
    when it has no tracks; when it has a non-empty identifier that is
    already a key of the result set; when one of the configured required
    tags is [None] on it while every required tag before that one is an
    attribute with another value; or when, every required tag being an
    attribute, its distance has one of the configured ignored categories.
    A required tag that is no attribute of the candidate, met before any
    that is [None], makes the call raise instead, for a candidate with
    tracks that is no such duplicate.  Otherwise the candidate is stored
    under its identifier, and the other entries are kept; a candidate with a
    non-empty identifier is appended to the result set, so that no entry is
    overwritten. *)
Theorem add_candidate_outcomes (items : list Item.t)
    (results : dict (option string) Match) (info : AlbumInfo.t) :
  let id := AlbumInfo.album_id info in
  let has_value tag :=
    exists v, AlbumInfo.getattr info tag = Ok v /\ v <> VNone in
  let is_attribute tag := is_ok (AlbumInfo.getattr info tag) = true in
  (AlbumInfo.tracks info = [] -> add_candidate items results info = Ok results) /\
  (truthy_opt_str id = true -> id ∈ dict_keys results ->
   add_candidate items results info = Ok results) /\
  (forall before tag after,
     Config.required cfg = (before ++ tag :: after)%list ->
     (forall t, t ∈ before -> has_value t) ->
     (AlbumInfo.getattr info tag = Ok VNone ->
      add_candidate items results info = Ok results) /\
     (forall e,
        AlbumInfo.tracks info <> [] ->
        ~ (truthy_opt_str id = true /\ id ∈ dict_keys results) ->
        AlbumInfo.getattr info tag = Raise e ->
        add_candidate items results info = Raise e)) /\
  (forall mapping extra_items extra_tracks dist,
     (forall tag, tag ∈ Config.required cfg -> is_attribute tag) ->
     assign items (AlbumInfo.tracks info)
     = Ok (mapping, extra_items, extra_tracks) ->
     album_distance items info mapping = Ok dist ->
     (exists penalty, penalty ∈ Config.ignored cfg /\
                      penalty ∈ Distance.keys dist) ->
     add_candidate items results info = Ok results) /\
  (forall mapping extra_items extra_tracks dist,
     AlbumInfo.tracks info <> [] ->
     ~ (truthy_opt_str id = true /\ id ∈ dict_keys results) ->
     (forall tag, tag ∈ Config.required cfg -> has_value tag) ->
     assign items (AlbumInfo.tracks info)
     = Ok (mapping, extra_items, extra_tracks) ->
     album_distance items info mapping = Ok dist ->
     (forall penalty, penalty ∈ Config.ignored cfg ->
                      penalty ∉ Distance.keys dist) ->
     let stored := AlbumMatch dist info mapping extra_items extra_tracks in
     let results' := dict_set results id stored in
     add_candidate items results info = Ok results' /\
     dict_get results' id = Some stored /\
     (forall k, k <> id -> dict_get results' k = dict_get results k) /\
     (truthy_opt_str id = true -> results' = (results ++ [(id, stored)])%list)).
Proof.
  intros id has_value is_attribute. subst id has_value is_attribute.
  assert (Hdup : truthy_opt_str (AlbumInfo.album_id info) = true ->
                 AlbumInfo.album_id info ∈ dict_keys results ->
                 add_candidate items results info = Ok results).
  { intros Ht Hin. unfold _add_candidate.
    destruct (AlbumInfo.tracks info); [reflexivity|].
    now rewrite Ht, (proj2 (dict_mem_true results _) Hin). }
  assert (Hguard : ~ (truthy_opt_str (AlbumInfo.album_id info) = true /\
                      AlbumInfo.album_id info ∈ dict_keys results) ->
                   truthy_opt_str (AlbumInfo.album_id info)
                   && dict_mem results (AlbumInfo.album_id info) = false).
  { intros Hnd. apply not_true_is_false. intros Hb.
    apply andb_true_iff in Hb as [Ht Hm]. apply Hnd. split; [exact Ht|].
    now apply dict_mem_true. }
  repeat apply conj.
  - intros Hnil. unfold _add_candidate. now rewrite Hnil.
  - exact Hdup.
  - intros before tag after Hreq Hbefore. split.
    + intros Hnone. unfold _add_candidate.
      destruct (AlbumInfo.tracks info); [reflexivity|].
      destruct (_ && _); [reflexivity|].
      rewrite Hreq.
      now rewrite (missing_required_first info _ _ _ Hbefore Hnone).
    + intros e Htr Hnd Hraise. unfold _add_candidate.
      destruct (AlbumInfo.tracks info) as [|t0 ts]; [congruence|].
      rewrite (Hguard Hnd), Hreq.
      now rewrite (missing_required_raises info _ _ _ e Hbefore Hraise).
  - intros mapping extra_items extra_tracks dist Hknown Ha Hd Hign.
    unfold _add_candidate.
    destruct (AlbumInfo.tracks info); [reflexivity|].
    destruct (_ && _); [reflexivity|].
    destruct (missing_required_ok info _ Hknown) as [b ->]. res_step.
    destruct b; [reflexivity|].
    rewrite Ha. res_step. rewrite Hd. res_step.
    now rewrite (proj2 (ignored_penalty_found _ _) Hign).
  - intros mapping extra_items extra_tracks dist Htr Hnd Hreq Ha Hd Hign
      stored results'.
    assert (Hfresh : truthy_opt_str (AlbumInfo.album_id info) = true ->
                     AlbumInfo.album_id info ∉ dict_keys results).
    { intros Ht Hin. apply Hnd. now split. }
    split; [|split; [|split]].
    + unfold _add_candidate.
      destruct (AlbumInfo.tracks info) as [|t0 ts]; [congruence|].
      rewrite (Hguard Hnd), (missing_required_none info _ Hreq). res_step.
      rewrite Ha. res_step. rewrite Hd. res_step.
      assert (Hi : existsb
                     (fun penalty => bool_decide (penalty ∈ Distance.keys dist))
                     (Config.ignored cfg) = false).
      { apply not_true_is_false. intros Hb.
        apply ignored_penalty_found in Hb as [p [Hp1 Hp2]].
        now apply (Hign p Hp1). }
      now rewrite Hi.
    + apply dict_get_set_eq.
    + intros k Hk. apply dict_get_set_ne. congruence.
    + intros Ht. apply dict_set_fresh. now apply Hfresh.
Qed.
End AddCandidate.

(** The statement above, on a release with the identifier "A1" and an empty
    result set: it is stored under "A1"; and on the same release when the
    attribute "year", which it does not have a value for, is required: the
    result set is left as it is. *)
Lemma add_candidate_outcomes_witness :
  (exists stored,
     _add_candidate Demo.cfg Demo.string_dist Demo.re_match Demo.today_year
                    Demo.plugins_track_distance Demo.plugins_album_distance
                    Demo.lapjv Demo.item_set_order Demo.track_set_order
                    [Demo.item1] [] Demo.release
     = Ok [(Some "A1", stored)]) /\
  _add_candidate Demo.cfg_required Demo.string_dist Demo.re_match
                 Demo.today_year Demo.plugins_track_distance
                 Demo.plugins_album_distance Demo.lapjv Demo.item_set_order
                 Demo.track_set_order [Demo.item1] [] Demo.release
  = Ok [].
Proof.
  split.
  - destruct (assign_items Demo.cfg Demo.string_dist
                Demo.plugins_track_distance Demo.lapjv Demo.item_set_order
                Demo.track_set_order [Demo.item1]
                (AlbumInfo.tracks Demo.release))
      as [[[mapping extra_items] extra_tracks]|] eqn:Ea;
      [|vm_compute in Ea; discriminate].
    destruct (distance Demo.cfg Demo.string_dist Demo.re_match
                Demo.today_year Demo.plugins_track_distance
                Demo.plugins_album_distance [Demo.item1] Demo.release mapping)
      as [dist|] eqn:Ed;
      [|vm_compute in Ea; injection Ea as <- _ _; vm_compute in Ed;
        discriminate].
    destruct (add_candidate_outcomes
                Demo.cfg Demo.string_dist Demo.re_match Demo.today_year
                Demo.plugins_track_distance Demo.plugins_album_distance
                Demo.lapjv Demo.item_set_order Demo.track_set_order
                [Demo.item1] [] Demo.release) as (_ & _ & _ & _ & Hstore).
    destruct (Hstore mapping extra_items extra_tracks dist) as [H _].
    + discriminate.
    + intros [_ Hin]. inversion Hin.
    + intros tag Hin. inversion Hin.
    + exact Ea.
    + exact Ed.
    + intros penalty Hin. inversion Hin.
    + eexists. exact H.
  - destruct (add_candidate_outcomes
                Demo.cfg_required Demo.string_dist Demo.re_match
                Demo.today_year Demo.plugins_track_distance
                Demo.plugins_album_distance Demo.lapjv Demo.item_set_order
                Demo.track_set_order [Demo.item1] [] Demo.release)
      as (_ & _ & Hreq & _).
    destruct (Hreq [] "year" []) as [Hnone _].
    + reflexivity.
    + intros t Hin. inversion Hin.
    + apply Hnone. reflexivity.
Defined.

(** The rejections, by evaluation: a release whose identifier is already a
    key, a release without the required year, a release whose distance has
    an ignored category. *)
Example add_candidate_duplicate :
  _add_candidate Demo.cfg Demo.string_dist Demo.re_match Demo.today_year
                 Demo.plugins_track_distance Demo.plugins_album_distance
                 Demo.lapjv Demo.item_set_order Demo.track_set_order
                 [Demo.item1] [(Some "A1", Demo.unidentified_match)]
                 Demo.release
  = Ok [(Some "A1", Demo.unidentified_match)].
Proof. reflexivity. Qed.

Example add_candidate_missing_required :
  _add_candidate Demo.cfg_required Demo.string_dist Demo.re_match
                 Demo.today_year Demo.plugins_track_distance
                 Demo.plugins_album_distance Demo.lapjv Demo.item_set_order
                 Demo.track_set_order [Demo.item1] [] Demo.release
  = Ok [].
Proof. reflexivity. Qed.

Example add_candidate_ignored_penalty :
  _add_candidate Demo.cfg_ignored Demo.string_dist Demo.re_match
                 Demo.today_year Demo.plugins_track_distance
                 Demo.plugins_album_distance Demo.lapjv Demo.item_set_order
                 Demo.track_set_order [Demo.item1] [] Demo.release
  = Ok [].
Proof. vm_compute. reflexivity. Qed.

(** A candidate without identifier is not held back by the entry stored
    for an earlier candidate without identifier: it takes its place.  And a
    candidate with tracks is not rejected for the required "year" it has no
    value for when a name that is no attribute of a release is required
    before it: the call raises. *)
Lemma add_candidate_overwrites_unidentified :
  (let results := [(None, Demo.unidentified_match)] in
   let info := Demo.unidentified "Second" in
   AlbumInfo.album_id info ∈ dict_keys results /\
   exists stored,
     _add_candidate Demo.cfg Demo.string_dist Demo.re_match Demo.today_year
                    Demo.plugins_track_distance Demo.plugins_album_distance
                    Demo.lapjv Demo.item_set_order Demo.track_set_order
                    [Demo.item1] results info
     = Ok [(None, stored)] /\
     stored <> Demo.unidentified_match) /\
  (Config.required Demo.cfg_required_unknown = ["nosuchfield"; "year"] /\
   AlbumInfo.year Demo.release = None /\
   _add_candidate Demo.cfg_required_unknown Demo.string_dist Demo.re_match
                  Demo.today_year Demo.plugins_track_distance
                  Demo.plugins_album_distance Demo.lapjv Demo.item_set_order
                  Demo.track_set_order [Demo.item1] [] Demo.release
   = Raise AttributeError).
Proof.
  split.
  - split; [apply elem_of_cons; now left|].
    eexists. split; [vm_compute; reflexivity | discriminate].
  - repeat split; reflexivity.
Qed.

(* ===================================================================== *)
(** * The entry points *)
(* ===================================================================== *)

Section TagItem.
Variable cfg : Config.t.
Variable string_dist : Value -> Value -> Qc.
Variable plugins_track_distance : Item.t -> TrackInfo.t -> Distance.t.
Variable tracks_for_id : string -> list TrackInfo.t.
Variable item_candidates : Item.t -> Value -> Value -> list TrackInfo.t.

#[local] Abbreviation item_tracks :=
  (tag_item_tracks cfg string_dist plugins_track_distance).
#[local] Abbreviation item_ids :=
  (tag_item_ids cfg string_dist plugins_track_distance tracks_for_id).
#[local] Abbreviation item_tag :=
  (tag_item cfg string_dist plugins_track_distance tracks_for_id
            item_candidates).

Lemma tag_item_tracks_state (item : Item.t) (infos : list TrackInfo.t)
    (cands : dict (option string) Match) (rec : option Recommendation) :
  tag_item_state cfg cands rec ->
  match item_tracks item infos cands rec with
  | inl p => recommendation p = _recommendation cfg (candidates p)
  | inr (cands', rec') => tag_item_state cfg cands' rec'
  end.
Proof.
  revert cands rec. induction infos as [|track_info infos IH];
    intros cands rec Hst; simpl; [exact Hst|].
  destruct (_ && _); [reflexivity|].
  apply IH. split.
  - intros _. eauto.
  - intros r [= <-]. reflexivity.
Qed.

Lemma tag_item_ids_state (item : Item.t) (trackids : list string)
    (cands : dict (option string) Match) (rec : option Recommendation) :
  tag_item_state cfg cands rec ->
  match item_ids item trackids cands rec with
  | inl p => recommendation p = _recommendation cfg (candidates p)
  | inr (cands', rec') => tag_item_state cfg cands' rec'
  end.
Proof.
  revert cands rec. induction trackids as [|trackid trackids IH];
    intros cands rec Hst; simpl; [exact Hst|].
  pose proof (tag_item_tracks_state item (tracks_for_id trackid)
                cands rec Hst) as H.
  destruct (item_tracks item (tracks_for_id trackid) cands rec)
    as [p|[cands' rec']]; [exact H | now apply IH].
Qed.

Lemma tag_item_ids_nothing (item : Item.t) (trackids : list string)
    (cands : dict (option string) Match) (rec : option Recommendation) :
  (forall trackid, trackid ∈ trackids -> tracks_for_id trackid = []) ->
  item_ids item trackids cands rec = inr (cands, rec).
Proof.
  induction trackids as [|trackid trackids IH]; intros H; simpl; [reflexivity|].
  rewrite (H trackid) by (apply elem_of_cons; now left). simpl.
  apply IH. intros t Ht. apply H, elem_of_cons. now right.
Qed.

(** [tag_item] always returns a proposal, and the recommendation of the
    proposal is the one of its candidate list. *)
Lemma tag_item_proposal (item : Item.t)
    (search_artist search_title : option string)
    (search_ids : option (list string)) :
  exists p,
    item_tag item search_artist search_title search_ids = Ok p /\
    recommendation p = _recommendation cfg (candidates p).
Proof.
  unfold tag_item.
  set (ids_given := match search_ids with Some (_ :: _) => true | _ => false end).
  set (trackids := if ids_given then default [] search_ids
                   else List.filter truthy_str [Item.mb_trackid item]).
  assert (Hinit : tag_item_state cfg [] None).
  { split; [congruence | discriminate]. }
  pose proof (tag_item_ids_state item trackids [] None Hinit) as H.
  destruct (item_ids item trackids [] None) as [p|[cands rec]];
    [eauto|].
  destruct H as [Hsome Hrec]. destruct ids_given.
  - destruct cands as [|c cands]; [eauto|].
    destruct Hsome as [r ->]; [discriminate|].
    eexists. split; [reflexivity|]. simpl. now apply Hrec.
  - destruct (_ && _); eexists; split; reflexivity.
Qed.
End TagItem.

(** C2.  When the threshold rules give a recommendation [r] (any case but
    the terminal [none]), the keys looked at are exactly those of the best
    candidate's distance, together with, for an [AlbumMatch] and only then,
    those of each of its track distances; the result is the minimum of [r]
    and of the configured ceilings of these keys: it is bounded by [r] and
    by each such ceiling, and it is [r] or one of these ceilings.  The other
    candidates matter only through the threshold value: replacing them
    leaves the result unchanged as long as the threshold value is the same.
    The function computes the recommendation alone and leaves the list as
    it is: the proposal that [tag_item] returns carries the recommendation
    of the very list of candidates it carries. *)
Theorem downgrade_uses_best_candidate_keys (cfg : Config.t) (best : Match)
    (rest : list Match) (r : Recommendation)
    (string_dist : Value -> Value -> Qc)
    (plugins_track_distance : Item.t -> TrackInfo.t -> Distance.t)
    (tracks_for_id : string -> list TrackInfo.t)
    (item_candidates : Item.t -> Value -> Value -> list TrackInfo.t) :
  threshold_rec cfg (best :: rest) = Some r ->
  let final := _recommendation cfg (best :: rest) in
  (forall k,
     k ∈ penalty_keys best <->
     k ∈ Distance.keys (match_distance best) \/
     (is_AlbumMatch best = true /\
      exists track td,
        (track, td) ∈ Distance.tracks (match_distance best) /\
        k ∈ dict_keys td)) /\
  rec_le final r /\
  (forall k c,
     k ∈ penalty_keys best -> Config.max_rec cfg !! k = Some c ->
     rec_le final c) /\
  (final = r \/
   exists k, k ∈ penalty_keys best /\ Config.max_rec cfg !! k = Some final) /\
  (forall rest',
     threshold_rec cfg (best :: rest') = Some r ->
     _recommendation cfg (best :: rest') = final) /\
  (forall item search_artist search_title search_ids,
     exists p,
       tag_item cfg string_dist plugins_track_distance tracks_for_id
                item_candidates item search_artist search_title search_ids
       = Ok p /\
       recommendation p = _recommendation cfg (candidates p)).
Proof.
  intros Hr final.
  assert (E : final = set_fold (downgrade_step cfg) r (penalty_keys best)).
  { subst final. unfold _recommendation. now rewrite Hr. }
  split; [apply penalty_keys_spec|].
  split; [rewrite E; apply downgrade_set_le|].
  split; [intros k c Hk Hc; rewrite E; eapply downgrade_set_ceiling; eauto|].
  split; [rewrite E; apply downgrade_set_attained|].
  split; [|apply tag_item_proposal].
  intros rest' Hr'. rewrite E. unfold _recommendation. now rewrite Hr'.
Qed.

(** The statement above, on a release candidate of score 0.03 whose track distance has the
    category "track_id", capped at [low]: the result is [low], also with a
    second candidate behind it. *)
Lemma downgrade_uses_best_candidate_keys_witness :
  threshold_rec Demo.cfg_ceiling [Demo.release_candidate] = Some strong /\
  _recommendation Demo.cfg_ceiling [Demo.release_candidate] = low /\
  _recommendation Demo.cfg_ceiling
    [Demo.release_candidate; Demo.second_candidate] = low.
Proof.
  assert (H : threshold_rec Demo.cfg_ceiling [Demo.release_candidate]
              = Some strong) by reflexivity.
  split; [exact H|].
  destruct (downgrade_uses_best_candidate_keys
              Demo.cfg_ceiling Demo.release_candidate [] strong
              Demo.string_dist Demo.plugins_track_distance Demo.tracks_for_id
              Demo.item_candidates H)
    as (_ & _ & Hc & _ & Hrest & _).
  assert (El : _recommendation Demo.cfg_ceiling [Demo.release_candidate] = low)
    by (vm_compute; reflexivity).
  split; [exact El|].
  rewrite (Hrest [Demo.second_candidate]); [exact El | reflexivity].
Defined.

(** A ceiling on a category of the second candidate alone has no effect:
    the best candidate is a single-track match of score 0.03 without the
    capped category. *)
Example second_candidate_keys_ignored :
  _recommendation Demo.cfg_ceiling
    [Demo.candidate (frac 3 100); Demo.second_candidate] = strong.
Proof. vm_compute. reflexivity. Qed.

(** The track distances of a candidate that is not an [AlbumMatch] are not
    looked at. *)
Example track_match_tracks_ignored :
  _recommendation Demo.cfg_ceiling
    [TrackMatch (match_distance Demo.release_candidate) (Demo.track 1 "T" None)]
  = strong.
Proof. vm_compute. reflexivity. Qed.


(** On a non-empty sequence [current_metadata] returns, with a string for
    the artist. *)
Lemma current_metadata_returns (items : list Item.t) :
  items <> [] ->
  exists likelies consensus,
    current_metadata items = Ok (likelies, consensus) /\
    (exists a, likelies !! "artist" = Some (VStr a)) /\
    is_Some (likelies !! "album") /\
    is_Some (consensus !! "artist").
Proof.
  intros Hne.
  destruct (current_metadata_loop_spec items fields ∅ ∅ Hne (fun f H => H))
    as (lk & cs & Hloop & Hspec).
  destruct (proj1 (Hspec "albumartist"))
    as (va & fa & Hlva & [Hinva _] & Hcfa & _);
    [apply list_elem_of_In; simpl; auto 20|].
  destruct (proj1 (Hspec "artist"))
    as (v & f & Hlv & [Hinv _] & Hcf & _);
    [apply list_elem_of_In; simpl; auto 20|].
  destruct (proj1 (Hspec "album"))
    as (vb & fb & Hlvb & _); [apply list_elem_of_In; simpl; auto 20|].
  apply list_elem_of_fmap in Hinva as [ia [Eva _]].
  apply list_elem_of_fmap in Hinv as [iv [Ev _]].
  unfold Item.value in Eva, Ev. simpl in Eva, Ev.
  unfold current_metadata. destruct items as [|i0 items']; [congruence|].
  res_step. rewrite Hloop. res_step.
  unfold map_getitem. rewrite Hcfa. res_step.
  destruct fa.
  - rewrite Hlva. res_step. destruct (truthy va).
    + eexists _, _. split; [reflexivity|]. split; [|split].
      * exists (Item.albumartist ia). now rewrite lookup_insert_eq, Eva.
      * rewrite lookup_insert_ne by discriminate. eauto.
      * eauto.
    + eexists _, _. split; [reflexivity|]. split; [|split]; eauto.
      exists (Item.artist iv). now rewrite Hlv, Ev.
  - eexists _, _. split; [reflexivity|]. split; [|split]; eauto.
    exists (Item.artist iv). now rewrite Hlv, Ev.
Qed.

Section TagAlbum.
Variable cfg : Config.t.
Variable string_dist : Value -> Value -> Qc.
Variable re_match : string -> string -> bool.
Variable today_year : Z.
Variable plugins_track_distance : Item.t -> TrackInfo.t -> Distance.t.
Variable plugins_album_distance :
  list Item.t -> AlbumInfo.t -> Mapping -> Distance.t.
Variable lapjv : list (list Qc) -> res (list Z).
Variable item_set_order : list Item.t -> list Item.t.
Variable track_set_order : list TrackInfo.t -> list TrackInfo.t.
Variable album_for_mbid : string -> option AlbumInfo.t.
Variable albums_for_id : string -> list AlbumInfo.t.
Variable album_candidates :
  list Item.t -> Value -> Value -> bool -> option (gmap string Value) ->
  list AlbumInfo.t.
Variable tracks_for_id : string -> list TrackInfo.t.
Variable item_candidates : Item.t -> Value -> Value -> list TrackInfo.t.

#[local] Abbreviation accumulate :=
  (_add_candidate cfg string_dist re_match today_year plugins_track_distance
                  plugins_album_distance lapjv item_set_order track_set_order).
#[local] Abbreviation accumulate_all :=
  (add_candidates cfg string_dist re_match today_year plugins_track_distance
                  plugins_album_distance lapjv item_set_order track_set_order).
#[local] Abbreviation album_tag :=
  (tag_album cfg string_dist re_match today_year plugins_track_distance
             plugins_album_distance lapjv item_set_order track_set_order
             album_for_mbid albums_for_id album_candidates).
#[local] Abbreviation track_tag :=
  (tag_item cfg string_dist plugins_track_distance tracks_for_id
            item_candidates).

Lemma add_candidates_rejected (items : list Item.t)
    (infos : list AlbumInfo.t) :
  (forall info, info ∈ infos -> accumulate items [] info = Ok []) ->
  accumulate_all items [] infos = Ok [].
Proof.
  induction infos as [|info infos IH]; intros H; simpl; [reflexivity|].
  rewrite (H info) by (apply elem_of_cons; now left). res_step.
  apply IH. intros i Hi. apply H, elem_of_cons. now right.
Qed.

(** [tag_album] when every candidate that comes up is rejected. *)
Lemma tag_album_nothing (items : list Item.t)
    (search_artist search_album : option string) (search_ids : list string) :
  items <> [] ->
  (forall id info, id ∈ search_ids -> info ∈ albums_for_id id ->
                   accumulate items [] info = Ok []) ->
  (forall info, snd (match_by_id album_for_mbid items) = Some info ->
                accumulate items [] info = Ok []) ->
  (forall artist album va_likely extra_tags info,
     info ∈ album_candidates items artist album va_likely extra_tags ->
     accumulate items [] info = Ok []) ->
  exists cur_artist cur_album,
    album_tag items search_artist search_album search_ids
    = Ok (cur_artist, cur_album, mkProposal [] none).
Proof.
  intros Hne Hids Hmb Hsearch.
  destruct (current_metadata_returns items Hne)
    as (lk & cs & Hcm & [a Ha] & [b Hb] & [c Hc]).
  exists (VStr a), b. unfold tag_album. rewrite Hcm. res_step.
  unfold map_getitem at 1 2. rewrite Ha, Hb. res_step.
  assert (Hsearch' :
    forall sa sb : Value,
      (exists s, sa = VStr s) ->
      (c0 ← map_getitem cs "artist";
       va_likely ←
         (if negb c0 then Ok true
          else
            a0 ← value_lower sa;
            Ok (bool_decide (a0 ∈ VA_ARTISTS) || existsb Item.comp items));
       cands ←
         accumulate_all items []
           (album_candidates items sa sb va_likely
              match Config.extra_tags cfg with
              | [] => None
              | tag_list =>
                  Some (filter (fun kv => fst kv ∈ tag_list) lk)
              end);
       Ok (VStr a, b,
           mkProposal
             (_sort_candidates cfg (dict_values cands))
             (_recommendation cfg (_sort_candidates cfg (dict_values cands)))))
      = Ok (VStr a, b, mkProposal [] none)).
  { intros sa sb [s ->]. unfold map_getitem. rewrite Hc. res_step.
    destruct c; simpl; res_step;
      (rewrite add_candidates_rejected; [reflexivity|]);
      intros info Hin; eapply Hsearch; eauto. }
  destruct search_ids as [|id0 ids].
  - assert (Hterms :
      forall cands0 : dict (option string) Match, cands0 = [] ->
        (let '(search_artist0, search_album0) :=
           if truthy_opt_str search_artist && truthy_opt_str search_album
           then (VOptStr search_artist, VOptStr search_album)
           else (VStr a, b) in
         c0 ← map_getitem cs "artist";
         va_likely ←
           (if negb c0 then Ok true
            else
              a0 ← value_lower search_artist0;
              Ok (bool_decide (a0 ∈ VA_ARTISTS) || existsb Item.comp items));
         cands ←
           accumulate_all items cands0
             (album_candidates items search_artist0 search_album0 va_likely
                match Config.extra_tags cfg with
                | [] => None
                | tag_list =>
                    Some (filter (fun kv => fst kv ∈ tag_list) lk)
                end);
         Ok (VStr a, b,
             mkProposal
               (_sort_candidates cfg (dict_values cands))
               (_recommendation cfg
                  (_sort_candidates cfg (dict_values cands)))))
        = Ok (VStr a, b, mkProposal [] none)).
    { intros cands0 ->.
      destruct (truthy_opt_str search_artist && truthy_opt_str search_album)
        eqn:Et.
      - apply Hsearch'. apply andb_true_iff in Et as [Et _].
        apply truthy_opt_str_spec in Et as [s [-> _]]. now exists s.
      - apply Hsearch'. now exists a. }
    destruct (snd (match_by_id album_for_mbid items)) as [id_info|] eqn:Em.
    + rewrite (Hmb id_info eq_refl). res_step. simpl. now apply Hterms.
    + now apply Hterms.
  - rewrite add_candidates_rejected; [reflexivity|].
    intros info Hin. apply list_elem_of_In, in_concat in Hin as [l [Hl Hin]].
    apply in_map_iff in Hl as [id [<- Hid]].
    eapply Hids; apply list_elem_of_In; eauto.
Qed.

(** C9.  Inconclusive matching is not an error.  [tag_item] always
    returns a proposal, and a proposal without candidates carries the
    recommendation [none]; called with explicit identifiers for which the
    catalog has no track, or without identifiers when neither the item's own
    identifier nor the search yields a track, it returns the empty proposal
    with [none].  [tag_album], on a non-empty set of records, returns the
    empty proposal with [none] when every release that comes up (through
    the explicit identifiers, the records' own identifier or the search) is
    rejected by the accumulator. *)
Theorem inconclusive_matching_returns_none :
  (forall item search_artist search_title search_ids,
     exists p,
       track_tag item search_artist search_title search_ids = Ok p /\
       (candidates p = [] -> recommendation p = none)) /\
  (forall item search_artist search_title search_ids,
     search_ids <> [] ->
     (forall trackid, trackid ∈ search_ids -> tracks_for_id trackid = []) ->
     track_tag item search_artist search_title (Some search_ids)
     = Ok (mkProposal [] none)) /\
  (forall item search_artist search_title search_ids,
     search_ids = None \/ search_ids = Some [] ->
     tracks_for_id (Item.mb_trackid item) = [] ->
     (forall artist title, item_candidates item artist title = []) ->
     track_tag item search_artist search_title search_ids
     = Ok (mkProposal [] none)) /\
  (forall items search_artist search_album search_ids,
     items <> [] ->
     (forall id info, id ∈ search_ids -> info ∈ albums_for_id id ->
                      accumulate items [] info = Ok []) ->
     (forall info, snd (match_by_id album_for_mbid items) = Some info ->
                   accumulate items [] info = Ok []) ->
     (forall artist album va_likely extra_tags info,
        info ∈ album_candidates items artist album va_likely extra_tags ->
        accumulate items [] info = Ok []) ->
     exists cur_artist cur_album,
       album_tag items search_artist search_album search_ids
       = Ok (cur_artist, cur_album, mkProposal [] none)).
Proof.
  split; [|split; [|split]].
  - intros item search_artist search_title search_ids.
    destruct (tag_item_proposal cfg string_dist plugins_track_distance
                tracks_for_id item_candidates item search_artist search_title
                search_ids) as [p [Hp Hrec]].
    exists p. split; [exact Hp|]. intros Hnil. now rewrite Hrec, Hnil.
  - intros item search_artist search_title [|id0 ids] Hne Hnone; [congruence|].
    unfold tag_item. cbn [default].
    now rewrite tag_item_ids_nothing by exact Hnone.
  - intros item search_artist search_title search_ids Hids Hown Hsearch.
    unfold tag_item.
    assert (Hg : match search_ids with Some (_ :: _) => true | _ => false end
                 = false) by (destruct Hids as [->| ->]; reflexivity).
    rewrite Hg. rewrite tag_item_ids_nothing.
    + destruct (_ && _); rewrite Hsearch; reflexivity.
    + intros trackid Hin. apply list_elem_of_In, filter_In in Hin as [Hin _].
      destruct Hin as [<-|[]]. exact Hown.
  - apply tag_album_nothing.
Qed.
End TagAlbum.

(** The statement above, with an empty catalog: the empty proposal for a single record, with
    and without explicit identifiers, and for a set of records. *)
Lemma inconclusive_matching_returns_none_witness :
  tag_item Demo.cfg Demo.string_dist Demo.plugins_track_distance
           Demo.tracks_for_id Demo.item_candidates
           Demo.item1 None None (Some ["T1"; "T2"])
  = Ok (mkProposal [] none) /\
  tag_item Demo.cfg Demo.string_dist Demo.plugins_track_distance
           Demo.tracks_for_id Demo.item_candidates
           Demo.item1 None None None
  = Ok (mkProposal [] none) /\
  exists cur_artist cur_album,
    tag_album Demo.cfg Demo.string_dist Demo.re_match Demo.today_year
              Demo.plugins_track_distance Demo.plugins_album_distance
              Demo.lapjv Demo.item_set_order Demo.track_set_order
              Demo.album_for_mbid Demo.albums_for_id Demo.album_candidates
              [Demo.item_untracked] None None []
    = Ok (cur_artist, cur_album, mkProposal [] none).
Proof.
  destruct (inconclusive_matching_returns_none
              Demo.cfg Demo.string_dist Demo.re_match Demo.today_year
              Demo.plugins_track_distance Demo.plugins_album_distance
              Demo.lapjv Demo.item_set_order Demo.track_set_order
              Demo.album_for_mbid Demo.albums_for_id Demo.album_candidates
              Demo.tracks_for_id Demo.item_candidates)
    as (_ & Hids & Hsearch & Halbum).
  split; [|split].
  - apply Hids; [discriminate | reflexivity].
  - apply Hsearch; [now left | reflexivity | reflexivity].
  - apply Halbum.
    + discriminate.
    + intros id info Hin. inversion Hin.
    + intros info Hm. vm_compute in Hm. discriminate.
    + intros artist album va_likely extra_tags info Hin. inversion Hin.
Defined.

(** A record tagged with the album "A1" that the catalog knows, and that
    agrees with it: the identifier lookup gives one candidate at distance 0,
    and the recommendation is [strong]. *)
Example tag_album_identified :
  Demo.album_summary
    (tag_album Demo.cfg Demo.string_dist Demo.re_match Demo.today_year
               Demo.plugins_track_distance Demo.plugins_album_distance
               Demo.lapjv Demo.item_set_order Demo.track_set_order
               Demo.album_for_mbid Demo.albums_for_id Demo.album_candidates
               [Demo.item1] None None [])
  = Some (VStr "Artist X", VStr "Album", 1%nat, strong).
Proof. vm_compute. reflexivity. Qed.

(** An empty set of records violates the precondition of
    [current_metadata]. *)
Example tag_album_empty :
  tag_album Demo.cfg Demo.string_dist Demo.re_match Demo.today_year
            Demo.plugins_track_distance Demo.plugins_album_distance
            Demo.lapjv Demo.item_set_order Demo.track_set_order
            Demo.album_for_mbid Demo.albums_for_id Demo.album_candidates
            [] None None []
  = Raise AssertionError.
Proof. reflexivity. Qed.

(* ===================================================================== *)
(** * Further properties of the classifier and of the ordering *)
(* ===================================================================== *)

(** X1.  The levels are earned: [strong] is only returned for a best score
    strictly below the strong threshold, [medium] or better only for a best
    score below the strong threshold or at most the medium threshold, and
    anything but [none] only when, besides, there is a single candidate or the
    difference of the second score and the best, as the subtraction of
    floats computes it, reaches the gap threshold.  The ceilings can only
    lower the recommendation: it is never above the one the same
    configuration without ceilings gives. *)
Theorem recommendation_level_earned (cfg : Config.t) (results : list Match) :
  (_recommendation cfg results = strong ->
   exists best rest,
     results = best :: rest /\
     (match_score cfg best < Config.strong_rec_thresh cfg)%Qc) /\
  (rec_le medium (_recommendation cfg results) ->
   exists best rest,
     results = best :: rest /\
     ((match_score cfg best < Config.strong_rec_thresh cfg)%Qc \/
      (match_score cfg best <= Config.medium_rec_thresh cfg)%Qc)) /\
  (_recommendation cfg results <> none ->
   exists best rest,
     results = best :: rest /\
     ((match_score cfg best < Config.strong_rec_thresh cfg)%Qc \/
      (match_score cfg best <= Config.medium_rec_thresh cfg)%Qc \/
      rest = [] \/
      exists second rest',
        rest = second :: rest' /\
        Float.ge (Float.sub (match_score cfg second) (match_score cfg best))
                 (Config.rec_gap_thresh cfg) = true)) /\
  rec_le (_recommendation cfg results)
         (_recommendation (Config.with_max_rec cfg ∅) results).
Proof.
  assert (Hfree : rec_le (_recommendation cfg results)
                         (_recommendation (Config.with_max_rec cfg ∅)
                                          results)).
  { destruct results as [|best rest]; [unfold rec_le; simpl; lia|].
    unfold _recommendation.
    change (threshold_rec (Config.with_max_rec cfg ∅) (best :: rest))
      with (threshold_rec cfg (best :: rest)).
    destruct (threshold_rec cfg (best :: rest)) as [r|];
      [|unfold rec_le; simpl; lia].
    rewrite (downgrade_unceilinged (Config.with_max_rec cfg ∅))
      by (intros key _; apply lookup_empty).
    apply downgrade_set_le. }
  match goal with
  | |- ?A /\ ?B /\ ?C /\ _ =>
      enough (H3 : A /\ B /\ C)
        by (destruct H3 as (Ha & Hb & Hc);
            exact (conj Ha (conj Hb (conj Hc Hfree))))
  end.
  clear Hfree.
  destruct results as [|best rest].
  { repeat split; simpl; try discriminate; try congruence.
    unfold rec_le; simpl; lia. }
  assert (Hle : forall r, threshold_rec cfg (best :: rest) = Some r ->
                          rec_le (_recommendation cfg (best :: rest)) r).
  { intros r Hr. unfold _recommendation. rewrite Hr. apply downgrade_set_le. }
  assert (Hnone : threshold_rec cfg (best :: rest) = None ->
                  _recommendation cfg (best :: rest) = none).
  { intros Hr. unfold _recommendation. now rewrite Hr. }
  unfold threshold_rec in Hle, Hnone.
  split; [|split]; intros H; exists best, rest; (split; [reflexivity|]).
  - destruct (decide (match_score cfg best < Config.strong_rec_thresh cfg)%Qc)
      as [Hs|Hs]; [exact Hs|].
    exfalso. rewrite (bool_decide_false _ Hs) in Hle, Hnone.
    destruct (bool_decide (match_score cfg best
                           <= Config.medium_rec_thresh cfg)%Qc).
    + specialize (Hle medium eq_refl). rewrite H in Hle.
      unfold rec_le in Hle; simpl in Hle; lia.
    + destruct rest as [|second rest'].
      * specialize (Hle low eq_refl). rewrite H in Hle.
        unfold rec_le in Hle; simpl in Hle; lia.
      * destruct (Float.ge _ _).
        -- specialize (Hle low eq_refl). rewrite H in Hle.
           unfold rec_le in Hle; simpl in Hle; lia.
        -- rewrite Hnone in H by reflexivity. discriminate.
  - destruct (decide (match_score cfg best < Config.strong_rec_thresh cfg)%Qc)
      as [Hs|Hs]; [now left|].
    destruct (decide (match_score cfg best <= Config.medium_rec_thresh cfg)%Qc)
      as [Hm|Hm]; [now right|].
    exfalso. rewrite (bool_decide_false _ Hs), (bool_decide_false _ Hm)
      in Hle, Hnone.
    destruct rest as [|second rest'].
    + specialize (Hle low eq_refl).
      unfold rec_le in H, Hle; simpl in H, Hle; lia.
    + destruct (Float.ge _ _).
      * specialize (Hle low eq_refl).
        unfold rec_le in H, Hle; simpl in H, Hle; lia.
      * rewrite Hnone in H by reflexivity.
        unfold rec_le in H; simpl in H; lia.
  - destruct (decide (match_score cfg best < Config.strong_rec_thresh cfg)%Qc)
      as [Hs|Hs]; [now left|].
    destruct (decide (match_score cfg best <= Config.medium_rec_thresh cfg)%Qc)
      as [Hm|Hm]; [right; now left|].
    rewrite (bool_decide_false _ Hs), (bool_decide_false _ Hm) in Hnone.
    destruct rest as [|second rest']; [right; right; now left|].
    right; right; right. exists second, rest'. split; [reflexivity|].
    destruct (Float.ge (Float.sub (match_score cfg second)
                                  (match_score cfg best))
                       (Config.rec_gap_thresh cfg)) eqn:Hg; [reflexivity|].
    exfalso. now apply H, Hnone.
Qed.

(** The comparison [_sort_candidates] makes is the one of the scores. *)
Lemma score_key_lt (cfg : Config.t) (x y : Match) :
  key_lt (fun m => [VFloat (match_score cfg m)]) x y
  = bool_decide (match_score cfg x < match_score cfg y)%Qc.
Proof.
  unfold key_lt. cbn [tuple_lt]. unfold py_eq, py_lt. cbn [as_number].
  case_bool_decide as He; [|reflexivity].
  rewrite He. symmetry. apply bool_decide_eq_false.
  apply Qcle_not_lt, Qcle_refl.
Qed.

(** Inserting into an ordered list leaves the candidates of any given score
    in their order, the new one last among them. *)
Lemma insert_sorted_same_score (cfg : Config.t) (q : Qc) (x : Match)
    (l : list Match) :
  StronglySorted (key_le (fun m => [VFloat (match_score cfg m)])) l ->
  List.filter (fun m => bool_decide (match_score cfg m = q))
              (insert_sorted (fun m => [VFloat (match_score cfg m)]) x l)
  = (List.filter (fun m => bool_decide (match_score cfg m = q)) l
     ++ List.filter (fun m => bool_decide (match_score cfg m = q)) [x])%list.
Proof.
  induction 1 as [|y l Hs IH Hy]; [reflexivity|].
  cbn [insert_sorted]. rewrite score_key_lt.
  case_bool_decide as Hlt.
  - cbn [List.filter]. case_bool_decide as Hx; [|now rewrite app_nil_r].
    assert (Hnone : List.filter
                      (fun m => bool_decide (match_score cfg m = q)) (y :: l)
                    = []).
    { assert (Hall : forall z, In z (y :: l) ->
                bool_decide (match_score cfg z = q) = false).
      { intros z Hz. apply bool_decide_eq_false. intros Ez.
        assert (Hyz : (match_score cfg y <= match_score cfg z)%Qc).
        { destruct Hz as [<-|Hz]; [apply Qcle_refl|].
          rewrite List.Forall_forall in Hy. specialize (Hy z Hz).
          unfold key_le in Hy. rewrite score_key_lt in Hy.
          apply bool_decide_eq_false in Hy. now apply Qcnot_lt_le. }
        rewrite Ez, <- Hx in Hyz.
        revert Hlt. now apply Qcle_not_lt. }
      clear -Hall. induction (y :: l) as [|z k IHk]; [reflexivity|].
      cbn [List.filter]. rewrite (Hall z) by now left.
      apply IHk. intros w Hw. apply Hall. now right. }
    cbn [List.filter] in Hnone. rewrite Hnone. reflexivity.
  - cbn [List.filter]. rewrite IH. cbn [List.filter].
    destruct (bool_decide (match_score cfg y = q)); reflexivity.
Qed.

(** X2.  [_sort_candidates] returns the same candidates, each as often, in
    ascending order of their scores, and the candidates of equal score keep
    the order they came in. *)
Theorem sort_candidates_ordered (cfg : Config.t) (cands : list Match) :
  Permutation (_sort_candidates cfg cands) cands /\
  StronglySorted (fun a b => (match_score cfg a <= match_score cfg b)%Qc)
                 (_sort_candidates cfg cands) /\
  forall q,
    List.filter (fun m => bool_decide (match_score cfg m = q))
                (_sort_candidates cfg cands)
    = List.filter (fun m => bool_decide (match_score cfg m = q)) cands.
Proof.
  unfold _sort_candidates. split; [apply stable_sort_perm|]. split.
  - pose proof (stable_sort_sorted
                  (fun m => [VFloat (match_score cfg m)]) cands) as Hs.
    induction Hs as [|x l Hs IH Hx]; constructor; [exact IH|].
    rewrite List.Forall_forall in Hx |- *. intros y Hy. specialize (Hx y Hy).
    unfold key_le in Hx. rewrite score_key_lt in Hx.
    apply bool_decide_eq_false in Hx. now apply Qcnot_lt_le.
  - intros q. unfold stable_sort.
    assert (H : forall acc,
              StronglySorted
                (key_le (fun m => [VFloat (match_score cfg m)])) acc ->
              List.filter (fun m => bool_decide (match_score cfg m = q))
                (fold_left
                   (fun acc x =>
                      insert_sorted (fun m => [VFloat (match_score cfg m)])
                                    x acc) cands acc)
              = (List.filter (fun m => bool_decide (match_score cfg m = q)) acc
                 ++ List.filter (fun m => bool_decide (match_score cfg m = q))
                                cands)%list).
    { induction cands as [|x cands IH]; intros acc Hacc; cbn [fold_left].
      - now rewrite app_nil_r.
      - rewrite IH by now apply insert_sorted_sorted.
        rewrite insert_sorted_same_score by exact Hacc.
        rewrite <- app_assoc. f_equal. cbn [List.filter app].
        destruct (bool_decide (match_score cfg x = q)); reflexivity. }
    apply (H []). constructor.
Qed.

(* ===================================================================== *)
(** * Further properties of the identifier lookup *)
(* ===================================================================== *)

(** No record of the list disagrees with [first]. *)
Lemma albumid_agreement (first : string) (others : list string) :
  existsb (fun other => negb (bool_decide (other = first))) others = false <->
  forall other, other ∈ others -> other = first.
Proof.
  induction others as [|o others IH]; cbn [existsb].
  - split; [intros _ other H; inversion H|reflexivity].
  - rewrite orb_false_iff, IH, negb_false_iff, bool_decide_eq_true.
    split.
    + intros [Ho Hall] other Hin. apply elem_of_cons in Hin as [->|Hin]; auto.
    + intros Hall. split; [apply Hall; now left|].
      intros other Hin. apply Hall. now right.
Qed.

(** X3.  [match_by_id] looks a release up exactly when some record carries
    an album identifier and no record carries another one: it then asks the
    catalog once, for that identifier, and returns the catalog's answer.
    In every other case the catalog is not asked at all. *)
Theorem match_by_id_unanimous
    (album_for_mbid : string -> option AlbumInfo.t) (items : list Item.t) :
  let carried a := exists i, i ∈ items /\ Item.mb_albumid i = a /\ a <> "" in
  (forall a,
     carried a -> (forall b, carried b -> b = a) ->
     match_by_id album_for_mbid items = ([a], album_for_mbid a)) /\
  (forall a asked,
     fst (match_by_id album_for_mbid items) = a :: asked ->
     asked = [] /\ carried a /\ (forall b, carried b -> b = a) /\
     snd (match_by_id album_for_mbid items) = album_for_mbid a) /\
  ((forall i, i ∈ items -> Item.mb_albumid i = "") ->
   match_by_id album_for_mbid items = ([], None)).
Proof.
  cbv zeta. unfold match_by_id.
  pose proof (carried_albumid items) as Hc.
  destruct (List.filter truthy_str (map Item.mb_albumid items))
    as [|first others] eqn:Hids.
  - split; [|split].
    + intros a Ha _. apply Hc in Ha. inversion Ha.
    + intros a asked H. discriminate H.
    + reflexivity.
  - destruct (existsb (fun other => negb (bool_decide (other = first))) others)
      eqn:Hex.
    + split; [|split].
      * intros a Ha Hall. apply albumid_disagreement in Hex
          as (x & y & Hx & Hy & Hxy).
        apply Hc in Hx, Hy. apply Hall in Hx, Hy. congruence.
      * intros a asked H. discriminate H.
      * intros Hall. assert (Hf : first ∈ first :: others) by now left.
        apply Hc in Hf as (i & Hi & Hid & Hne). rewrite Hall in Hid by exact Hi.
        congruence.
    + pose proof (proj1 (albumid_agreement first others) Hex) as Hag.
      assert (Hfirst : first ∈ first :: others) by now left.
      split; [|split].
      * intros a Ha _. apply Hc in Ha.
        apply elem_of_cons in Ha as [->|Ha]; [reflexivity|].
        now rewrite (Hag a Ha).
      * cbn [fst snd]. intros a asked [= <- <-].
        split; [reflexivity|]. split; [now apply Hc|]. split; [|reflexivity].
        intros b Hb. apply Hc in Hb.
        apply elem_of_cons in Hb as [->|Hb]; [reflexivity|now apply Hag].
      * intros Hall. apply Hc in Hfirst as (i & Hi & Hid & Hne).
        rewrite Hall in Hid by exact Hi. congruence.
Qed.

(* ===================================================================== *)
(** * Further properties of the distance between an item and a track *)
(* ===================================================================== *)

Section TrackFactors.
Variable cfg : Config.t.
Variable string_dist : Value -> Value -> Qc.
Variable plugins_track_distance : Item.t -> TrackInfo.t -> Distance.t.

Import Distance DistanceFacts.

(** What the factors leave under "track_title", "track_id" and
    "track_length", and under any other name. *)
Lemma factors_track_title item track_info incl :
  dict_get
    (_penalties (track_distance_factors cfg string_dist item track_info incl))
    "track_title"
  = Some [clamp01 (string_dist (VStr (Item.title item))
                               (VOptStr (TrackInfo.title track_info)))].
Proof.
  unfold track_distance_factors.
  rewrite medium_factor_other, id_factor_other, index_factor_other,
    artist_factor_other by discriminate.
  unfold track_distance_title, add_string.
  rewrite add_get, decide_True by reflexivity.
  unfold contributions. rewrite length_factor_other by discriminate.
  reflexivity.
Qed.

Lemma factors_track_id item track_info incl :
  dict_get
    (_penalties (track_distance_factors cfg string_dist item track_info incl))
    "track_id"
  = if truthy_str (Item.mb_trackid item)
    then Some [if negb (py_eq (VStr (Item.mb_trackid item))
                              (VOptStr (TrackInfo.track_id track_info)))
               then 1%Qc else 0%Qc]
    else None.
Proof.
  unfold track_distance_factors.
  rewrite medium_factor_other by discriminate.
  unfold track_distance_id.
  destruct (truthy_str _).
  - unfold add_expr. rewrite add_get, decide_True by reflexivity.
    unfold contributions.
    rewrite index_factor_other, artist_factor_other, title_factor_other,
      length_factor_other by discriminate.
    rewrite clamp01_expr. reflexivity.
  - rewrite index_factor_other, artist_factor_other, title_factor_other,
      length_factor_other by discriminate.
    reflexivity.
Qed.

Lemma factors_track_length item track_info incl :
  dict_get
    (_penalties (track_distance_factors cfg string_dist item track_info incl))
    "track_length"
  = match TrackInfo.length track_info with
    | Some info_length =>
        if truthy (VFloat info_length) then
          Some (contributions
                  (add_ratio new "track_length"
                     (Qcabs (Item.length item - info_length)
                      - Config.track_length_grace cfg)
                     (Config.track_length_max cfg))
                  "track_length")
        else None
    | None => None
    end.
Proof.
  unfold track_distance_factors.
  rewrite medium_factor_other, id_factor_other, index_factor_other,
    artist_factor_other, title_factor_other by discriminate.
  unfold track_distance_length, get_track_length_grace, get_track_length_max.
  destruct (TrackInfo.length track_info) as [l|]; [|reflexivity].
  destruct (truthy (VFloat l)); [|reflexivity].
  unfold contributions.
  destruct (dict_get _ _) eqn:E; [reflexivity|].
  unfold add_ratio in E. rewrite add_get, decide_True in E by reflexivity.
  discriminate E.
Qed.

Lemma factors_other item track_info incl k :
  k ∉ ["track_length"; "track_title"; "track_artist"; "track_index";
       "track_id"; "medium"] ->
  dict_get
    (_penalties (track_distance_factors cfg string_dist item track_info incl)) k
  = None.
Proof.
  intros Hk. unfold track_distance_factors.
  rewrite medium_factor_other, id_factor_other, index_factor_other,
    artist_factor_other, title_factor_other, length_factor_other;
    [reflexivity|..];
    intros ->; apply Hk; apply list_elem_of_In; simpl; auto 10.
Qed.

(** The single contribution of a ratio. *)
Lemma add_ratio_new_contribution key n1 n2 :
  contributions (add_ratio new key n1 n2) key
  = [clamp01 (if decide (n2 = 0%Qc) then 0%Qc
              else (Qc_max (Qc_min n1 n2) 0 / n2)%Qc)].
Proof.
  unfold contributions, add_ratio. rewrite add_get, decide_True by reflexivity.
  reflexivity.
Qed.


(** [a == b] between a string and an optional string. *)
Lemma py_eq_opt_str (s : string) (o : option string) :
  py_eq (VStr s) (VOptStr o) = bool_decide (o = Some s).
Proof.
  destruct o as [t|]; cbn [VOptStr].
  - rewrite py_eq_str. apply bool_decide_ext. split; congruence.
  - unfold py_eq. cbn [as_number]. rewrite bool_decide_eq_false_2 by discriminate.
    symmetry. apply bool_decide_eq_false. discriminate.
Qed.

(** [a == b] between an integer and an optional integer. *)
Lemma py_eq_opt_int (n : Z) (o : option Z) :
  py_eq (VInt n) (VOptInt o) = bool_decide (o = Some n).
Proof.
  destruct o as [m|]; cbn [VOptInt].
  - rewrite py_eq_int. apply bool_decide_ext. split; congruence.
  - unfold py_eq. cbn [as_number]. rewrite bool_decide_eq_false_2 by discriminate.
    symmetry. apply bool_decide_eq_false. discriminate.
Qed.

(** X4.  The title is always compared, and [track_distance] itself only
    ever contributes to six categories: whatever else the result holds
    comes from the plugins. *)
Theorem track_distance_own_categories (item : Item.t)
    (track_info : TrackInfo.t) (incl_artist : bool) :
  let d := track_distance cfg string_dist plugins_track_distance
                          item track_info incl_artist in
  let plugin := plugins_track_distance item track_info in
  let own := ["track_length"; "track_title"; "track_artist"; "track_index";
              "track_id"; "medium"] in
  (contributions d "track_title" =
     clamp01 (string_dist (VStr (Item.title item))
                          (VOptStr (TrackInfo.title track_info)))
     :: entries_for "track_title" (_penalties plugin) /\
   "track_title" ∈ keys d) /\
  (forall k, k ∈ keys d -> k ∈ own \/ k ∈ keys plugin) /\
  (forall k, k ∉ own ->
     contributions d k = entries_for k (_penalties plugin)) /\
  (forall k, length (contributions d k)
             <= S (length (entries_for k (_penalties plugin))))%nat.
Proof.
  cbv zeta. split; [|split; [|split]].
  - apply track_distance_contributed, factors_track_title.
  - intros k Hk.
    destruct (decide (k ∈ ["track_length"; "track_title"; "track_artist";
                           "track_index"; "track_id"; "medium"]))
      as [Hin|Hout]; [now left|right].
    now apply (track_distance_skipped cfg string_dist plugins_track_distance
                 item track_info incl_artist k (factors_other _ _ _ _ Hout)).
  - intros k Hout.
    now apply (track_distance_skipped cfg string_dist plugins_track_distance
                 item track_info incl_artist k (factors_other _ _ _ _ Hout)).
  - intros k. unfold track_distance. rewrite update_contributions.
    rewrite length_app.
    enough (length (contributions
              (track_distance_factors cfg string_dist item track_info
                                      incl_artist) k) <= 1)%nat by lia.
    unfold contributions.
    destruct (decide (k ∈ ["track_length"; "track_title"; "track_artist";
                           "track_index"; "track_id"; "medium"]))
      as [Hin|Hout]; [|rewrite factors_other by exact Hout; cbn; lia].
    apply list_elem_of_In in Hin. cbn [In] in Hin.
    destruct Hin as [<-|[<-|[<-|[<-|[<-|[<-|[]]]]]]].
    + rewrite factors_track_length.
      destruct (TrackInfo.length track_info) as [l|]; [|cbn; lia].
      destruct (truthy (VFloat l)); [|cbn; lia].
      rewrite add_ratio_new_contribution. cbn. lia.
    + rewrite factors_track_title. cbn. lia.
    + rewrite factors_track_artist. destruct (artist_considered _ _ _); cbn; lia.
    + rewrite factors_track_index. destruct (_ && _); cbn; lia.
    + rewrite factors_track_id. destruct (truthy_str _); cbn; lia.
    + rewrite factors_medium. destruct (_ && _); cbn; lia.
Qed.

(** X5.  The track identifier is compared only for an item that carries
    one: the penalty is then 0 when the track has this very identifier and
    1 otherwise, a track without identifier included.  An item without
    identifier gets no "track_id" contribution. *)
Theorem track_id_factor (item : Item.t) (track_info : TrackInfo.t)
    (incl_artist : bool) :
  let d := track_distance cfg string_dist plugins_track_distance
                          item track_info incl_artist in
  let plugin := plugins_track_distance item track_info in
  (Item.mb_trackid item <> "" ->
   contributions d "track_id" =
     (if decide (TrackInfo.track_id track_info = Some (Item.mb_trackid item))
      then 0%Qc else 1%Qc)
     :: entries_for "track_id" (_penalties plugin) /\
   "track_id" ∈ keys d) /\
  (Item.mb_trackid item = "" ->
   contributions d "track_id" = entries_for "track_id" (_penalties plugin) /\
   ("track_id" ∈ keys d <-> "track_id" ∈ keys plugin)).
Proof.
  cbv zeta. split.
  - intros Hid. apply track_distance_contributed.
    rewrite factors_track_id.
    rewrite (proj2 (truthy_str_spec _) Hid).
    rewrite py_eq_opt_str.
    destruct (decide (TrackInfo.track_id track_info
                      = Some (Item.mb_trackid item))) as [E|E].
    + now rewrite bool_decide_eq_true_2.
    + now rewrite bool_decide_eq_false_2.
  - intros Hid. apply track_distance_skipped.
    rewrite factors_track_id.
    destruct (truthy_str (Item.mb_trackid item)) eqn:E; [|reflexivity].
    apply truthy_str_spec in E. contradiction.
Qed.


(** X7.  The track number is accepted under either numbering: an item whose
    number is the track's position on its medium or its position on the
    release gets no "track_index" penalty, any other item the full one. *)
Theorem track_index_tolerates_both_numberings (item : Item.t)
    (track_info : TrackInfo.t) (incl_artist : bool) :
  let d := track_distance cfg string_dist plugins_track_distance
                          item track_info incl_artist in
  let plugin := plugins_track_distance item track_info in
  let same_number :=
    TrackInfo.medium_index track_info = Some (Item.track item) \/
    TrackInfo.index track_info = Some (Item.track item) in
  (track_index_changed item track_info = false <-> same_number) /\
  forall n, TrackInfo.index track_info = Some n -> n <> 0 ->
            Item.track item <> 0 ->
    (same_number ->
     contributions d "track_index" =
       0%Qc :: entries_for "track_index" (_penalties plugin)) /\
    (~ same_number ->
     contributions d "track_index" =
       1%Qc :: entries_for "track_index" (_penalties plugin)).
Proof.
  cbv zeta.
  assert (Hch : track_index_changed item track_info = false <->
                TrackInfo.medium_index track_info = Some (Item.track item) \/
                TrackInfo.index track_info = Some (Item.track item)).
  { unfold track_index_changed, py_in. cbn [existsb].
    rewrite !py_eq_opt_int, orb_false_r, negb_false_iff, orb_true_iff,
      !bool_decide_eq_true. reflexivity. }
  split; [exact Hch|].
  intros n Hn Hnz Htrack.
  pose proof (factors_track_index cfg string_dist item track_info incl_artist)
    as Hf.
  rewrite (proj2 (truthy_opt_int_spec _)) in Hf by eauto.
  rewrite (proj2 (truthy_int_spec _) Htrack) in Hf. cbn [andb] in Hf.
  split; intros Hsame.
  - rewrite (proj2 Hch Hsame) in Hf.
    apply (track_distance_contributed cfg string_dist plugins_track_distance
             item track_info incl_artist _ _ Hf).
  - destruct (track_index_changed item track_info) eqn:E.
    + apply (track_distance_contributed cfg string_dist plugins_track_distance
               item track_info incl_artist _ _ Hf).
    + exfalso. apply Hsame, Hch. reflexivity.
Qed.
End TrackFactors.

(* ===================================================================== *)
(** * Further properties of the summary of the items *)
(* ===================================================================== *)

(** The kind of value a summarised field holds: a number for the year and
    the number of discs, a string for the others. *)
Lemma field_value_kind (i : Item.t) (f : string) :
  f ∈ fields ->
  if bool_decide (f ∈ ["year"; "disctotal"])
  then exists n, Item.value i f = VInt n
  else exists s, Item.value i f = VStr s.
Proof.
  intros Hf. apply list_elem_of_In in Hf. cbn [fields In] in Hf.
  repeat (destruct Hf as [<-|Hf]; [vm_compute; eauto|]). destruct Hf.
Qed.

(** The result of [current_metadata]: every field holds the value some item
    has for it (for the artist, possibly some item's album artist), and
    nothing else is recorded. *)
Lemma current_metadata_shape (items : list Item.t) :
  items <> [] ->
  exists likelies consensus,
    current_metadata items = Ok (likelies, consensus) /\
    (forall f, f ∈ fields ->
       (exists i, i ∈ items /\
          (likelies !! f = Some (Item.value i f) \/
           f = "artist" /\
           likelies !! f = Some (Item.value i "albumartist"))) /\
       is_Some (consensus !! f)) /\
    (forall f, f ∉ fields -> likelies !! f = None /\ consensus !! f = None).
Proof.
  intros Hne.
  destruct (current_metadata_loop_spec items fields ∅ ∅ Hne (fun f H => H))
    as (lk & cs & Hloop & Hspec).
  assert (Hin : forall f, f ∈ fields ->
            (exists i, i ∈ items /\ lk !! f = Some (Item.value i f)) /\
            is_Some (cs !! f)).
  { intros f Hf. destruct (proj1 (Hspec f) Hf) as (v & fl & Hl & [Hv _] & Hc & _).
    apply list_elem_of_fmap in Hv as (i & -> & Hi). split; eauto. }
  assert (Hout : forall f, f ∉ fields -> lk !! f = None /\ cs !! f = None).
  { intros f Hf. destruct (proj2 (Hspec f) Hf) as [Hl Hc].
    now rewrite Hl, Hc, !lookup_empty. }
  assert (Haa : "albumartist" ∈ fields)
    by (apply list_elem_of_In; simpl; auto 20).
  assert (Har : "artist" ∈ fields)
    by (apply list_elem_of_In; simpl; auto 20).
  destruct (Hin _ Haa) as [(ia & Hia & Hla) [ca Hca]].
  unfold current_metadata. destruct items as [|i0 items']; [congruence|].
  res_step. rewrite Hloop. res_step.
  unfold map_getitem. rewrite Hca. res_step.
  assert (Hplain : exists likelies consensus,
            Ok (lk, cs) = Ok (likelies, consensus) /\
            (forall f, f ∈ fields ->
               (exists i, i ∈ i0 :: items' /\
                  (likelies !! f = Some (Item.value i f) \/
                   f = "artist" /\
                   likelies !! f = Some (Item.value i "albumartist"))) /\
               is_Some (consensus !! f)) /\
            (forall f, f ∉ fields ->
               likelies !! f = None /\ consensus !! f = None)).
  { exists lk, cs. split; [reflexivity|]. split; [|exact Hout].
    intros f Hf. destruct (Hin f Hf) as [(i & Hi & Hl) Hc]. split; eauto. }
  destruct ca; [|exact Hplain].
  rewrite Hla. res_step.
  destruct (truthy (Item.value ia "albumartist")); [|exact Hplain].
  eexists _, _. split; [reflexivity|]. split.
  - intros f Hf. destruct (Hin f Hf) as [(i & Hi & Hl) Hc]. split; [|exact Hc].
    destruct (decide (f = "artist")) as [->|Hfa].
    + exists ia. split; [exact Hia|]. right. split; [reflexivity|].
      now rewrite lookup_insert_eq.
    + exists i. split; [exact Hi|]. left.
      now rewrite lookup_insert_ne by congruence.
  - intros f Hf. destruct (Hout f Hf) as [Hl Hc]. split; [|exact Hc].
    rewrite lookup_insert_ne; [exact Hl|]. intros <-. contradiction.
Qed.

(** X8.  For a non-empty list of items [current_metadata] returns two
    dictionaries keyed by exactly the twelve summarised fields, so that a
    caller's subscript by any of them cannot fail; the year and the number
    of discs are numbers and the other likely values strings.  An empty
    list is refused. *)
Theorem current_metadata_fields (items : list Item.t) :
  (items <> [] ->
   exists likelies consensus,
     current_metadata items = Ok (likelies, consensus) /\
     (forall f, is_Some (likelies !! f) <-> f ∈ fields) /\
     (forall f, is_Some (consensus !! f) <-> f ∈ fields) /\
     (forall f v, likelies !! f = Some v ->
        if bool_decide (f ∈ ["year"; "disctotal"])
        then exists n, v = VInt n else exists s, v = VStr s)) /\
  (items = [] -> current_metadata items = Raise AssertionError).
Proof.
  split; [|intros ->; reflexivity].
  intros Hne.
  destruct (current_metadata_shape items Hne) as (lk & cs & Hcm & Hin & Hout).
  exists lk, cs. split; [exact Hcm|]. split; [|split].
  - intros f. split.
    + intros [v Hv]. destruct (decide (f ∈ fields)) as [Hf|Hf]; [exact Hf|].
      destruct (Hout f Hf) as [Hl _]. congruence.
    + intros Hf. destruct (Hin f Hf) as [(i & _ & [Hl|[_ Hl]]) _]; eauto.
  - intros f. split.
    + intros [v Hv]. destruct (decide (f ∈ fields)) as [Hf|Hf]; [exact Hf|].
      destruct (Hout f Hf) as [_ Hc]. congruence.
    + intros Hf. now destruct (Hin f Hf) as [_ Hc].
  - intros f v Hv.
    destruct (decide (f ∈ fields)) as [Hf|Hf];
      [|destruct (Hout f Hf) as [Hl _]; congruence].
    destruct (Hin f Hf) as [(i & _ & [Hl|[-> Hl]]) _].
    + rewrite Hl in Hv. injection Hv as <-. now apply field_value_kind.
    + rewrite Hl in Hv. injection Hv as <-.
      rewrite bool_decide_eq_false_2.
      * exists (Item.albumartist i). reflexivity.
      * intros H. apply list_elem_of_In in H. cbn [In] in H.
        destruct H as [H|[H|[]]]; discriminate H.
Qed.

(* ===================================================================== *)
(** * Further properties of the distance between items and a release *)
(* ===================================================================== *)

Section ReleaseDistance.
Variable cfg : Config.t.
Variable string_dist : Value -> Value -> Qc.
Variable re_match : string -> string -> bool.
Variable today_year : Z.
Variable plugins_track_distance : Item.t -> TrackInfo.t -> Distance.t.
Variable plugins_album_distance :
  list Item.t -> AlbumInfo.t -> Mapping -> Distance.t.

#[local] Abbreviation release_distance := distance.
#[local] Abbreviation album_distance :=
  (distance cfg string_dist re_match today_year plugins_track_distance
            plugins_album_distance).
#[local] Abbreviation pair_distance :=
  (track_distance cfg string_dist plugins_track_distance).

Import Distance DistanceFacts.

Lemma only_touches_refl ks d : only_touches ks d d.
Proof. split; reflexivity. Qed.

Lemma only_touches_trans ks d1 d2 d3 :
  only_touches ks d1 d2 -> only_touches ks d2 d3 -> only_touches ks d1 d3.
Proof.
  intros [Ht Hk] [Ht' Hk']. split; [congruence|].
  intros k Hn. now rewrite Hk', Hk.
Qed.

Lemma only_touches_weaken ks ks' d d' :
  (forall k, k ∈ ks -> k ∈ ks') -> only_touches ks d d' ->
  only_touches ks' d d'.
Proof. intros Hsub [Ht Hk]. split; [exact Ht|]. intros k Hn. apply Hk. auto. Qed.

Lemma extend_touches d key l :
  only_touches [key] d (set_penalties d (extend (_penalties d) key l)).
Proof.
  split; [reflexivity|]. intros k Hk. cbn [set_penalties _penalties].
  rewrite extend_get, decide_False; [reflexivity|].
  intros ->. apply Hk. now left.
Qed.

Lemma add_touches d key q : only_touches [key] d (add d key q).
Proof. apply extend_touches. Qed.

Lemma add_priority_touches d key value options :
  only_touches [key] d (add_priority re_match d key value options).
Proof. unfold add_priority. destruct (priority_rank _ _ _ _); apply add_touches. Qed.

Lemma add_number_touches d key n1 n2 :
  only_touches [key] d (add_number d key n1 n2).
Proof.
  unfold add_number. destruct (_ =? _); [apply add_touches|apply extend_touches].
Qed.

(** The summary [distance] works on: every field it reads is there, the
    year and the number of discs as numbers. *)
Lemma likelies_read (items : list Item.t) :
  items <> [] ->
  exists likelies consensus,
    current_metadata items = Ok (likelies, consensus) /\
    (forall f, f ∈ fields -> exists v, likelies !! f = Some v) /\
    (exists n, likelies !! "year" = Some (VInt n)) /\
    (exists n, likelies !! "disctotal" = Some (VInt n)).
Proof.
  intros Hne.
  destruct (current_metadata_shape items Hne) as (lk & cs & Hcm & Hin & _).
  exists lk, cs. split; [exact Hcm|]. split; [|split].
  - intros f Hf. destruct (Hin f Hf) as [(i & _ & [Hl|[_ Hl]]) _]; eauto.
  - destruct (Hin "year") as [(i & _ & [Hl|[Hl _]]) _];
      [apply list_elem_of_In; simpl; auto 20| |discriminate Hl].
    exists (Item.year i). exact Hl.
  - destruct (Hin "disctotal") as [(i & _ & [Hl|[Hl _]]) _];
      [apply list_elem_of_In; simpl; auto 20| |discriminate Hl].
    exists (Item.disctotal i). exact Hl.
Qed.

(** Each of the release-level comparisons returns, and only adds to its
    own category. *)
Lemma distance_artist_touches likelies info d a :
  likelies !! "artist" = Some a ->
  exists d', distance_artist string_dist likelies info d = Ok d' /\
             only_touches ["artist"] d d' /\
             contributions d' "artist" =
               (contributions d "artist" ++
                if AlbumInfo.va info then []
                else [clamp01 (string_dist a (VOptStr (AlbumInfo.artist info)))])%list.
Proof.
  intros Ha. unfold distance_artist, map_getitem. rewrite Ha.
  destruct (AlbumInfo.va info); cbn [negb]; res_step.
  - eexists. split; [reflexivity|]. split; [apply only_touches_refl|].
    now rewrite app_nil_r.
  - eexists. split; [reflexivity|]. split; [apply add_touches|].
    unfold add_string, contributions at 1.
    rewrite add_get, decide_True by reflexivity. reflexivity.
Qed.

Lemma distance_album_touches likelies info d a :
  likelies !! "album" = Some a ->
  exists d', distance_album string_dist likelies info d = Ok d' /\
             only_touches ["album"] d d' /\
             contributions d' "album" =
               (contributions d "album" ++
                [clamp01 (string_dist a (VOptStr (AlbumInfo.album info)))])%list.
Proof.
  intros Ha. unfold distance_album, map_getitem. rewrite Ha. res_step.
  eexists. split; [reflexivity|]. split; [apply add_touches|].
  unfold add_string, contributions at 1.
  rewrite add_get, decide_True by reflexivity. reflexivity.
Qed.

Lemma distance_media_touches likelies info d :
  is_Some (likelies !! "media") ->
  exists d', distance_media cfg re_match likelies info d = Ok d' /\
             only_touches ["media"] d d'.
Proof.
  intros [m Hm]. unfold distance_media, map_getitem. rewrite Hm.
  destruct (AlbumInfo.media info) as [media|];
    [|eexists; split; [reflexivity|apply only_touches_refl]].
  destruct (truthy_str media);
    [|eexists; split; [reflexivity|apply only_touches_refl]].
  destruct (map _ (Config.preferred_media cfg)).
  - res_step. destruct (truthy m); eexists; split; try reflexivity.
    + apply add_touches.
    + apply only_touches_refl.
  - eexists. split; [reflexivity|apply add_priority_touches].
Qed.

Lemma distance_mediums_touches likelies info d n :
  likelies !! "disctotal" = Some (VInt n) ->
  exists d', distance_mediums likelies info d = Ok d' /\
             only_touches ["mediums"] d d'.
Proof.
  intros Hn. unfold distance_mediums, map_getitem. rewrite Hn. res_step.
  destruct (_ && _); res_step; eexists; split; try reflexivity.
  - apply add_number_touches.
  - apply only_touches_refl.
Qed.

Lemma distance_year_touches likelies info d n :
  likelies !! "year" = Some (VInt n) ->
  exists d', distance_year cfg today_year likelies info d = Ok d' /\
             only_touches ["year"] d d'.
Proof.
  intros Hn. unfold distance_year, map_getitem. rewrite Hn. cbv zeta.
  destruct (_ && Config.preferred_original_year cfg).
  - eexists. split; [reflexivity|apply add_touches].
  - res_step. destruct (_ && _);
      [|eexists; split; [reflexivity|apply only_touches_refl]].
    destruct (py_in _ _); [eexists; split; [reflexivity|apply add_touches]|].
    destruct (truthy_opt_int _); res_step;
      eexists; (split; [reflexivity|apply add_touches]).
Qed.

Lemma distance_country_touches likelies info d :
  is_Some (likelies !! "country") ->
  exists d', distance_country cfg string_dist re_match likelies info d = Ok d' /\
             only_touches ["country"] d d'.
Proof.
  intros [c Hc]. unfold distance_country, map_getitem. rewrite Hc. cbv zeta.
  destruct (_ && negb _).
  - eexists. split; [reflexivity|apply add_priority_touches].
  - res_step. destruct (_ && _); eexists; split; try reflexivity.
    + apply add_touches.
    + apply only_touches_refl.
Qed.

Lemma distance_string_touches field key info_value likelies d :
  is_Some (likelies !! field) ->
  exists d', distance_string string_dist field key info_value likelies d
             = Ok d' /\
             only_touches [key] d d'.
Proof.
  intros [l Hl]. unfold distance_string, map_getitem. rewrite Hl. res_step.
  destruct (_ && _); eexists; split; try reflexivity.
  - apply add_touches.
  - apply only_touches_refl.
Qed.

Lemma distance_album_id_touches likelies info d :
  is_Some (likelies !! "mb_albumid") ->
  exists d', distance_album_id likelies info d = Ok d' /\
             only_touches ["album_id"] d d'.
Proof.
  intros [i Hi]. unfold distance_album_id, map_getitem. rewrite Hi. res_step.
  destruct (truthy i); eexists; split; try reflexivity.
  - apply add_touches.
  - apply only_touches_refl.
Qed.
(** The loop over the pairing adds one contribution per pair to "tracks"
    and records the pair's penalties under its track. *)
Lemma distance_tracks_fold info (mapping : Mapping) d0 :
  let score (it : Item.t * TrackInfo.t) :=
    clamp01 (Distance.distance cfg
               (pair_distance (fst it) (snd it) (AlbumInfo.va info))) in
  let r :=
    fold_left
      (fun dist (it : Item.t * TrackInfo.t) =>
         let td := pair_distance (fst it) (snd it) (AlbumInfo.va info) in
         let dist :=
           set_tracks dist
             (dict_set (tracks dist) (snd it) (_penalties td)) in
         add dist "tracks" (Distance.distance cfg td))
      mapping d0 in
  (forall k, k <> "tracks" ->
     dict_get (_penalties r) k = dict_get (_penalties d0) k) /\
  (mapping = [] -> _penalties r = _penalties d0) /\
  (mapping <> [] ->
   dict_get (_penalties r) "tracks"
   = Some (contributions d0 "tracks" ++ map score mapping)%list) /\
  tracks r =
    fold_left
      (fun tr (it : Item.t * TrackInfo.t) =>
         dict_set tr (snd it)
           (_penalties (pair_distance (fst it) (snd it) (AlbumInfo.va info))))
      mapping (tracks d0).
Proof.
  cbv zeta. revert d0. induction mapping as [|it mapping IH]; intros d0.
  - cbn [fold_left]. split; [reflexivity|]. split; [reflexivity|].
    split; [congruence|reflexivity].
  - cbn [fold_left].
    set (d1 := add (set_tracks d0 _) "tracks" _).
    destruct (IH d1) as (Hk & Hnil & Hcons & Htr).
    assert (H1 : dict_get (_penalties d1) "tracks"
                 = Some (contributions d0 "tracks" ++
                         [clamp01 (Distance.distance cfg
                            (pair_distance (fst it) (snd it)
                                           (AlbumInfo.va info)))])%list).
    { subst d1. rewrite add_get, decide_True by reflexivity. reflexivity. }
    split; [|split; [|split]].
    + intros k Hne. rewrite Hk by exact Hne. subst d1.
      rewrite add_get_ne by congruence. reflexivity.
    + discriminate.
    + intros _. destruct mapping as [|it' mapping'].
      * rewrite Hnil by reflexivity. exact H1.
      * rewrite Hcons by discriminate. unfold contributions at 1.
        rewrite H1. unfold default. cbn [from_option id map].
        now rewrite <- app_assoc.
    + rewrite Htr. reflexivity.
Qed.

(** A repeated full penalty. *)
Lemma distance_repeat_spec key n d :
  only_touches [key] d (distance_repeat key n d) /\
  (0 < n -> dict_get (_penalties (distance_repeat key n d)) key
            = Some (contributions d key ++ repeat 1%Qc (Z.to_nat n))%list) /\
  (n <= 0 -> distance_repeat key n d = d).
Proof.
  unfold distance_repeat.
  assert (H : forall (l : list nat) d0,
            let r := fold_left (fun dist _ => add dist key 1%Qc) l d0 in
            only_touches [key] d0 r /\
            (l <> [] ->
             dict_get (_penalties r) key
             = Some (contributions d0 key ++ repeat 1%Qc (length l))%list) /\
            (l = [] -> r = d0)).
  { induction l as [|x l IH]; intros d0; cbn [fold_left].
    - split; [apply only_touches_refl|]. split; [congruence|reflexivity].
    - destruct (IH (add d0 key 1%Qc)) as (Ht & Hcons & Hnil).
      assert (H1 : dict_get (_penalties (add d0 key 1%Qc)) key
                   = Some (contributions d0 key ++ [1%Qc])%list).
      { rewrite add_get, decide_True by reflexivity. reflexivity. }
      split; [|split; [|discriminate]].
      + eapply only_touches_trans; [apply add_touches|exact Ht].
      + intros _. destruct l as [|y l'].
        * rewrite Hnil by reflexivity. exact H1.
        * rewrite Hcons by discriminate. unfold contributions at 1.
          rewrite H1. unfold default. cbn [from_option id length repeat].
          rewrite <- app_assoc. reflexivity. }
  destruct (H (seq 0 (Z.to_nat n)) d) as (Ht & Hcons & Hnil).
  split; [exact Ht|]. split.
  - intros Hn. rewrite Hcons, length_seq; [reflexivity|].
    destruct (Z.to_nat n) eqn:E; [lia|discriminate].
  - intros Hn. apply Hnil. now rewrite Z2Nat.nonpos.
Qed.

Lemma distance_repeat_contributions key n d :
  contributions (distance_repeat key n d) key
  = (contributions d key ++ repeat 1%Qc (Z.to_nat n))%list.
Proof.
  destruct (distance_repeat_spec key n d) as (_ & Hpos & Hnon).
  destruct (Z_lt_le_dec 0 n) as [Hn|Hn].
  - unfold contributions at 1. now rewrite Hpos.
  - rewrite Hnon, Z2Nat.nonpos by exact Hn. now rewrite app_nil_r.
Qed.

(** [distance], step by step: the release-level comparisons leave a
    distance [d] that has none of the three track categories, to which the
    loop over the pairing, the two repeated penalties and the plugins'
    contributions are added. *)
Lemma distance_steps (items : list Item.t) (info : AlbumInfo.t)
    (mapping : Mapping) :
  items <> [] ->
  exists likelies consensus d la,
    current_metadata items = Ok (likelies, consensus) /\
    likelies !! "album" = Some la /\
    only_touches ["artist"; "album"; "media"; "mediums"; "year"; "country";
                  "label"; "catalognum"; "albumdisambig"; "album_id"] new d /\
    contributions d "album" =
      [clamp01 (string_dist la (VOptStr (AlbumInfo.album info)))] /\
    (AlbumInfo.va info = true -> dict_get (_penalties d) "artist" = None) /\
    album_distance items info mapping =
      Ok (update
            (distance_repeat "unmatched_tracks"
               (Z.of_nat (length items) - Z.of_nat (length mapping))
               (distance_repeat "missing_tracks"
                  (Z.of_nat (length (AlbumInfo.tracks info))
                   - Z.of_nat (length mapping))
                  (distance_tracks cfg string_dist plugins_track_distance
                                   info mapping d)))
            (plugins_album_distance items info mapping)) /\
    exists d4 d5 d9 y,
      likelies !! "year" = Some (VInt y) /\
      only_touches ["artist"; "album"; "media"; "mediums"] new d4 /\
      distance_year cfg today_year likelies info d4 = Ok d5 /\
      only_touches ["country"; "label"; "catalognum"; "albumdisambig"] d5 d9 /\
      distance_album_id likelies info d9 = Ok d.
Proof.
  intros Hne.
  destruct (likelies_read items Hne) as (lk & cs & Hcm & Hall & [y Hy] & [dt Hdt]).
  assert (Hf : forall f, In f fields -> is_Some (lk !! f)).
  { intros f Hf. destruct (Hall f) as [v Hv]; [now apply list_elem_of_In|eauto]. }
  destruct (Hf "artist") as [a Ha]; [simpl; auto 20|].
  destruct (Hf "album") as [la Hla]; [simpl; auto 20|].
  destruct (distance_artist_touches lk info new a Ha) as (d1 & E1 & T1 & C1).
  destruct (distance_album_touches lk info d1 la Hla) as (d2 & E2 & T2 & C2).
  destruct (distance_media_touches lk info d2) as (d3 & E3 & T3);
    [apply Hf; simpl; auto 20|].
  destruct (distance_mediums_touches lk info d3 dt Hdt) as (d4 & E4 & T4).
  destruct (distance_year_touches lk info d4 y Hy) as (d5 & E5 & T5).
  destruct (distance_country_touches lk info d5) as (d6 & E6 & T6);
    [apply Hf; simpl; auto 20|].
  destruct (distance_string_touches "label" "label" (AlbumInfo.label info)
              lk d6) as (d7 & E7 & T7); [apply Hf; simpl; auto 20|].
  destruct (distance_string_touches "catalognum" "catalognum"
              (AlbumInfo.catalognum info) lk d7) as (d8 & E8 & T8);
    [apply Hf; simpl; auto 20|].
  destruct (distance_string_touches "albumdisambig" "albumdisambig"
              (AlbumInfo.albumdisambig info) lk d8) as (d9 & E9 & T9);
    [apply Hf; simpl; auto 20|].
  destruct (distance_album_id_touches lk info d9) as (d10 & E10 & T10);
    [apply Hf; simpl; auto 20|].
  assert (Hlate : only_touches ["media"; "mediums"; "year"; "country"; "label";
                                "catalognum"; "albumdisambig"; "album_id"]
                               d2 d10).
  { chain_step only_touches_trans only_touches_weaken T3.
    chain_step only_touches_trans only_touches_weaken T4.
    chain_step only_touches_trans only_touches_weaken T5.
    chain_step only_touches_trans only_touches_weaken T6.
    chain_step only_touches_trans only_touches_weaken T7.
    chain_step only_touches_trans only_touches_weaken T8.
    chain_step only_touches_trans only_touches_weaken T9.
    eapply only_touches_weaken; [|exact T10]. list_sub. }
  exists lk, cs, d10, la. split; [exact Hcm|]. split; [exact Hla|].
  split; [|split; [|split]].
  - chain_step only_touches_trans only_touches_weaken T1.
    chain_step only_touches_trans only_touches_weaken T2.
    eapply only_touches_weaken; [|exact Hlate]. list_sub.
  - unfold contributions. rewrite (proj2 Hlate).
    + fold (contributions d2 "album"). rewrite C2.
      unfold contributions. rewrite (proj2 T1).
      * reflexivity.
      * intros H. apply list_elem_of_In in H. simpl in H.
        destruct H as [H|[]]; discriminate H.
    + intros H. apply list_elem_of_In in H. simpl in H.
      repeat (destruct H as [H|H]; [discriminate H|]). destruct H.
  - intros Hva. rewrite (proj2 Hlate).
    + rewrite (proj2 T2).
      * rewrite Hva, app_nil_r in C1. unfold contributions in C1.
        cbn [new _penalties dict_get] in C1.
        destruct (dict_get (_penalties d1) "artist") as [l|] eqn:E;
          [|reflexivity].
        exfalso. unfold distance_artist in E1. rewrite Hva in E1.
        cbn [negb] in E1. injection E1 as <-. discriminate E.
      * intros H. apply list_elem_of_In in H. simpl in H.
        destruct H as [H|[]]; discriminate H.
    + intros H. apply list_elem_of_In in H. simpl in H.
      repeat (destruct H as [H|H]; [discriminate H|]). destruct H.
  - split.
    + unfold release_distance. rewrite Hcm. res_step.
      rewrite E1. res_step. rewrite E2. res_step. rewrite E3. res_step.
      rewrite E4. res_step. rewrite E5. res_step. rewrite E6. res_step.
      rewrite E7. res_step. rewrite E8. res_step. rewrite E9. res_step.
      rewrite E10. res_step. reflexivity.
    + exists d4, d5, d9, y. split; [exact Hy|]. split; [|split; [exact E5|]].
      * chain_step only_touches_trans only_touches_weaken T1.
        chain_step only_touches_trans only_touches_weaken T2.
        chain_step only_touches_trans only_touches_weaken T3.
        eapply only_touches_weaken; [|exact T4]. list_sub.
      * split; [|exact E10].
        chain_step only_touches_trans only_touches_weaken T6.
        chain_step only_touches_trans only_touches_weaken T7.
        chain_step only_touches_trans only_touches_weaken T8.
        eapply only_touches_weaken; [|exact T9]. list_sub.
Qed.
(** The track distances recorded by the loop over the pairing. *)
Lemma tracks_fold_spec (va : bool) (mapping : Mapping)
    (acc : dict TrackInfo.t Penalties) :
  let r :=
    fold_left
      (fun tr (it : Item.t * TrackInfo.t) =>
         dict_set tr (snd it)
           (_penalties (pair_distance (fst it) (snd it) va)))
      mapping acc in
  (forall t, t ∈ dict_keys r <-> t ∈ dict_keys acc \/ t ∈ dict_values mapping) /\
  (forall t p, dict_get r t = Some p ->
     dict_get acc t = Some p \/
     exists i, (i, t) ∈ mapping /\ p = _penalties (pair_distance i t va)).
Proof.
  cbv zeta. revert acc. induction mapping as [|[i0 t0] mapping IH]; intros acc.
  - cbn [fold_left]. split.
    + intros t. split; [now left|]. intros [H|H]; [exact H|inversion H].
    + intros t p H. now left.
  - cbn [fold_left fst snd].
    destruct (IH (dict_set acc t0 (_penalties (pair_distance i0 t0 va))))
      as [Hk Hg].
    split.
    + intros t. rewrite Hk, dict_keys_set_elem.
      unfold dict_values. cbn [map snd]. rewrite elem_of_cons.
      fold (dict_values mapping). tauto.
    + intros t p H. apply Hg in H as [H|(i & Hi & ->)].
      * rewrite dict_get_set in H. destruct (decide (t0 = t)) as [<-|Hne].
        -- injection H as <-. right. exists i0. split; [now left|reflexivity].
        -- now left.
      * right. exists i. split; [now right|reflexivity].
Qed.

(** None of the categories of [distance] beyond the release-level ones is
    touched before the loop over the pairing, and none but the three track
    categories from there on. *)
Lemma distance_untouched (items : list Item.t) (info : AlbumInfo.t)
    (mapping : Mapping) (d : Distance.t) (k : string) :
  k ∉ ["tracks"; "missing_tracks"; "unmatched_tracks"] ->
  dict_get
    (_penalties
       (distance_repeat "unmatched_tracks"
          (Z.of_nat (length items) - Z.of_nat (length mapping))
          (distance_repeat "missing_tracks"
             (Z.of_nat (length (AlbumInfo.tracks info))
              - Z.of_nat (length mapping))
             (distance_tracks cfg string_dist plugins_track_distance
                              info mapping d)))) k
  = dict_get (_penalties d) k.
Proof.
  intros Hk.
  assert (k <> "tracks" /\ k <> "missing_tracks" /\ k <> "unmatched_tracks")
    as (H1 & H2 & H3).
  { repeat split; intros ->; apply Hk; apply list_elem_of_In; simpl; auto. }
  rewrite (proj2 (proj1 (distance_repeat_spec _ _ _)))
    by (intros H; apply list_elem_of_In in H; simpl in H; intuition).
  rewrite (proj2 (proj1 (distance_repeat_spec _ _ _)))
    by (intros H; apply list_elem_of_In in H; simpl in H; intuition).
  exact (proj1 (distance_tracks_fold info mapping (set_tracks d [])) k H1).
Qed.

(** X9.  For a non-empty list of items [distance] returns a distance, none
    of its subscripts and subtractions failing.  The album title is always
    compared with the likely album of the items; the artist is not compared
    for a various-artists release; and [distance] itself contributes to
    thirteen categories only, whatever else the result holds coming from
    the plugins.  An empty list of items is refused. *)
Theorem distance_returns (items : list Item.t) (info : AlbumInfo.t)
    (mapping : Mapping) :
  let plugin := plugins_album_distance items info mapping in
  (items <> [] ->
   exists d likelies consensus la,
     album_distance items info mapping = Ok d /\
     current_metadata items = Ok (likelies, consensus) /\
     likelies !! "album" = Some la /\
     contributions d "album" =
       clamp01 (string_dist la (VOptStr (AlbumInfo.album info)))
       :: entries_for "album" (_penalties plugin) /\
     (AlbumInfo.va info = true ->
      contributions d "artist" = entries_for "artist" (_penalties plugin)) /\
     (forall k, k ∈ keys d -> k ∈ album_categories \/ k ∈ keys plugin) /\
     (forall k, k ∉ album_categories ->
        contributions d k = entries_for k (_penalties plugin))) /\
  (items = [] -> album_distance items info mapping = Raise AssertionError).
Proof.
  cbv zeta. split; [|intros ->; reflexivity].
  intros Hne.
  destruct (distance_steps items info mapping Hne)
    as (lk & cs & d10 & la & Hcm & Hla & Ht & Halbum & Hva & Hd & _).
  assert (Hearly : forall k,
            k ∉ ["tracks"; "missing_tracks"; "unmatched_tracks"] ->
            k ∉ ["artist"; "album"; "media"; "mediums"; "year"; "country";
                 "label"; "catalognum"; "albumdisambig"; "album_id"] ->
            dict_get (_penalties d10) k = None).
  { intros k _ Hk. now rewrite (proj2 Ht k Hk). }
  assert (Hout : forall k, k ∉ album_categories ->
            (k ∉ ["tracks"; "missing_tracks"; "unmatched_tracks"]) /\
            (k ∉ ["artist"; "album"; "media"; "mediums"; "year"; "country";
                  "label"; "catalognum"; "albumdisambig"; "album_id"])).
  { intros k Hk. split; intros H; apply Hk; apply list_elem_of_In in H;
      apply list_elem_of_In; simpl in H |- *; intuition. }
  eexists _, lk, cs, la. split; [exact Hd|]. split; [exact Hcm|].
  split; [exact Hla|]. split; [|split; [|split]].
  - rewrite update_contributions. unfold contributions at 1.
    rewrite distance_untouched
      by (intros H; apply list_elem_of_In in H; simpl in H;
          repeat (destruct H as [H|H]; [discriminate H|]); destruct H).
    fold (contributions d10 "album"). now rewrite Halbum.
  - intros Hv. rewrite update_contributions. unfold contributions at 1.
    rewrite distance_untouched
      by (intros H; apply list_elem_of_In in H; simpl in H;
          repeat (destruct H as [H|H]; [discriminate H|]); destruct H).
    now rewrite (Hva Hv).
  - intros k Hk. apply update_keys in Hk as [Hk|Hk]; [|now right].
    destruct (decide (k ∈ album_categories)) as [Hin|Hnin]; [now left|].
    exfalso. destruct (Hout k Hnin) as [H1 H2].
    apply dict_keys_get in Hk as [x Hx].
    rewrite distance_untouched in Hx by exact H1.
    rewrite Hearly in Hx by assumption. discriminate Hx.
  - intros k Hnin. destruct (Hout k Hnin) as [H1 H2].
    rewrite update_contributions. unfold contributions at 1.
    rewrite distance_untouched by exact H1.
    now rewrite Hearly by assumption.
Qed.

(** What the loop over the pairing and the two repeated penalties leave:
    one full penalty per track without item and per item without track, and
    the track distances of the paired tracks. *)
Lemma distance_leftover (items : list Item.t) (info : AlbumInfo.t)
    (mapping : Mapping) (d : Distance.t) :
  album_distance items info mapping = Ok d ->
  let plugin := plugins_album_distance items info mapping in
  contributions d "missing_tracks" =
    (repeat 1%Qc (length (AlbumInfo.tracks info) - length mapping)
     ++ entries_for "missing_tracks" (_penalties plugin))%list /\
  contributions d "unmatched_tracks" =
    (repeat 1%Qc (length items - length mapping)
     ++ entries_for "unmatched_tracks" (_penalties plugin))%list /\
  (forall t, t ∈ dict_keys (tracks d) <-> t ∈ dict_values mapping) /\
  (forall t p, dict_get (tracks d) t = Some p ->
     exists i, (i, t) ∈ mapping /\
               p = _penalties (pair_distance i t (AlbumInfo.va info))).
Proof.
  intros Hd. cbv zeta.
  assert (Hne : items <> []).
  { intros ->. discriminate Hd. }
  destruct (distance_steps items info mapping Hne)
    as (lk & cs & d10 & la & Hcm & Hla & Ht & Halbum & Hva & Hd' & _).
  rewrite Hd' in Hd. injection Hd as <-.
  assert (Hnone : forall k,
            k ∈ ["tracks"; "missing_tracks"; "unmatched_tracks"] ->
            dict_get (_penalties d10) k = None).
  { intros k Hk. rewrite (proj2 Ht); [reflexivity|].
    intros H. apply list_elem_of_In in H, Hk. simpl in H, Hk.
    destruct Hk as [<-|[<-|[<-|[]]]];
      repeat (destruct H as [H|H]; [discriminate H|]); destruct H. }
  set (dT := distance_tracks cfg string_dist plugins_track_distance
                             info mapping d10).
  assert (HTk : forall k, k <> "tracks" ->
            dict_get (_penalties dT) k = dict_get (_penalties d10) k)
    by exact (proj1 (distance_tracks_fold info mapping (set_tracks d10 []))).
  assert (HTtr : tracks dT =
            fold_left
              (fun tr (it : Item.t * TrackInfo.t) =>
                 dict_set tr (snd it)
                   (_penalties (pair_distance (fst it) (snd it)
                                              (AlbumInfo.va info))))
              mapping [])
    by exact (proj2 (proj2 (proj2
                (distance_tracks_fold info mapping (set_tracks d10 []))))).
  split; [|split; [|split]].
  - rewrite update_contributions. f_equal. unfold contributions at 1.
    rewrite (proj2 (proj1 (distance_repeat_spec _ _ _)))
      by (intros H; apply list_elem_of_In in H; simpl in H;
          destruct H as [H|[]]; discriminate H).
    match goal with
    | |- default [] (dict_get (_penalties ?x) ?k) = _ =>
        change (contributions x k = repeat 1%Qc
                  (length (AlbumInfo.tracks info) - length mapping))
    end.
    rewrite distance_repeat_contributions.
    unfold contributions. rewrite HTk by discriminate.
    rewrite Hnone by (apply list_elem_of_In; simpl; auto).
    unfold default. cbn [from_option id app]. f_equal. lia.
  - rewrite update_contributions. f_equal.
    rewrite distance_repeat_contributions.
    unfold contributions.
    rewrite (proj2 (proj1 (distance_repeat_spec _ _ _)))
      by (intros H; apply list_elem_of_In in H; simpl in H;
          destruct H as [H|[]]; discriminate H).
    rewrite HTk by discriminate.
    rewrite Hnone by (apply list_elem_of_In; simpl; auto).
    unfold default. cbn [from_option id app]. f_equal. lia.
  - intros t. cbn [update set_penalties tracks].
    rewrite (proj1 (proj1 (distance_repeat_spec _ _ _))).
    rewrite (proj1 (proj1 (distance_repeat_spec _ _ _))).
    rewrite HTtr.
    rewrite (proj1 (tracks_fold_spec (AlbumInfo.va info) mapping []) t).
    split; [intros [H|H]; [inversion H|exact H]|now right].
  - intros t p. cbn [update set_penalties tracks].
    rewrite (proj1 (proj1 (distance_repeat_spec _ _ _))).
    rewrite (proj1 (proj1 (distance_repeat_spec _ _ _))).
    rewrite HTtr. intros H.
    apply (proj2 (tracks_fold_spec (AlbumInfo.va info) mapping [])) in H
      as [H|H]; [discriminate H|exact H].
Qed.

(** X10.  The track categories of a release distance.  "tracks" holds the
    score of the track distance of every pair, in the order of the pairing;
    "missing_tracks" one full penalty per track of the release left without
    item, and "unmatched_tracks" one per item left without track; the
    plugins' contributions follow.  The track distances are recorded for
    the paired tracks and for no other. *)
Theorem distance_track_penalties (items : list Item.t) (info : AlbumInfo.t)
    (mapping : Mapping) (d : Distance.t) :
  album_distance items info mapping = Ok d ->
  let plugin := plugins_album_distance items info mapping in
  contributions d "tracks" =
    (map (fun it : Item.t * TrackInfo.t =>
            clamp01 (Distance.distance cfg
                       (pair_distance (fst it) (snd it) (AlbumInfo.va info))))
         mapping
     ++ entries_for "tracks" (_penalties plugin))%list /\
  contributions d "missing_tracks" =
    (repeat 1%Qc (length (AlbumInfo.tracks info) - length mapping)
     ++ entries_for "missing_tracks" (_penalties plugin))%list /\
  contributions d "unmatched_tracks" =
    (repeat 1%Qc (length items - length mapping)
     ++ entries_for "unmatched_tracks" (_penalties plugin))%list /\
  (forall t, t ∈ dict_keys (tracks d) <-> t ∈ dict_values mapping) /\
  (forall t p, dict_get (tracks d) t = Some p ->
     exists i, (i, t) ∈ mapping /\
               p = _penalties (pair_distance i t (AlbumInfo.va info))).
Proof.
  intros Hd. cbv zeta.
  split; [|exact (distance_leftover items info mapping d Hd)].
  assert (Hne : items <> []).
  { intros ->. discriminate Hd. }
  destruct (distance_steps items info mapping Hne)
    as (lk & cs & d10 & la & Hcm & Hla & Ht & Halbum & Hva & Hd' & _).
  rewrite Hd' in Hd. injection Hd as <-.
  assert (Hnone : forall k,
            k ∈ ["tracks"; "missing_tracks"; "unmatched_tracks"] ->
            dict_get (_penalties d10) k = None).
  { intros k Hk. rewrite (proj2 Ht); [reflexivity|].
    intros H. apply list_elem_of_In in H, Hk. simpl in H, Hk.
    destruct Hk as [<-|[<-|[<-|[]]]];
      repeat (destruct H as [H|H]; [discriminate H|]); destruct H. }
  set (dT := distance_tracks cfg string_dist plugins_track_distance
                             info mapping d10).
  assert (HTk : forall k, k <> "tracks" ->
            dict_get (_penalties dT) k = dict_get (_penalties d10) k)
    by exact (proj1 (distance_tracks_fold info mapping (set_tracks d10 []))).
  assert (HTnil : mapping = [] -> _penalties dT = _penalties d10)
    by exact (proj1 (proj2
                (distance_tracks_fold info mapping (set_tracks d10 [])))).
  assert (HTcons : mapping <> [] ->
            dict_get (_penalties dT) "tracks"
            = Some (contributions d10 "tracks" ++
                    map (fun it : Item.t * TrackInfo.t =>
                           clamp01 (Distance.distance cfg
                                      (pair_distance (fst it) (snd it)
                                                     (AlbumInfo.va info))))
                        mapping)%list)
    by exact (proj1 (proj2 (proj2
                (distance_tracks_fold info mapping (set_tracks d10 []))))).
  assert (HcT : contributions dT "tracks" =
                map (fun it : Item.t * TrackInfo.t =>
                       clamp01 (Distance.distance cfg
                                  (pair_distance (fst it) (snd it)
                                                 (AlbumInfo.va info))))
                    mapping).
  { unfold contributions. destruct (decide (mapping = [])) as [E|E].
    - rewrite HTnil by exact E.
      rewrite Hnone by (apply list_elem_of_In; simpl; auto).
      now rewrite E.
    - rewrite HTcons by exact E. unfold contributions.
      rewrite Hnone by (apply list_elem_of_In; simpl; auto). reflexivity. }
  rewrite update_contributions. f_equal. unfold contributions.
  rewrite (proj2 (proj1 (distance_repeat_spec _ _ _)))
    by (intros H; apply list_elem_of_In in H; simpl in H;
        destruct H as [H|[]]; discriminate H).
  rewrite (proj2 (proj1 (distance_repeat_spec _ _ _)))
    by (intros H; apply list_elem_of_In in H; simpl in H;
        destruct H as [H|[]]; discriminate H).
  exact HcT.
Qed.
(** What the comparison of the years leaves under "year". *)
Lemma distance_year_cases likelies info d d' y :
  likelies !! "year" = Some (VInt y) ->
  distance_year cfg today_year likelies info d = Ok d' ->
  (AlbumInfo.year info = None \/ AlbumInfo.year info = Some 0 ->
   dict_get (_penalties d') "year" = dict_get (_penalties d) "year") /\
  (forall ry, AlbumInfo.year info = Some ry -> ry <> 0 ->
     (Config.preferred_original_year cfg = true ->
      AlbumInfo.original_year info = Some ry ->
      contributions d' "year" = (contributions d "year" ++ [0%Qc])%list) /\
     (Config.preferred_original_year cfg = false -> y = 0 ->
      dict_get (_penalties d') "year" = dict_get (_penalties d) "year") /\
     (Config.preferred_original_year cfg = false -> y <> 0 ->
      y = ry \/ AlbumInfo.original_year info = Some y ->
      contributions d' "year" = (contributions d "year" ++ [0%Qc])%list) /\
     (Config.preferred_original_year cfg = false -> y <> 0 -> y <> ry ->
      AlbumInfo.original_year info = None \/
      AlbumInfo.original_year info = Some 0 ->
      contributions d' "year" = (contributions d "year" ++ [1%Qc])%list)).
Proof.
  intros Hy. unfold distance_year, map_getitem. rewrite Hy. cbv zeta.
  assert (Hadd : forall q, clamp01 q = q ->
            contributions (add d "year" q) "year"
            = (contributions d "year" ++ [q])%list).
  { intros q Hq. unfold contributions at 1.
    rewrite add_get, decide_True by reflexivity. now rewrite Hq. }
  intros Hd. split.
  - intros Hu.
    assert (Htr : truthy_opt_int (AlbumInfo.year info) = false).
    { destruct Hu as [-> | ->]; reflexivity. }
    rewrite Htr in Hd. cbn [andb] in Hd. revert Hd. res_step.
    rewrite andb_false_r. now intros [= <-].
  - intros ry Hry Hnz.
    assert (Htr : truthy_opt_int (AlbumInfo.year info) = true).
    { apply truthy_opt_int_spec. eauto. }
    rewrite Htr in Hd. cbn [andb] in Hd.
    split; [|split; [|split]].
    + intros Hp Ho. rewrite Hp, Ho, Hry in Hd.
      rewrite (proj2 (truthy_opt_int_spec (Some ry))) in Hd by eauto.
      cbn [default from_option id] in Hd. unfold default in Hd.
      cbn [from_option id] in Hd.
      rewrite Z.sub_diag in Hd. injection Hd as <-.
      unfold add_ratio. cbv zeta.
      match goal with
      | |- contributions (add _ _ ?q) _ = _ => assert (Hq : q = 0%Qc)
      end.
      { destruct (decide _); [reflexivity|].
        assert (E : Qc_max (Qc_min (Z2Qc (Z.abs 0))
                                   (Z2Qc (Z.abs (today_year - ry)))) 0 = 0%Qc).
        { change (Z2Qc (Z.abs 0)) with 0%Qc. unfold Qc_max, Qc_min.
          destruct (decide (Z2Qc (Z.abs (today_year - ry)) < 0)%Qc) as [Hm|Hm].
          - destruct (decide _); [reflexivity|contradiction].
          - destruct (decide _); reflexivity. }
        rewrite E. unfold Qcdiv. rewrite Qcmult_0_l. reflexivity. }
      rewrite Hq. now apply Hadd.
    + intros Hp ->. rewrite Hp in Hd. revert Hd. res_step.
      cbn [truthy Z.eqb negb andb]. now intros [= <-].
    + intros Hp Hyz Hsame. rewrite Hp in Hd. revert Hd. res_step.
      assert (Hty : truthy (VInt y) = true)
        by exact (proj2 (truthy_int_spec y) Hyz).
      rewrite Hty. cbn [andb].
      assert (Hin : py_in (VInt y)
                      [VOptInt (AlbumInfo.year info);
                       VOptInt (AlbumInfo.original_year info)] = true).
      { unfold py_in. cbn [existsb]. rewrite !py_eq_opt_int.
        destruct Hsame as [->|Ho].
        - now rewrite Hry, bool_decide_eq_true_2.
        - rewrite Ho, (bool_decide_eq_true_2 (Some y = Some y)) by reflexivity.
          now rewrite orb_true_r. }
      rewrite Hin. intros [= <-]. now apply Hadd.
    + intros Hp Hyz Hne Ho. rewrite Hp in Hd. revert Hd. res_step.
      assert (Hty : truthy (VInt y) = true)
        by exact (proj2 (truthy_int_spec y) Hyz).
      rewrite Hty. cbn [andb].
      assert (Hin : py_in (VInt y)
                      [VOptInt (AlbumInfo.year info);
                       VOptInt (AlbumInfo.original_year info)] = false).
      { unfold py_in. cbn [existsb]. rewrite !py_eq_opt_int, Hry.
        rewrite bool_decide_eq_false_2 by congruence.
        rewrite bool_decide_eq_false_2; [reflexivity|].
        destruct Ho as [->| ->]; congruence. }
      rewrite Hin.
      assert (Hto : truthy_opt_int (AlbumInfo.original_year info) = false).
      { destruct Ho as [->| ->]; reflexivity. }
      rewrite Hto. intros [= <-]. now apply Hadd.
Qed.

(** What the comparison of the album identifiers leaves under
    "album_id". *)
Lemma distance_album_id_cases likelies info d d' a :
  likelies !! "mb_albumid" = Some (VStr a) ->
  distance_album_id likelies info d = Ok d' ->
  (a = "" -> d' = d) /\
  (a <> "" ->
   contributions d' "album_id" =
     (contributions d "album_id" ++
      [if decide (AlbumInfo.album_id info = Some a) then 0%Qc else 1%Qc])%list).
Proof.
  intros Ha. unfold distance_album_id, map_getitem. rewrite Ha. res_step.
  intros H. split.
  - intros ->. cbn [truthy] in H. rewrite bool_decide_eq_true_2 in H
      by reflexivity. now injection H as <-.
  - intros Hne. cbn [truthy] in H. rewrite bool_decide_eq_false_2 in H
      by exact Hne. cbn [negb] in H. injection H as <-.
    unfold add_equality, add_expr, contributions at 1.
    rewrite add_get, decide_True by reflexivity.
    rewrite clamp01_expr, py_eq_sym, py_eq_opt_str.
    destruct (decide (AlbumInfo.album_id info = Some a)).
    + now rewrite bool_decide_eq_true_2.
    + now rewrite bool_decide_eq_false_2.
Qed.

(** X11.  The year and the identifier of a release in its distance from
    the items.  A release without year (or with year 0) gets no "year"
    contribution.  When original years are preferred, a release that is
    its own original release gets no penalty.  Otherwise the likely year of
    the items decides: no contribution if it is 0, no penalty if it is the
    year or the original year of the release, the full penalty if it is
    neither and the original year is unknown.  The identifier is compared
    only if the items have a likely identifier: the penalty is then 0 for
    this very release and 1 for any other. *)
Theorem distance_year_and_identifier (items : list Item.t)
    (info : AlbumInfo.t) (mapping : Mapping) (d : Distance.t) :
  album_distance items info mapping = Ok d ->
  let plugin := plugins_album_distance items info mapping in
  exists likelies consensus y a,
    current_metadata items = Ok (likelies, consensus) /\
    likelies !! "year" = Some (VInt y) /\
    likelies !! "mb_albumid" = Some (VStr a) /\
    (AlbumInfo.year info = None \/ AlbumInfo.year info = Some 0 ->
     contributions d "year" = entries_for "year" (_penalties plugin)) /\
    (forall ry, AlbumInfo.year info = Some ry -> ry <> 0 ->
       (Config.preferred_original_year cfg = true ->
        AlbumInfo.original_year info = Some ry ->
        contributions d "year" =
          0%Qc :: entries_for "year" (_penalties plugin)) /\
       (Config.preferred_original_year cfg = false -> y = 0 ->
        contributions d "year" = entries_for "year" (_penalties plugin)) /\
       (Config.preferred_original_year cfg = false -> y <> 0 ->
        y = ry \/ AlbumInfo.original_year info = Some y ->
        contributions d "year" =
          0%Qc :: entries_for "year" (_penalties plugin)) /\
       (Config.preferred_original_year cfg = false -> y <> 0 -> y <> ry ->
        AlbumInfo.original_year info = None \/
        AlbumInfo.original_year info = Some 0 ->
        contributions d "year" =
          1%Qc :: entries_for "year" (_penalties plugin))) /\
    (a = "" ->
     contributions d "album_id" = entries_for "album_id" (_penalties plugin)) /\
    (a <> "" ->
     contributions d "album_id" =
       (if decide (AlbumInfo.album_id info = Some a) then 0%Qc else 1%Qc)
       :: entries_for "album_id" (_penalties plugin)).
Proof.
  intros Hd. cbv zeta.
  assert (Hne : items <> []).
  { intros ->. discriminate Hd. }
  destruct (distance_steps items info mapping Hne)
    as (lk & cs & d10 & la & Hcm & Hla & Ht & Halbum & Hva & Hd'
        & d4 & d5 & d9 & y & Hy & T4 & E5 & T9 & E10).
  rewrite Hd' in Hd. injection Hd as <-.
  destruct (current_metadata_shape items Hne) as (lk' & cs' & Hcm' & Hin & _).
  rewrite Hcm in Hcm'. injection Hcm' as <- <-.
  assert (Hid : exists a, lk !! "mb_albumid" = Some (VStr a)).
  { destruct (Hin "mb_albumid") as [(i & _ & [Hl|[Hl _]]) _];
      [apply list_elem_of_In; simpl; auto 20| |discriminate Hl].
    exists (Item.mb_albumid i). exact Hl. }
  destruct Hid as [a Ha].
  destruct (distance_album_id_touches lk info d9) as (d10' & E10' & T10);
    [eauto|]. rewrite E10 in E10'. injection E10' as <-.
  destruct (distance_year_touches lk info d4 y Hy) as (d5' & E5' & T5).
  rewrite E5 in E5'. injection E5' as <-.
  assert (H4y : dict_get (_penalties d4) "year" = None).
  { rewrite (proj2 T4); [reflexivity|].
    intros H. apply list_elem_of_In in H. simpl in H.
    repeat (destruct H as [H|H]; [discriminate H|]). destruct H. }
  assert (H9y : dict_get (_penalties d10) "year" = dict_get (_penalties d5) "year").
  { rewrite (proj2 T10), (proj2 T9); [reflexivity| |];
      intros H; apply list_elem_of_In in H; simpl in H;
      repeat (destruct H as [H|H]; [discriminate H|]); destruct H. }
  assert (H9i : dict_get (_penalties d9) "album_id" = None).
  { rewrite (proj2 T9), (proj2 T5), (proj2 T4); [reflexivity| | |];
      intros H; apply list_elem_of_In in H; simpl in H;
      repeat (destruct H as [H|H]; [discriminate H|]); destruct H. }
  assert (Hfin : forall k, k ∈ ["year"; "album_id"] ->
            contributions
              (update
                 (distance_repeat "unmatched_tracks"
                    (Z.of_nat (length items) - Z.of_nat (length mapping))
                    (distance_repeat "missing_tracks"
                       (Z.of_nat (length (AlbumInfo.tracks info))
                        - Z.of_nat (length mapping))
                       (distance_tracks cfg string_dist plugins_track_distance
                                        info mapping d10)))
                 (plugins_album_distance items info mapping)) k
            = (contributions d10 k ++
               entries_for k (_penalties
                                (plugins_album_distance items info mapping)))%list).
  { intros k Hk. rewrite update_contributions. f_equal.
    unfold contributions. rewrite distance_untouched; [reflexivity|].
    intros H. apply list_elem_of_In in H, Hk. simpl in H, Hk.
    destruct Hk as [<-|[<-|[]]];
      repeat (destruct H as [H|H]; [discriminate H|]); destruct H. }
  destruct (distance_year_cases lk info d4 d5 y Hy E5) as [Hnone Hcases].
  destruct (distance_album_id_cases lk info d9 d10 a Ha E10) as [Hie Hin'].
  assert (Hyc : contributions d10 "year" = contributions d5 "year").
  { unfold contributions. now rewrite H9y. }
  assert (H4c : contributions d4 "year" = []).
  { unfold contributions. now rewrite H4y. }
  exists lk, cs, y, a. split; [exact Hcm|]. split; [exact Hy|].
  split; [exact Ha|]. split; [|split; [|split]].
  - intros Hu. rewrite Hfin by (apply list_elem_of_In; simpl; auto).
    rewrite Hyc. unfold contributions at 1.
    now rewrite (Hnone Hu), H4y.
  - intros ry Hry Hnz. destruct (Hcases ry Hry Hnz) as (C1 & C2 & C3 & C4).
    split; [|split; [|split]].
    + intros Hp Ho. rewrite Hfin by (apply list_elem_of_In; simpl; auto).
      now rewrite Hyc, (C1 Hp Ho), H4c.
    + intros Hp Hz. rewrite Hfin by (apply list_elem_of_In; simpl; auto).
      rewrite Hyc. unfold contributions at 1.
      now rewrite (C2 Hp Hz), H4y.
    + intros Hp Hz Hs. rewrite Hfin by (apply list_elem_of_In; simpl; auto).
      now rewrite Hyc, (C3 Hp Hz Hs), H4c.
    + intros Hp Hz Hn Ho. rewrite Hfin by (apply list_elem_of_In; simpl; auto).
      now rewrite Hyc, (C4 Hp Hz Hn Ho), H4c.
  - intros He. rewrite Hfin by (apply list_elem_of_In; simpl; auto).
    rewrite (Hie He). unfold contributions at 1. now rewrite H9i.
  - intros Hn. rewrite Hfin by (apply list_elem_of_In; simpl; auto).
    rewrite (Hin' Hn). unfold contributions at 1. now rewrite H9i.
Qed.
End ReleaseDistance.

(** The statement above, on two items (one of them paired) and a release of
    one track. *)
Lemma distance_track_penalties_witness :
  exists d,
    distance Demo.cfg Demo.string_dist Demo.re_match Demo.today_year
             Demo.plugins_track_distance Demo.plugins_album_distance
             [Demo.item1; Demo.item2] Demo.release
             [(Demo.item1, Demo.track 1 "T" (Some 1))]
    = Ok d /\
    Distance.contributions d "unmatched_tracks" = [1%Qc] /\
    Distance.contributions d "missing_tracks" = [] /\
    dict_keys (Distance.tracks d) = [Demo.track 1 "T" (Some 1)].
Proof.
  destruct (distance Demo.cfg Demo.string_dist Demo.re_match Demo.today_year
              Demo.plugins_track_distance Demo.plugins_album_distance
              [Demo.item1; Demo.item2] Demo.release
              [(Demo.item1, Demo.track 1 "T" (Some 1))]) as [d|] eqn:Ed;
    [|vm_compute in Ed; discriminate].
  destruct (distance_track_penalties
              Demo.cfg Demo.string_dist Demo.re_match Demo.today_year
              Demo.plugins_track_distance Demo.plugins_album_distance
              [Demo.item1; Demo.item2] Demo.release
              [(Demo.item1, Demo.track 1 "T" (Some 1))] d Ed)
    as (_ & Hm & Hu & _).
  exists d. split; [reflexivity|]. split; [exact Hu|]. split; [exact Hm|].
  vm_compute in Ed. injection Ed as <-. reflexivity.
Defined.

(** The statement above, on an item of the year 2000 with the identifier
    "A1" and the release "A1", whose year is not known. *)
Lemma distance_year_and_identifier_witness :
  exists d,
    distance Demo.cfg Demo.string_dist Demo.re_match Demo.today_year
             Demo.plugins_track_distance Demo.plugins_album_distance
             [Demo.item1] Demo.release [] = Ok d /\
    Distance.contributions d "year" = [] /\
    Distance.contributions d "album_id" = [0%Qc].
Proof.
  destruct (distance Demo.cfg Demo.string_dist Demo.re_match Demo.today_year
              Demo.plugins_track_distance Demo.plugins_album_distance
              [Demo.item1] Demo.release []) as [d|] eqn:Ed;
    [|vm_compute in Ed; discriminate].
  destruct (distance_year_and_identifier
              Demo.cfg Demo.string_dist Demo.re_match Demo.today_year
              Demo.plugins_track_distance Demo.plugins_album_distance
              [Demo.item1] Demo.release [] d Ed)
    as (lk & cs & y & a & Hcm & Hy & Ha & Hyear & _ & _ & Hid).
  exists d. split; [reflexivity|]. split.
  - apply Hyear. now left.
  - assert (Ea : a = "A1").
    { vm_compute in Hcm. injection Hcm as <- _. vm_compute in Ha.
      now injection Ha as <-. }
    rewrite Hid by (rewrite Ea; discriminate). rewrite Ea. reflexivity.
Defined.

(* ===================================================================== *)
(** * Further properties of the pairing *)
(* ===================================================================== *)

(** The values of a dictionary after an assignment. *)
Lemma dict_values_set_elem {K V : Type} `{EqDecision K} (d : dict K V) k v x :
  x ∈ dict_values (dict_set d k v) -> x = v \/ x ∈ dict_values d.
Proof.
  unfold dict_values.
  induction d as [|[k' v'] d IH]; cbn [dict_set map snd].
  - intros H. apply list_elem_of_singleton in H. now left.
  - destruct (decide (k' = k)); cbn [map snd]; rewrite !elem_of_cons.
    + intros [->|H]; [now left|right; now right].
    + intros [->|H]; [right; now left|].
      destruct (IH H) as [->|H']; [now left|right; now right].
Qed.

Lemma dict_values_set_NoDup {K V : Type} `{EqDecision K} (d : dict K V) k v :
  NoDup (dict_values d) -> v ∉ dict_values d ->
  NoDup (dict_values (dict_set d k v)).
Proof.
  unfold dict_values.
  induction d as [|[k' v'] d IH]; cbn [dict_set map snd]; intros Hnd Hv.
  - apply list.NoDup_cons. split; [intros H; inversion H|constructor].
  - apply list.NoDup_cons in Hnd as [Hv' Hnd].
    apply not_elem_of_cons in Hv as [Hne Hv].
    destruct (decide (k' = k)); cbn [map snd]; apply list.NoDup_cons.
    + split; assumption.
    + split; [|now apply IH].
      intros H. apply (dict_values_set_elem d k v v') in H as [->|H];
        [congruence|contradiction].
Qed.

Lemma dict_length_keys {K V : Type} (d : dict K V) :
  length (dict_keys d) = length d.
Proof. apply length_map. Qed.

Lemma dict_length_values {K V : Type} (d : dict K V) :
  length (dict_values d) = length d.
Proof. apply length_map. Qed.

(** The tracks offered to the comprehension are distinct when the tracks
    are. *)
Lemma combine_snd_NoDup {A B} (l : list A) (k : list B) :
  NoDup k -> NoDup (map snd (combine l k)).
Proof.
  revert k. induction l as [|a l IH]; intros k Hnd; [constructor|].
  destruct k as [|b k]; [constructor|]. cbn [combine map snd].
  apply list.NoDup_cons in Hnd as [Hb Hnd]. apply list.NoDup_cons.
  split; [|now apply IH].
  intros H. apply Hb. now apply (elem_of_combine_snd l k b).
Qed.

(** Distinct tracks end up under distinct items, or replace one another:
    no track is the value of two keys. *)
Lemma assign_items_mapping_values (items : list Item.t)
    (pairs : list (Z * TrackInfo.t)) (mapping mapping' : Mapping) :
  assign_items_mapping items pairs mapping = Ok mapping' ->
  NoDup (map snd pairs) -> NoDup (dict_values mapping) ->
  (forall t, t ∈ dict_values mapping -> t ∉ map snd pairs) ->
  NoDup (dict_values mapping').
Proof.
  revert mapping. induction pairs as [|[iidx t] pairs IH];
    intros mapping Hm Hnd Hv Hdis; cbn [assign_items_mapping] in Hm.
  - now injection Hm as <-.
  - cbn [map snd] in Hnd, Hdis. apply list.NoDup_cons in Hnd as [Ht Hnd].
    destruct (iidx =? -1).
    + apply (IH mapping Hm Hnd Hv). intros t' Ht' Hin.
      apply (Hdis t' Ht'). now right.
    + destruct (py_index items iidx) as [item|]; [|discriminate Hm].
      revert Hm. res_step. intros Hm.
      apply (IH (dict_set mapping item t) Hm Hnd).
      * apply dict_values_set_NoDup; [exact Hv|].
        intros Hin. apply (Hdis t Hin). now left.
      * intros t' Ht' Hin.
        apply dict_values_set_elem in Ht' as [->|Ht']; [contradiction|].
        apply (Hdis t' Ht'). now right.
Qed.

(** Two duplicate-free lists, one holding what the other holds and more. *)
Lemma NoDup_split_length {A} `{EqDecision A} (whole part rest : list A) :
  NoDup whole -> NoDup part -> NoDup rest ->
  (forall x, x ∈ part -> x ∈ whole) ->
  (forall x, x ∈ rest <-> x ∈ whole /\ x ∉ part) ->
  length whole = (length part + length rest)%nat.
Proof.
  intros Hw Hp Hr Hsub Hrest. rewrite <- length_app.
  apply Permutation_length, NoDup_Permutation.
  - exact Hw.
  - apply list.NoDup_app. split; [exact Hp|]. split; [|exact Hr].
    intros x Hx Hx'. apply Hrest in Hx' as [_ Hx']. contradiction.
  - intros x. rewrite elem_of_app, Hrest.
    destruct (decide (x ∈ part)); [|tauto].
    split; [tauto|]. intros _. auto.
Qed.

Section AssignCounts.
Variable cfg : Config.t.
Variable string_dist : Value -> Value -> Qc.
Variable plugins_track_distance : Item.t -> TrackInfo.t -> Distance.t.
Variable lapjv : list (list Qc) -> res (list Z).
Variable item_set_order : list Item.t -> list Item.t.
Variable track_set_order : list TrackInfo.t -> list TrackInfo.t.

Hypothesis item_set_order_perm :
  forall l, Permutation (item_set_order l) l.
Hypothesis track_set_order_perm :
  forall l, Permutation (track_set_order l) l.

(** The sizes of what [assign_items] returns, for distinct items and
    distinct tracks. *)
Lemma assign_items_sizes (items : list Item.t) (tracks : list TrackInfo.t)
    (mapping : Mapping) (extra_items : list Item.t)
    (extra_tracks : list TrackInfo.t) :
  assign_items cfg string_dist plugins_track_distance lapjv
               item_set_order track_set_order items tracks
  = Ok (mapping, extra_items, extra_tracks) ->
  NoDup items -> NoDup tracks ->
  NoDup (dict_values mapping) /\
  length items = (length mapping + length extra_items)%nat /\
  length tracks = (length mapping + length extra_tracks)%nat.
Proof.
  intros Ha Hi Ht.
  destruct (assign_items_sound cfg string_dist plugins_track_distance lapjv
              item_set_order track_set_order item_set_order_perm
              track_set_order_perm items tracks mapping extra_items
              extra_tracks Ha)
    as ((Hk & Hei & Hki & Heis) & (Het & Hvt & Hets) & _).
  assert (Hv : NoDup (dict_values mapping)).
  { revert Ha. unfold assign_items. res_step.
    destruct (lapjv _) as [assigned|]; [|discriminate]. res_step.
    destruct (assign_items_mapping items (combine assigned tracks) [])
      as [m|] eqn:Em; [|discriminate]. res_step.
    destruct (py_sort extra_items_key _) as [ei|]; [|discriminate]. res_step.
    destruct (py_sort extra_tracks_key _) as [et|]; [|discriminate]. res_step.
    intros [= <- _ _].
    apply (assign_items_mapping_values _ _ _ _ Em).
    - now apply combine_snd_NoDup.
    - constructor.
    - intros t H. inversion H. }
  split; [exact Hv|]. split.
  - rewrite <- (dict_length_keys mapping).
    now apply NoDup_split_length.
  - rewrite <- (dict_length_values mapping).
    now apply NoDup_split_length.
Qed.

(** X12.  For distinct items and distinct tracks the pairing of
    [assign_items] is one-to-one, and the two extra lists hold exactly what
    the pairing leaves over: as many items as there are items beyond the
    pairs, and as many tracks as there are tracks beyond the pairs. *)
Theorem assign_items_counts (items : list Item.t) (tracks : list TrackInfo.t)
    (mapping : Mapping) (extra_items : list Item.t)
    (extra_tracks : list TrackInfo.t) :
  assign_items cfg string_dist plugins_track_distance lapjv
               item_set_order track_set_order items tracks
  = Ok (mapping, extra_items, extra_tracks) ->
  NoDup items -> NoDup tracks ->
  NoDup (dict_keys mapping) /\ NoDup (dict_values mapping) /\
  length extra_items = (length items - length mapping)%nat /\
  length extra_tracks = (length tracks - length mapping)%nat /\
  (length mapping <= length items)%nat /\
  (length mapping <= length tracks)%nat.
Proof.
  intros Ha Hi Ht.
  destruct (assign_items_sizes items tracks mapping extra_items extra_tracks
              Ha Hi Ht) as (Hv & Hli & Hlt).
  destruct (assign_items_sound cfg string_dist plugins_track_distance lapjv
              item_set_order track_set_order item_set_order_perm
              track_set_order_perm items tracks mapping extra_items
              extra_tracks Ha) as ((Hk & _) & _).
  repeat split; try assumption; lia.
Qed.
End AssignCounts.

(** The statement above, on two items and a release of three tracks. *)
Lemma assign_items_counts_witness :
  exists mapping extra_items extra_tracks,
    assign_items Demo.cfg Demo.string_dist Demo.plugins_track_distance
                 Demo.lapjv Demo.item_set_order Demo.track_set_order
                 [Demo.item1; Demo.item2]
                 [Demo.track 1 "T" (Some 1); Demo.track 2 "U" (Some 2);
                  Demo.track 3 "V" (Some 3)]
    = Ok (mapping, extra_items, extra_tracks) /\
    length mapping = 2%nat /\
    length extra_items = 0%nat /\ length extra_tracks = 1%nat.
Proof.
  destruct (assign_items Demo.cfg Demo.string_dist Demo.plugins_track_distance
              Demo.lapjv Demo.item_set_order Demo.track_set_order
              [Demo.item1; Demo.item2]
              [Demo.track 1 "T" (Some 1); Demo.track 2 "U" (Some 2);
               Demo.track 3 "V" (Some 3)])
    as [[[mapping extra_items] extra_tracks]|] eqn:Ea;
    [|vm_compute in Ea; discriminate].
  destruct (assign_items_counts
              Demo.cfg Demo.string_dist Demo.plugins_track_distance
              Demo.lapjv Demo.item_set_order Demo.track_set_order
              (fun l => Permutation_refl l) (fun l => Permutation_refl l)
              [Demo.item1; Demo.item2]
              [Demo.track 1 "T" (Some 1); Demo.track 2 "U" (Some 2);
               Demo.track 3 "V" (Some 3)]
              mapping extra_items extra_tracks Ea)
    as (_ & _ & Hei & Het & _).
  - refine (bool_decide_unpack _ _). vm_compute. exact I.
  - refine (bool_decide_unpack _ _). vm_compute. exact I.
  - assert (Hm : length mapping = 2%nat).
    { vm_compute in Ea. injection Ea as <- _ _. reflexivity. }
    exists mapping, extra_items, extra_tracks.
    split; [reflexivity|]. split; [exact Hm|].
    rewrite Hei, Het, Hm. split; reflexivity.
Defined.

(* ===================================================================== *)
(** * Further properties of the accumulation of candidates *)
(* ===================================================================== *)

Section Accumulation.
Variable cfg : Config.t.
Variable string_dist : Value -> Value -> Qc.
Variable re_match : string -> string -> bool.
Variable today_year : Z.
Variable plugins_track_distance : Item.t -> TrackInfo.t -> Distance.t.
Variable plugins_album_distance :
  list Item.t -> AlbumInfo.t -> Mapping -> Distance.t.
Variable lapjv : list (list Qc) -> res (list Z).
Variable item_set_order : list Item.t -> list Item.t.
Variable track_set_order : list TrackInfo.t -> list TrackInfo.t.

#[local] Abbreviation accumulate :=
  (_add_candidate cfg string_dist re_match today_year plugins_track_distance
                  plugins_album_distance lapjv item_set_order track_set_order).
#[local] Abbreviation accumulate_all :=
  (add_candidates cfg string_dist re_match today_year plugins_track_distance
                  plugins_album_distance lapjv item_set_order track_set_order).
#[local] Abbreviation accepted :=
  (accepted_candidate cfg string_dist re_match today_year
                      plugins_track_distance plugins_album_distance lapjv
                      item_set_order track_set_order).

(** One call of [_add_candidate] either leaves the result set as it is or
    stores an accepted candidate for [info] under its identifier, which, if
    it is not empty, was not used before. *)
Lemma add_candidate_step (items : list Item.t)
    (results results' : dict (option string) Match) (info : AlbumInfo.t) :
  accumulate items results info = Ok results' ->
  results' = results \/
  exists dist mapping extra_items extra_tracks,
    let m := AlbumMatch dist info mapping extra_items extra_tracks in
    accepted items m /\
    results' = dict_set results (AlbumInfo.album_id info) m /\
    (forall a, AlbumInfo.album_id info = Some a -> a <> "" ->
               Some a ∉ dict_keys results).
Proof.
  unfold _add_candidate.
  destruct (AlbumInfo.tracks info) as [|t ts] eqn:Et;
    [intros [= <-]; now left|].
  destruct (truthy_opt_str (AlbumInfo.album_id info)
            && dict_mem results (AlbumInfo.album_id info)) eqn:Edup;
    [intros [= <-]; now left|].
  destruct (missing_required info (Config.required cfg)) as [[|]|] eqn:Em;
    res_step; [intros [= <-]; now left| |discriminate].
  destruct (assign_items _ _ _ _ _ _ items (t :: ts))
    as [[[mapping ei] et]|] eqn:Ea; res_step; [|discriminate].
  destruct (distance _ _ _ _ _ _ items info mapping) as [dist|] eqn:Ed;
    res_step; [|discriminate].
  destruct (existsb _ (Config.ignored cfg)) eqn:Eig;
    [intros [= <-]; now left|].
  intros [= <-]. right. exists dist, mapping, ei, et. cbv zeta.
  split; [|split; [reflexivity|]].
  - exists dist, info, mapping, ei, et. split; [reflexivity|].
    split; [rewrite Et; discriminate|]. split; [exact Em|].
    split; [rewrite Et; exact Ea|]. split; [exact Ed|].
    intros penalty Hp Hk.
    assert (existsb (fun penalty => bool_decide (penalty ∈ Distance.keys dist))
                    (Config.ignored cfg) = true); [|congruence].
    apply ignored_penalty_found. eauto.
  - intros a Ha Hne Hin. rewrite Ha in Edup.
    rewrite (proj2 (truthy_opt_str_spec (Some a))) in Edup by eauto.
    rewrite (proj2 (dict_mem_true results (Some a)) Hin) in Edup.
    discriminate Edup.
Qed.

(** What the loop over the candidates keeps: distinct keys, each the
    identifier of the accepted candidate stored under it, every candidate
    of one of the releases seen. *)
Lemma add_candidates_kept (items : list Item.t) (seen : AlbumInfo.t -> Prop)
    (infos : list AlbumInfo.t) (results results' : dict (option string) Match) :
  accumulate_all items results infos = Ok results' ->
  (forall info, info ∈ infos -> seen info) ->
  (NoDup (dict_keys results) /\
   forall key m, (key, m) ∈ results ->
     accepted items m /\ candidate_id m = key /\
     exists dist info mapping extra_items extra_tracks,
       m = AlbumMatch dist info mapping extra_items extra_tracks /\
       seen info) ->
  NoDup (dict_keys results') /\
  forall key m, (key, m) ∈ results' ->
    accepted items m /\ candidate_id m = key /\
    exists dist info mapping extra_items extra_tracks,
      m = AlbumMatch dist info mapping extra_items extra_tracks /\
      seen info.
Proof.
  revert results. induction infos as [|info infos IH];
    intros results Hacc Hseen Hinv; cbn [add_candidates] in Hacc.
  - now injection Hacc as <-.
  - destruct (accumulate items results info) as [r1|] eqn:E1;
      [|discriminate Hacc]. revert Hacc. res_step. intros Hacc.
    apply (IH r1 Hacc); [intros i Hi; apply Hseen; now right|].
    destruct (add_candidate_step items results r1 info E1)
      as [->|(dist & mapping & ei & et & Hok & -> & _)]; [exact Hinv|].
    destruct Hinv as [Hnd Hall]. split; [now apply dict_set_NoDup|].
    intros key m Hin. apply dict_set_elem in Hin as [[-> ->]|Hin].
    + split; [exact Hok|]. split; [reflexivity|].
      exists dist, info, mapping, ei, et. split; [reflexivity|].
      apply Hseen. now left.
    + now apply Hall.
Qed.

(** The keys a result set has are kept, and what is stored under a
    non-empty identifier stays. *)
Lemma add_candidate_keeps (items : list Item.t)
    (results results' : dict (option string) Match) (info : AlbumInfo.t) :
  accumulate items results info = Ok results' ->
  (forall key, key ∈ dict_keys results -> key ∈ dict_keys results') /\
  (forall a m, a <> "" -> dict_get results (Some a) = Some m ->
               dict_get results' (Some a) = Some m).
Proof.
  intros H. destruct (add_candidate_step items results results' info H)
    as [->|(dist & mapping & ei & et & _ & -> & Hfresh)]; [split; auto|].
  split.
  - intros key Hk. apply dict_keys_set_elem. now right.
  - intros a m Ha Hg. rewrite dict_get_set_ne; [exact Hg|].
    intros Hid. apply (Hfresh a Hid Ha). apply dict_keys_get. eauto.
Qed.

(** X13.  Whatever the loop over the found releases leaves in the result
    set was either there before or is an accepted candidate for one of the
    releases, stored under that release's identifier; no key is lost, what
    was stored under a non-empty identifier is still stored under it, and
    distinct keys stay distinct. *)
Theorem add_candidates_invariant (items : list Item.t)
    (infos : list AlbumInfo.t) (results results' : dict (option string) Match) :
  accumulate_all items results infos = Ok results' ->
  (forall key m, dict_get results' key = Some m ->
     dict_get results key = Some m \/
     (accepted items m /\ candidate_id m = key /\
      exists dist info mapping extra_items extra_tracks,
        m = AlbumMatch dist info mapping extra_items extra_tracks /\
        info ∈ infos)) /\
  (forall key, key ∈ dict_keys results -> key ∈ dict_keys results') /\
  (forall a m, a <> "" -> dict_get results (Some a) = Some m ->
               dict_get results' (Some a) = Some m) /\
  (NoDup (dict_keys results) -> NoDup (dict_keys results')).
Proof.
  revert results. induction infos as [|info infos IH];
    intros results Hacc; cbn [add_candidates] in Hacc.
  - injection Hacc as <-. repeat split; auto.
  - destruct (accumulate items results info) as [r1|] eqn:E1;
      [|discriminate Hacc]. revert Hacc. res_step. intros Hacc.
    destruct (IH r1 Hacc) as (Hget & Hkeys & Hstay & Hnd).
    destruct (add_candidate_keeps items results r1 info E1) as [Hk1 Hs1].
    split; [|split; [|split]].
    + intros key m Hm. destruct (Hget key m Hm)
        as [H1|(Hok & Hid & dist & i & mp & ei & et & -> & Hi)].
      * destruct (add_candidate_step items results r1 info E1)
          as [->|(dist & mp & ei & et & Hok & -> & _)]; [now left|].
        rewrite dict_get_set in H1.
        destruct (decide (AlbumInfo.album_id info = key)) as [<-|Hne];
          [|now left].
        injection H1 as <-. right. split; [exact Hok|].
        split; [reflexivity|].
        exists dist, info, mp, ei, et. split; [reflexivity|now left].
      * right. split; [exact Hok|]. split; [exact Hid|].
        exists dist, i, mp, ei, et. split; [reflexivity|now right].
    + auto.
    + auto.
    + intros H. apply Hnd.
      destruct (add_candidate_step items results r1 info E1)
        as [->|(dist & mp & ei & et & _ & -> & _)]; [exact H|].
      now apply dict_set_NoDup.
Qed.
End Accumulation.

(** The statement above, on a release found twice: the second is a
    duplicate, and what is stored is an accepted candidate. *)
Lemma add_candidates_invariant_witness :
  exists results,
    add_candidates Demo.cfg Demo.string_dist Demo.re_match Demo.today_year
                   Demo.plugins_track_distance Demo.plugins_album_distance
                   Demo.lapjv Demo.item_set_order Demo.track_set_order
                   [Demo.item1] [] [Demo.release; Demo.release]
    = Ok results /\
    dict_keys results = [Some "A1"] /\
    forall key m, dict_get results key = Some m ->
      accepted_candidate Demo.cfg Demo.string_dist Demo.re_match
                         Demo.today_year Demo.plugins_track_distance
                         Demo.plugins_album_distance Demo.lapjv
                         Demo.item_set_order Demo.track_set_order
                         [Demo.item1] m /\
      candidate_id m = key.
Proof.
  destruct (add_candidates Demo.cfg Demo.string_dist Demo.re_match
              Demo.today_year Demo.plugins_track_distance
              Demo.plugins_album_distance Demo.lapjv Demo.item_set_order
              Demo.track_set_order [Demo.item1] []
              [Demo.release; Demo.release]) as [results|] eqn:Ea;
    [|vm_compute in Ea; discriminate].
  destruct (add_candidates_invariant
              Demo.cfg Demo.string_dist Demo.re_match Demo.today_year
              Demo.plugins_track_distance Demo.plugins_album_distance
              Demo.lapjv Demo.item_set_order Demo.track_set_order
              [Demo.item1] [Demo.release; Demo.release] [] results Ea)
    as (Hget & _).
  exists results. split; [reflexivity|]. split.
  - vm_compute in Ea. injection Ea as <-. reflexivity.
  - intros key m Hm. destruct (Hget key m Hm) as [H|(Hok & Hid & _)];
      [discriminate H|]. split; assumption.
Defined.

(* ===================================================================== *)
(** * Further properties of the two entry points *)
(* ===================================================================== *)

(** The order [_sort_candidates] leaves the candidates in. *)
Lemma sort_candidates_sorted (cfg : Config.t) (cands : list Match) :
  StronglySorted (fun a b => (match_score cfg a <= match_score cfg b)%Qc)
                 (_sort_candidates cfg cands).
Proof.
  unfold _sort_candidates.
  pose proof (stable_sort_sorted
                (fun m => [VFloat (match_score cfg m)]) cands) as Hs.
  induction Hs as [|x l Hs IH Hx]; constructor; [exact IH|].
  rewrite List.Forall_forall in Hx |- *. intros y Hy. specialize (Hx y Hy).
  unfold key_le in Hx. rewrite score_key_lt in Hx.
  apply bool_decide_eq_false in Hx. now apply Qcnot_lt_le.
Qed.

Lemma sort_candidates_perm (cfg : Config.t) (cands : list Match) :
  Permutation (_sort_candidates cfg cands) cands.
Proof. apply stable_sort_perm. Qed.

(** The identifiers of the values of a dictionary whose entries are stored
    under their identifiers are its keys. *)
Lemma candidate_ids_keys (c : dict (option string) Match) :
  (forall key m, (key, m) ∈ c -> candidate_id m = key) ->
  map candidate_id (dict_values c) = dict_keys c.
Proof.
  unfold dict_values, dict_keys.
  induction c as [|[k m] c IH]; intros H; [reflexivity|].
  cbn [map fst snd]. rewrite (H k m) by now left.
  rewrite IH; [reflexivity|]. intros key m' Hin. apply H. now right.
Qed.

(** The sorted values of such a dictionary with distinct keys. *)
Lemma sorted_values_spec (cfg : Config.t) (good : Match -> Prop)
    (c : dict (option string) Match) :
  NoDup (dict_keys c) ->
  (forall key m, (key, m) ∈ c -> good m /\ candidate_id m = key) ->
  let l := _sort_candidates cfg (dict_values c) in
  StronglySorted (fun a b => (match_score cfg a <= match_score cfg b)%Qc) l /\
  NoDup (map candidate_id l) /\
  (forall m, m ∈ l -> good m) /\
  (l = [] <-> c = []).
Proof.
  intros Hnd Hall. cbv zeta.
  split; [apply sort_candidates_sorted|]. split; [|split].
  - rewrite (Permutation_map candidate_id
               (sort_candidates_perm cfg (dict_values c))).
    rewrite candidate_ids_keys; [exact Hnd|].
    intros key m Hin. now apply Hall.
  - intros m Hm. rewrite (sort_candidates_perm cfg (dict_values c)) in Hm.
    apply list_elem_of_fmap in Hm as ([k m'] & -> & Hin).
    now apply (Hall k m').
  - split.
    + intros E. pose proof (sort_candidates_perm cfg (dict_values c)) as P.
      rewrite E in P. apply Permutation_nil in P.
      destruct c; [reflexivity|discriminate P].
    + intros ->. reflexivity.
Qed.

Section AlbumProposal.
Variable cfg : Config.t.
Variable string_dist : Value -> Value -> Qc.
Variable re_match : string -> string -> bool.
Variable today_year : Z.
Variable plugins_track_distance : Item.t -> TrackInfo.t -> Distance.t.
Variable plugins_album_distance :
  list Item.t -> AlbumInfo.t -> Mapping -> Distance.t.
Variable lapjv : list (list Qc) -> res (list Z).
Variable item_set_order : list Item.t -> list Item.t.
Variable track_set_order : list TrackInfo.t -> list TrackInfo.t.
Variable album_for_mbid : string -> option AlbumInfo.t.
Variable albums_for_id : string -> list AlbumInfo.t.
Variable album_candidates :
  list Item.t -> Value -> Value -> bool -> option (gmap string Value) ->
  list AlbumInfo.t.

#[local] Abbreviation accumulate :=
  (_add_candidate cfg string_dist re_match today_year plugins_track_distance
                  plugins_album_distance lapjv item_set_order track_set_order).
#[local] Abbreviation accumulate_all :=
  (add_candidates cfg string_dist re_match today_year plugins_track_distance
                  plugins_album_distance lapjv item_set_order track_set_order).
#[local] Abbreviation accepted :=
  (accepted_candidate cfg string_dist re_match today_year
                      plugins_track_distance plugins_album_distance lapjv
                      item_set_order track_set_order).
#[local] Abbreviation album_tag :=
  (tag_album cfg string_dist re_match today_year plugins_track_distance
             plugins_album_distance lapjv item_set_order track_set_order
             album_for_mbid albums_for_id album_candidates).

(** X14.  Whatever [tag_album] returns: the current artist and album are
    the likely artist and album of the items; the recommendation is the one
    [_recommendation] gives for the returned candidates; the candidates are
    in ascending order of their scores, on the early return of an
    identifier match as well; no two of them have the same identifier; and
    each is an accepted candidate for the items, for a release found for one
    of the explicit identifiers if there are any, and otherwise for the
    release of the items' own identifier or one found by the search. *)
Theorem tag_album_proposal (items : list Item.t)
    (search_artist search_album : option string) (search_ids : list string)
    (cur_artist cur_album : Value) (p : Proposal) :
  album_tag items search_artist search_album search_ids
  = Ok (cur_artist, cur_album, p) ->
  let seen info :=
    match search_ids with
    | [] =>
        snd (match_by_id album_for_mbid items) = Some info \/
        exists artist album va_likely extra_tags,
          info ∈ album_candidates items artist album va_likely extra_tags
    | _ :: _ => exists id, id ∈ search_ids /\ info ∈ albums_for_id id
    end in
  (exists likelies consensus,
     current_metadata items = Ok (likelies, consensus) /\
     likelies !! "artist" = Some cur_artist /\
     likelies !! "album" = Some cur_album) /\
  recommendation p = _recommendation cfg (candidates p) /\
  StronglySorted (fun a b => (match_score cfg a <= match_score cfg b)%Qc)
                 (candidates p) /\
  NoDup (map candidate_id (candidates p)) /\
  forall m, m ∈ candidates p ->
    accepted items m /\
    exists dist info mapping extra_items extra_tracks,
      m = AlbumMatch dist info mapping extra_items extra_tracks /\
      seen info.
Proof.
  intros Htag. cbv zeta.
  set (seen := fun info =>
         match search_ids with
         | [] =>
             snd (match_by_id album_for_mbid items) = Some info \/
             exists artist album va_likely extra_tags,
               info ∈ album_candidates items artist album va_likely extra_tags
         | _ :: _ => exists id, id ∈ search_ids /\ info ∈ albums_for_id id
         end).
  set (good := fun m =>
         accepted items m /\
         exists dist info mapping extra_items extra_tracks,
           m = AlbumMatch dist info mapping extra_items extra_tracks /\
           seen info).
  assert (Hkept : forall infos c c',
            accumulate_all items c infos = Ok c' ->
            (forall info, info ∈ infos -> seen info) ->
            (NoDup (dict_keys c) /\
             forall key m, (key, m) ∈ c -> good m /\ candidate_id m = key) ->
            NoDup (dict_keys c') /\
            forall key m, (key, m) ∈ c' -> good m /\ candidate_id m = key).
  { intros infos c c' Hacc Hseen [Hnd Hall].
    destruct (add_candidates_kept cfg string_dist re_match today_year
                plugins_track_distance plugins_album_distance lapjv
                item_set_order track_set_order items seen infos c c' Hacc Hseen)
      as [Hnd' Hall'].
    - split; [exact Hnd|]. intros key m Hin.
      destruct (Hall key m Hin) as [[Hok Hs] Hid]. auto.
    - split; [exact Hnd'|]. intros key m Hin.
      destruct (Hall' key m Hin) as (Hok & Hid & Hs). subst good. auto. }
  assert (Hfinish : forall c q,
            NoDup (dict_keys c) ->
            (forall key m, (key, m) ∈ c -> good m /\ candidate_id m = key) ->
            q = mkProposal (_sort_candidates cfg (dict_values c))
                  (_recommendation cfg (_sort_candidates cfg (dict_values c))) ->
            recommendation q = _recommendation cfg (candidates q) /\
            StronglySorted
              (fun a b => (match_score cfg a <= match_score cfg b)%Qc)
              (candidates q) /\
            NoDup (map candidate_id (candidates q)) /\
            forall m, m ∈ candidates q -> good m).
  { intros c q Hnd Hall ->. cbn [candidates recommendation].
    destruct (sorted_values_spec cfg good c Hnd Hall) as (Hs & Hn & Hg & _).
    auto. }
  assert (Hempty : NoDup (dict_keys ([] : dict (option string) Match)) /\
                   forall key m, (key, m) ∈ ([] : dict (option string) Match) ->
                                 good m /\ candidate_id m = key).
  { split; [constructor|]. intros key m H. inversion H. }
  revert Htag. unfold tag_album.
  destruct (current_metadata items) as [[likelies consensus]|] eqn:Hcm;
    res_step; [|discriminate].
  unfold map_getitem at 1.
  destruct (likelies !! "artist") as [ca|] eqn:Hca; res_step; [|discriminate].
  unfold map_getitem at 1.
  destruct (likelies !! "album") as [cb|] eqn:Hcb; res_step; [|discriminate].
  destruct search_ids as [|id0 ids].
  - (* the items' own identifier, then the search *)
    assert (Hsearch : forall c,
              (NoDup (dict_keys c) /\
               forall key m, (key, m) ∈ c -> good m /\ candidate_id m = key) ->
              forall artist album va_likely extra_tags,
                match
                  accumulate_all items c
                    (album_candidates items artist album va_likely extra_tags)
                with
                | Ok c' =>
                    Ok (ca, cb,
                        mkProposal
                          (_sort_candidates cfg (dict_values c'))
                          (_recommendation cfg
                             (_sort_candidates cfg (dict_values c'))))
                | Raise e => Raise e
                end = Ok (cur_artist, cur_album, p) ->
                ca = cur_artist /\ cb = cur_album /\
                recommendation p = _recommendation cfg (candidates p) /\
                StronglySorted
                  (fun a b => (match_score cfg a <= match_score cfg b)%Qc)
                  (candidates p) /\
                NoDup (map candidate_id (candidates p)) /\
                forall m, m ∈ candidates p -> good m).
    { intros c Hc artist album va_likely extra_tags.
      destruct (accumulate_all items c _) as [c'|] eqn:Hacc; [|discriminate].
      intros [= -> -> <-]. split; [reflexivity|]. split; [reflexivity|].
      destruct (Hkept _ c c' Hacc) as [Hnd Hall]; [|exact Hc|].
      - intros info Hin. right. eauto.
      - now apply (Hfinish c'). }
    assert (Hgo : forall c (extra_tags : option (gmap string Value)),
              (NoDup (dict_keys c) /\
               forall key m, (key, m) ∈ c -> good m /\ candidate_id m = key) ->
              (let '(search_artist0, search_album0) :=
                 if truthy_opt_str search_artist && truthy_opt_str search_album
                 then (VOptStr search_artist, VOptStr search_album)
                 else (ca, cb) in
               c0 ← map_getitem consensus "artist";
               va_likely ←
                 (if negb c0 then Ok true
                  else
                    a ← value_lower search_artist0;
                    Ok (bool_decide (a ∈ VA_ARTISTS)
                        || existsb Item.comp items));
               candidates0 ←
                 accumulate_all items c
                   (album_candidates items search_artist0 search_album0
                      va_likely extra_tags);
               Ok (ca, cb,
                   mkProposal
                     (_sort_candidates cfg (dict_values candidates0))
                     (_recommendation cfg
                        (_sort_candidates cfg (dict_values candidates0)))))
              = Ok (cur_artist, cur_album, p) ->
              ca = cur_artist /\ cb = cur_album /\
              recommendation p = _recommendation cfg (candidates p) /\
              StronglySorted
                (fun a b => (match_score cfg a <= match_score cfg b)%Qc)
                (candidates p) /\
              NoDup (map candidate_id (candidates p)) /\
              forall m, m ∈ candidates p -> good m).
    { intros c extra_tags Hc.
      destruct (truthy_opt_str search_artist && truthy_opt_str search_album);
        destruct (map_getitem consensus "artist") as [c0|]; res_step;
        try discriminate;
        (destruct (negb c0); res_step;
         [apply (Hsearch c Hc)|]);
        match goal with
        | |- context [value_lower ?v] =>
            destruct (value_lower v) as [a|]; res_step; [|discriminate]
        end;
        apply (Hsearch c Hc). }
    intros Htag.
    enough (ca = cur_artist /\ cb = cur_album /\
            recommendation p = _recommendation cfg (candidates p) /\
            StronglySorted
              (fun a b => (match_score cfg a <= match_score cfg b)%Qc)
              (candidates p) /\
            NoDup (map candidate_id (candidates p)) /\
            forall m, m ∈ candidates p -> good m)
      as (-> & -> & Hr & Hs & Hn & Hg).
    { split; [eauto|]. split; [exact Hr|]. split; [exact Hs|].
      split; [exact Hn|]. exact Hg. }
    destruct (snd (match_by_id album_for_mbid items)) as [id_info|] eqn:Hid;
      [|exact (Hgo [] _ Hempty Htag)].
    destruct (accumulate items [] id_info) as [c1|] eqn:E1;
      [|discriminate Htag]. revert Htag. res_step.
    assert (Hc1 : NoDup (dict_keys c1) /\
                  forall key m, (key, m) ∈ c1 -> good m /\ candidate_id m = key).
    { apply (Hkept [id_info] [] c1); [|
        intros info Hin; apply list_elem_of_singleton in Hin as ->;
        left; reflexivity | exact Hempty].
      cbn [add_candidates]. rewrite E1. reflexivity. }
    destruct (negb (bool_decide (c1 = [])) && negb (Config.timid cfg)
              && bool_decide (_recommendation cfg (dict_values c1) = strong));
      [|exact (Hgo c1 _ Hc1)].
    intros [= -> -> <-]. cbn [candidates recommendation].
    split; [reflexivity|]. split; [reflexivity|]. split; [reflexivity|].
    destruct Hc1 as [Hnd Hall].
    split; [|split].
    + destruct (add_candidate_step cfg string_dist re_match today_year
                  plugins_track_distance plugins_album_distance lapjv
                  item_set_order track_set_order items [] c1 id_info E1)
        as [->|(dist & mp & ei & et & _ & -> & _)].
      * constructor.
      * cbn [dict_set dict_values map snd]. repeat constructor.
    + rewrite candidate_ids_keys; [exact Hnd|].
      intros key m Hin. now apply Hall.
    + intros m Hm. apply list_elem_of_fmap in Hm as ([k m'] & -> & Hin).
      now apply (Hall k m').
  - (* explicit identifiers *)
    destruct (accumulate_all items [] _) as [c|] eqn:Hacc; res_step;
      [|discriminate].
    intros [= -> -> <-].
    destruct (Hkept _ [] c Hacc) as [Hnd Hall]; [|exact Hempty|].
    + intros info Hin. apply list_elem_of_In, in_concat in Hin
        as (l & Hl & Hin).
      apply in_map_iff in Hl as (id & <- & Hid). exists id.
      split; now apply list_elem_of_In.
    + split; [eauto|]. now apply (Hfinish c).
Qed.
End AlbumProposal.

(** The statement above, on an item whose identifier the catalog knows. *)
Lemma tag_album_proposal_witness :
  exists cur_artist cur_album p,
    tag_album Demo.cfg Demo.string_dist Demo.re_match Demo.today_year
              Demo.plugins_track_distance Demo.plugins_album_distance
              Demo.lapjv Demo.item_set_order Demo.track_set_order
              Demo.album_for_mbid Demo.albums_for_id Demo.album_candidates
              [Demo.item1] None None []
    = Ok (cur_artist, cur_album, p) /\
    length (candidates p) = 1%nat /\
    recommendation p = _recommendation Demo.cfg (candidates p) /\
    forall m, m ∈ candidates p ->
      accepted_candidate Demo.cfg Demo.string_dist Demo.re_match
                         Demo.today_year Demo.plugins_track_distance
                         Demo.plugins_album_distance Demo.lapjv
                         Demo.item_set_order Demo.track_set_order
                         [Demo.item1] m.
Proof.
  destruct (tag_album Demo.cfg Demo.string_dist Demo.re_match Demo.today_year
              Demo.plugins_track_distance Demo.plugins_album_distance
              Demo.lapjv Demo.item_set_order Demo.track_set_order
              Demo.album_for_mbid Demo.albums_for_id Demo.album_candidates
              [Demo.item1] None None [])
    as [[[cur_artist cur_album] p]|] eqn:Et;
    [|vm_compute in Et; discriminate].
  destruct (tag_album_proposal
              Demo.cfg Demo.string_dist Demo.re_match Demo.today_year
              Demo.plugins_track_distance Demo.plugins_album_distance
              Demo.lapjv Demo.item_set_order Demo.track_set_order
              Demo.album_for_mbid Demo.albums_for_id Demo.album_candidates
              [Demo.item1] None None [] cur_artist cur_album p Et)
    as (_ & Hrec & _ & _ & Hall).
  exists cur_artist, cur_album, p. split; [reflexivity|]. split; [|split].
  - vm_compute in Et. injection Et as _ _ <-. reflexivity.
  - exact Hrec.
  - intros m Hm. now destruct (Hall m Hm).
Defined.

Section ItemProposal.
Variable cfg : Config.t.
Variable string_dist : Value -> Value -> Qc.
Variable plugins_track_distance : Item.t -> TrackInfo.t -> Distance.t.
Variable tracks_for_id : string -> list TrackInfo.t.
Variable item_candidates : Item.t -> Value -> Value -> list TrackInfo.t.

#[local] Abbreviation item_tracks :=
  (tag_item_tracks cfg string_dist plugins_track_distance).
#[local] Abbreviation item_ids :=
  (tag_item_ids cfg string_dist plugins_track_distance tracks_for_id).
#[local] Abbreviation item_tag :=
  (tag_item cfg string_dist plugins_track_distance tracks_for_id
            item_candidates).
#[local] Abbreviation pair_distance :=
  (track_distance cfg string_dist plugins_track_distance).

(** Storing the candidate of a track keeps the keys distinct and every
    entry the candidate of a track seen, under that track's identifier. *)
Lemma track_candidate_stored (seen : TrackInfo.t -> Prop) (item : Item.t)
    (c : dict (option string) Match) (info : TrackInfo.t) :
  seen info ->
  (NoDup (dict_keys c) /\
   forall key m, (key, m) ∈ c ->
     (exists i, m = TrackMatch (pair_distance item i true) i /\ seen i) /\
     candidate_id m = key) ->
  let c' := dict_set c (TrackInfo.track_id info)
                     (TrackMatch (pair_distance item info true) info) in
  NoDup (dict_keys c') /\
  forall key m, (key, m) ∈ c' ->
    (exists i, m = TrackMatch (pair_distance item i true) i /\ seen i) /\
    candidate_id m = key.
Proof.
  intros Hs [Hnd Hall]. cbv zeta. split; [now apply dict_set_NoDup|].
  intros key m Hin. apply dict_set_elem in Hin as [[-> ->]|Hin].
  - split; [eauto|reflexivity].
  - now apply Hall.
Qed.

(** The loop over the tracks of one identifier, and the loop over the
    identifiers: an early return is the sorted list of such candidates
    with its recommendation. *)
Lemma tag_item_tracks_kept (seen : TrackInfo.t -> Prop) (item : Item.t)
    (infos : list TrackInfo.t) (c : dict (option string) Match)
    (rec : option Recommendation) :
  (forall info, info ∈ infos -> seen info) ->
  (NoDup (dict_keys c) /\
   forall key m, (key, m) ∈ c ->
     (exists i, m = TrackMatch (pair_distance item i true) i /\ seen i) /\
     candidate_id m = key) ->
  match item_tracks item infos c rec with
  | inl p =>
      exists c',
        (NoDup (dict_keys c') /\
         forall key m, (key, m) ∈ c' ->
           (exists i, m = TrackMatch (pair_distance item i true) i /\ seen i) /\
           candidate_id m = key) /\
        p = mkProposal (_sort_candidates cfg (dict_values c'))
              (_recommendation cfg (_sort_candidates cfg (dict_values c')))
  | inr (c', _) =>
      NoDup (dict_keys c') /\
      forall key m, (key, m) ∈ c' ->
        (exists i, m = TrackMatch (pair_distance item i true) i /\ seen i) /\
        candidate_id m = key
  end.
Proof.
  revert c rec. induction infos as [|info infos IH]; intros c rec Hseen Hinv;
    cbn [tag_item_tracks]; [exact Hinv|].
  cbv zeta.
  pose proof (track_candidate_stored seen item c info
                (Hseen info ltac:(now left)) Hinv) as Hinv'.
  cbv zeta in Hinv'.
  destruct (_ && _).
  - eexists. split; [exact Hinv'|reflexivity].
  - apply IH; [|exact Hinv']. intros i Hi. apply Hseen. now right.
Qed.

Lemma tag_item_ids_kept (seen : TrackInfo.t -> Prop) (item : Item.t)
    (trackids : list string) (c : dict (option string) Match)
    (rec : option Recommendation) :
  (forall id info, id ∈ trackids -> info ∈ tracks_for_id id -> seen info) ->
  (NoDup (dict_keys c) /\
   forall key m, (key, m) ∈ c ->
     (exists i, m = TrackMatch (pair_distance item i true) i /\ seen i) /\
     candidate_id m = key) ->
  match item_ids item trackids c rec with
  | inl p =>
      exists c',
        (NoDup (dict_keys c') /\
         forall key m, (key, m) ∈ c' ->
           (exists i, m = TrackMatch (pair_distance item i true) i /\ seen i) /\
           candidate_id m = key) /\
        p = mkProposal (_sort_candidates cfg (dict_values c'))
              (_recommendation cfg (_sort_candidates cfg (dict_values c')))
  | inr (c', _) =>
      NoDup (dict_keys c') /\
      forall key m, (key, m) ∈ c' ->
        (exists i, m = TrackMatch (pair_distance item i true) i /\ seen i) /\
        candidate_id m = key
  end.
Proof.
  revert c rec. induction trackids as [|id trackids IH];
    intros c rec Hseen Hinv; cbn [tag_item_ids]; [exact Hinv|].
  pose proof (tag_item_tracks_kept seen item (tracks_for_id id) c rec
                (fun info Hi => Hseen id info ltac:(now left) Hi) Hinv) as H.
  destruct (item_tracks item (tracks_for_id id) c rec) as [p|[c1 rec1]];
    [exact H|].
  apply IH; [|exact H]. intros id' info Hid. apply Hseen. now right.
Qed.

(** X15.  [tag_item] always returns a proposal.  Its recommendation is the
    one [_recommendation] gives for its candidates; the candidates are in
    ascending order of their scores; no two of them have the same track
    identifier; and each is a track together with its distance from the
    item, the artist included, where the track was found for one of the
    explicit identifiers if there are any, and otherwise for the item's own
    identifier or by the search. *)
Theorem tag_item_candidates (item : Item.t)
    (search_artist search_title : option string)
    (search_ids : option (list string)) :
  let seen info :=
    match search_ids with
    | Some (id0 :: ids) =>
        exists id, id ∈ id0 :: ids /\ info ∈ tracks_for_id id
    | _ =>
        (Item.mb_trackid item <> "" /\
         info ∈ tracks_for_id (Item.mb_trackid item)) \/
        exists artist title, info ∈ item_candidates item artist title
    end in
  exists p,
    item_tag item search_artist search_title search_ids = Ok p /\
    recommendation p = _recommendation cfg (candidates p) /\
    StronglySorted (fun a b => (match_score cfg a <= match_score cfg b)%Qc)
                   (candidates p) /\
    NoDup (map candidate_id (candidates p)) /\
    forall m, m ∈ candidates p ->
      exists info,
        m = TrackMatch (pair_distance item info true) info /\ seen info.
Proof.
  cbv zeta.
  set (seen := fun info =>
         match search_ids with
         | Some (id0 :: ids) =>
             exists id, id ∈ id0 :: ids /\ info ∈ tracks_for_id id
         | _ =>
             (Item.mb_trackid item <> "" /\
              info ∈ tracks_for_id (Item.mb_trackid item)) \/
             exists artist title, info ∈ item_candidates item artist title
         end).
  set (good := fun m =>
         exists i, m = TrackMatch (pair_distance item i true) i /\ seen i).
  assert (Hfinish : forall c,
            (NoDup (dict_keys c) /\
             forall key m, (key, m) ∈ c -> good m /\ candidate_id m = key) ->
            let q := mkProposal (_sort_candidates cfg (dict_values c))
                       (_recommendation cfg
                          (_sort_candidates cfg (dict_values c))) in
            recommendation q = _recommendation cfg (candidates q) /\
            StronglySorted
              (fun a b => (match_score cfg a <= match_score cfg b)%Qc)
              (candidates q) /\
            NoDup (map candidate_id (candidates q)) /\
            forall m, m ∈ candidates q -> good m).
  { intros c [Hnd Hall]. cbv zeta. cbn [candidates recommendation].
    destruct (sorted_values_spec cfg good c Hnd Hall) as (Hs & Hn & Hg & _).
    auto. }
  assert (Hempty : NoDup (dict_keys ([] : dict (option string) Match)) /\
                   forall key m, (key, m) ∈ ([] : dict (option string) Match) ->
                                 good m /\ candidate_id m = key).
  { split; [constructor|]. intros key m H. inversion H. }
  assert (Hinit : tag_item_state cfg [] None).
  { split; [congruence | discriminate]. }
  unfold tag_item.
  set (ids_given := match search_ids with Some (_ :: _) => true | _ => false end).
  set (trackids := if ids_given then default [] search_ids
                   else List.filter truthy_str [Item.mb_trackid item]).
  assert (Hids : forall id info, id ∈ trackids -> info ∈ tracks_for_id id ->
                                 seen info).
  { intros id info Hid Hinfo. subst trackids ids_given seen. cbv beta.
    destruct search_ids as [[|id0 ids]|].
    - cbn [List.filter] in Hid.
      destruct (truthy_str (Item.mb_trackid item)) eqn:E; [|inversion Hid].
      apply list_elem_of_singleton in Hid as ->. left.
      split; [now apply truthy_str_spec|exact Hinfo].
    - exists id. auto.
    - cbn [List.filter] in Hid.
      destruct (truthy_str (Item.mb_trackid item)) eqn:E; [|inversion Hid].
      apply list_elem_of_singleton in Hid as ->. left.
      split; [now apply truthy_str_spec|exact Hinfo]. }
  pose proof (tag_item_ids_kept seen item trackids [] None Hids Hempty) as Hk.
  pose proof (tag_item_ids_state cfg string_dist plugins_track_distance
                tracks_for_id item trackids [] None Hinit) as Hst.
  destruct (item_ids item trackids [] None) as [p|[c rec]].
  - destruct Hk as (c' & Hinv & ->). eexists. split; [reflexivity|].
    apply (Hfinish c' Hinv).
  - destruct Hst as [Hsome Hrec]. destruct ids_given eqn:Hgiven.
    + destruct c as [|kv c].
      * eexists. split; [reflexivity|]. cbn [candidates recommendation].
        split; [reflexivity|]. split; [constructor|]. split; [constructor|].
        intros m H. inversion H.
      * destruct Hsome as [r ->]; [discriminate|].
        eexists. split; [reflexivity|].
        rewrite (Hrec r eq_refl). apply (Hfinish (kv :: c) Hk).
    + assert (Hfold : forall infos c0,
                (forall info, info ∈ infos -> seen info) ->
                (NoDup (dict_keys c0) /\
                 forall key m, (key, m) ∈ c0 ->
                               good m /\ candidate_id m = key) ->
                let c1 :=
                  fold_left
                    (fun candidates0 track_info =>
                       let dist := pair_distance item track_info true in
                       dict_set candidates0 (TrackInfo.track_id track_info)
                                (TrackMatch dist track_info))
                    infos c0 in
                NoDup (dict_keys c1) /\
                forall key m, (key, m) ∈ c1 -> good m /\ candidate_id m = key).
      { induction infos as [|info infos IH]; intros c0 Hseen Hinv;
          cbn [fold_left]; [exact Hinv|].
        apply IH; [intros i Hi; apply Hseen; now right|].
        apply (track_candidate_stored seen item c0 info); [|exact Hinv].
        apply Hseen. now left. }
      assert (Hfound : forall artist title info,
                info ∈ item_candidates item artist title -> seen info).
      { intros artist title info Hin. subst seen ids_given. cbv beta.
        destruct search_ids as [[|id0 ids]|]; [right; eauto|discriminate|
                                               right; eauto]. }
      destruct (truthy_opt_str search_artist && truthy_opt_str search_title);
        eexists; (split; [reflexivity|]);
        apply Hfinish, Hfold; try exact Hk; intros info; apply Hfound.
Qed.
End ItemProposal.

(* ===================================================================== *)
(** * When the release entry point returns *)
(* ===================================================================== *)

Section AlbumReturns.
Variable cfg : Config.t.
Variable string_dist : Value -> Value -> Qc.
Variable re_match : string -> string -> bool.
Variable today_year : Z.
Variable plugins_track_distance : Item.t -> TrackInfo.t -> Distance.t.
Variable plugins_album_distance :
  list Item.t -> AlbumInfo.t -> Mapping -> Distance.t.
Variable lapjv : list (list Qc) -> res (list Z).
Variable item_set_order : list Item.t -> list Item.t.
Variable track_set_order : list TrackInfo.t -> list TrackInfo.t.
Variable album_for_mbid : string -> option AlbumInfo.t.
Variable albums_for_id : string -> list AlbumInfo.t.
Variable album_candidates :
  list Item.t -> Value -> Value -> bool -> option (gmap string Value) ->
  list AlbumInfo.t.

Hypothesis item_set_order_perm :
  forall l, Permutation (item_set_order l) l.
Hypothesis track_set_order_perm :
  forall l, Permutation (track_set_order l) l.

#[local] Abbreviation accumulate :=
  (_add_candidate cfg string_dist re_match today_year plugins_track_distance
                  plugins_album_distance lapjv item_set_order track_set_order).
#[local] Abbreviation accumulate_all :=
  (add_candidates cfg string_dist re_match today_year plugins_track_distance
                  plugins_album_distance lapjv item_set_order track_set_order).
#[local] Abbreviation assign :=
  (assign_items cfg string_dist plugins_track_distance lapjv item_set_order
                track_set_order).
#[local] Abbreviation fits :=
  (solver_fits cfg string_dist plugins_track_distance lapjv).
#[local] Abbreviation album_tag :=
  (tag_album cfg string_dist re_match today_year plugins_track_distance
             plugins_album_distance lapjv item_set_order track_set_order
             album_for_mbid albums_for_id album_candidates).

(** [assign_items] returns when the solver answers with indices of items
    and the keys of the tracks can be compared. *)
Lemma assign_items_returns (items : list Item.t) (tracks : list TrackInfo.t) :
  fits items tracks -> orderable_tracks tracks ->
  exists result, assign items tracks = Ok result.
Proof.
  intros (assigned & Hsolver & Hvalid) Hcomparable.
  unfold assign_items. rewrite Hsolver. res_step.
  destruct (assign_items_mapping_ok items (combine assigned tracks) [])
    as [m Hm].
  { intros p Hp. apply Hvalid. eapply elem_of_combine_fst; eauto. }
  rewrite Hm. res_step.
  destruct (py_sort_ok extra_items_key
              (item_set_order
                 (remove_dups
                    (List.filter
                       (fun i => negb (bool_decide (i ∈ dict_keys m)))
                       items)))) as [ei Hei].
  { intros x y _ _. apply extra_items_comparable. }
  rewrite Hei. res_step.
  destruct (py_sort_ok extra_tracks_key
              (track_set_order
                 (remove_dups
                    (List.filter
                       (fun t => negb (bool_decide (t ∈ dict_values m)))
                       tracks)))) as [et Het].
  { assert (Hin : forall x,
              x ∈ track_set_order
                    (remove_dups
                       (List.filter
                          (fun t => negb (bool_decide (t ∈ dict_values m)))
                          tracks)) -> x ∈ tracks).
    { intros x. rewrite track_set_order_perm, elem_of_remove_dups,
        list_elem_of_In, filter_In, <- list_elem_of_In. tauto. }
    intros x y Hx Hy. apply Hcomparable; auto. }
  rewrite Het. res_step. eauto.
Qed.

(** [_add_candidate] returns for such a release, if the required
    attributes are attributes. *)
Lemma add_candidate_returns (items : list Item.t)
    (results : dict (option string) Match) (info : AlbumInfo.t) :
  items <> [] ->
  (forall tag, tag ∈ Config.required cfg ->
               is_ok (AlbumInfo.getattr info tag) = true) ->
  (AlbumInfo.tracks info <> [] ->
   fits items (AlbumInfo.tracks info) /\
   orderable_tracks (AlbumInfo.tracks info)) ->
  exists results', accumulate items results info = Ok results'.
Proof.
  intros Hne Hreq Hfit. unfold _add_candidate.
  destruct (AlbumInfo.tracks info) as [|t ts] eqn:Et; [eauto|].
  destruct (_ && _); [eauto|].
  destruct (missing_required_ok info (Config.required cfg) Hreq) as [b Hb].
  rewrite Hb. res_step. destruct b; [eauto|].
  destruct Hfit as [Hs Ho]; [discriminate|].
  destruct (assign_items_returns items (t :: ts) Hs Ho)
    as [[[mapping ei] et] Ha].
  rewrite Ha. res_step.
  destruct (distance_steps cfg string_dist re_match today_year
              plugins_track_distance plugins_album_distance items info mapping
              Hne) as (lk & cs & d10 & la & _ & _ & _ & _ & _ & Hd & _).
  rewrite Hd. res_step. destruct (existsb _ _); eauto.
Qed.

Lemma add_candidates_returns (items : list Item.t)
    (infos : list AlbumInfo.t) (results : dict (option string) Match) :
  items <> [] ->
  (forall info tag, info ∈ infos -> tag ∈ Config.required cfg ->
                    is_ok (AlbumInfo.getattr info tag) = true) ->
  (forall info, info ∈ infos -> AlbumInfo.tracks info <> [] ->
     fits items (AlbumInfo.tracks info) /\
     orderable_tracks (AlbumInfo.tracks info)) ->
  exists results', accumulate_all items results infos = Ok results'.
Proof.
  intros Hne. revert results.
  induction infos as [|info infos IH]; intros results Hreq Hfit;
    cbn [add_candidates]; [eauto|].
  destruct (add_candidate_returns items results info Hne) as [r1 H1].
  - intros tag. apply Hreq. now left.
  - apply Hfit. now left.
  - rewrite H1. res_step. apply IH.
    + intros i tag Hi. apply Hreq. now right.
    + intros i Hi. apply Hfit. now right.
Qed.

(** X16.  [tag_album] returns for every non-empty list of items when the
    configured required attributes are attributes of a release and, for
    every release it comes across that has tracks, the solver answers with
    indices of items and the keys (index, title) of the tracks can be
    compared: nothing else in it can fail. *)
Theorem tag_album_returns (items : list Item.t)
    (search_artist search_album : option string) (search_ids : list string) :
  let found info :=
    snd (match_by_id album_for_mbid items) = Some info \/
    (exists id, id ∈ search_ids /\ info ∈ albums_for_id id) \/
    exists artist album va_likely extra_tags,
      info ∈ album_candidates items artist album va_likely extra_tags in
  items <> [] ->
  (forall info tag, tag ∈ Config.required cfg ->
                    is_ok (AlbumInfo.getattr info tag) = true) ->
  (forall info, found info -> AlbumInfo.tracks info <> [] ->
     fits items (AlbumInfo.tracks info) /\
     orderable_tracks (AlbumInfo.tracks info)) ->
  exists cur_artist cur_album p,
    album_tag items search_artist search_album search_ids
    = Ok (cur_artist, cur_album, p).
Proof.
  cbv zeta. intros Hne Hreq Hfit.
  destruct (current_metadata_returns items Hne)
    as (lk & cs & Hcm & [a Ha] & [b Hb] & [c0 Hc0]).
  unfold tag_album. rewrite Hcm. res_step.
  unfold map_getitem at 1. rewrite Ha. res_step.
  unfold map_getitem at 1. rewrite Hb. res_step.
  destruct search_ids as [|id0 ids].
  - assert (Hgo : forall c (extra_tags : option (gmap string Value)),
              exists result,
                (let '(search_artist0, search_album0) :=
                   if truthy_opt_str search_artist
                      && truthy_opt_str search_album
                   then (VOptStr search_artist, VOptStr search_album)
                   else (VStr a, b) in
                 c1 ← map_getitem cs "artist";
                 va_likely ←
                   (if negb c1 then Ok true
                    else
                      a0 ← value_lower search_artist0;
                      Ok (bool_decide (a0 ∈ VA_ARTISTS)
                          || existsb Item.comp items));
                 candidates0 ←
                   accumulate_all items c
                     (album_candidates items search_artist0 search_album0
                        va_likely extra_tags);
                 Ok (VStr a, b,
                     mkProposal
                       (_sort_candidates cfg (dict_values candidates0))
                       (_recommendation cfg
                          (_sort_candidates cfg (dict_values candidates0)))))
                = Ok result).
    { intros c extra_tags.
      assert (Hacc : forall artist album va_likely,
                exists c', accumulate_all items c
                             (album_candidates items artist album va_likely
                                               extra_tags) = Ok c').
      { intros artist album va_likely.
        apply add_candidates_returns; [exact Hne| |].
        - intros info tag _. apply Hreq.
        - intros info Hin. apply Hfit. right. right. eauto. }
      unfold map_getitem. rewrite Hc0. res_step.
      destruct (truthy_opt_str search_artist && truthy_opt_str search_album)
        eqn:Hterms.
      - destruct search_artist as [sa|]; [|discriminate Hterms].
        cbn [VOptStr value_lower]. destruct (negb c0); res_step.
        + destruct (Hacc (VStr sa) (VOptStr search_album) true) as [c' ->].
          res_step. eauto.
        + destruct (Hacc (VStr sa) (VOptStr search_album)
                      (bool_decide (lower sa ∈ VA_ARTISTS)
                       || existsb Item.comp items)) as [c' ->].
          res_step. eauto.
      - cbn [value_lower]. destruct (negb c0); res_step.
        + destruct (Hacc (VStr a) b true) as [c' ->]. res_step. eauto.
        + destruct (Hacc (VStr a) b
                      (bool_decide (lower a ∈ VA_ARTISTS)
                       || existsb Item.comp items)) as [c' ->].
          res_step. eauto. }
    assert (Hfinal : forall c (extra_tags : option (gmap string Value)) r,
              r = (let '(search_artist0, search_album0) :=
                     if truthy_opt_str search_artist
                        && truthy_opt_str search_album
                     then (VOptStr search_artist, VOptStr search_album)
                     else (VStr a, b) in
                   c1 ← map_getitem cs "artist";
                   va_likely ←
                     (if negb c1 then Ok true
                      else
                        a0 ← value_lower search_artist0;
                        Ok (bool_decide (a0 ∈ VA_ARTISTS)
                            || existsb Item.comp items));
                   candidates0 ←
                     accumulate_all items c
                       (album_candidates items search_artist0 search_album0
                          va_likely extra_tags);
                   Ok (VStr a, b,
                       mkProposal
                         (_sort_candidates cfg (dict_values candidates0))
                         (_recommendation cfg
                            (_sort_candidates cfg
                               (dict_values candidates0))))) ->
              exists cur_artist cur_album p, r = Ok (cur_artist, cur_album, p)).
    { intros c extra_tags r ->.
      destruct (Hgo c extra_tags) as [[[ca cb] p] ->]. eauto. }
    destruct (snd (match_by_id album_for_mbid items)) as [id_info|] eqn:Hid;
      [|eapply Hfinal; reflexivity].
    destruct (add_candidate_returns items [] id_info Hne) as [c1 H1].
    + intros tag. apply Hreq.
    + apply Hfit. now left.
    + rewrite H1. res_step.
      destruct (_ && negb (Config.timid cfg) && _); [eauto|].
      eapply Hfinal; reflexivity.
  - destruct (add_candidates_returns items
                (concat (map albums_for_id (id0 :: ids))) [] Hne) as [c Hc].
    + intros info tag _. apply Hreq.
    + intros info Hin. apply Hfit. right. left.
      apply list_elem_of_In, in_concat in Hin as (l & Hl & Hin).
      apply in_map_iff in Hl as (id & <- & Hid). exists id.
      split; now apply list_elem_of_In.
    + rewrite Hc. res_step. eauto.
Qed.
End AlbumReturns.

(** The statement above, on an item whose identifier the catalog knows. *)
Lemma tag_album_returns_witness :
  exists cur_artist cur_album p,
    tag_album Demo.cfg Demo.string_dist Demo.re_match Demo.today_year
              Demo.plugins_track_distance Demo.plugins_album_distance
              Demo.lapjv Demo.item_set_order Demo.track_set_order
              Demo.album_for_mbid Demo.albums_for_id Demo.album_candidates
              [Demo.item1] None None []
    = Ok (cur_artist, cur_album, p).
Proof.
  apply (tag_album_returns
           Demo.cfg Demo.string_dist Demo.re_match Demo.today_year
           Demo.plugins_track_distance Demo.plugins_album_distance
           Demo.lapjv Demo.item_set_order Demo.track_set_order
           Demo.album_for_mbid Demo.albums_for_id Demo.album_candidates
           (fun l => Permutation_refl l) [Demo.item1] None None []).
  - discriminate.
  - intros info tag Hin. inversion Hin.
  - intros info [Hid|[(id & Hin & _)|(artist & album & va & tags & Hin)]] _.
    + vm_compute in Hid. injection Hid as <-. split.
      * exists [0]. split; [vm_compute; reflexivity|].
        intros iidx Hin. apply list_elem_of_singleton in Hin as ->.
        right. simpl. lia.
      * intros a b Ha Hb. apply list_elem_of_singleton in Ha as ->.
        apply list_elem_of_singleton in Hb as ->. reflexivity.
    + inversion Hin.
    + inversion Hin.
Defined.

(* ===================================================================== *)
(** * The extra lists of a candidate and its distance *)
(* ===================================================================== *)

Section CandidateExtras.
Variable cfg : Config.t.
Variable string_dist : Value -> Value -> Qc.
Variable re_match : string -> string -> bool.
Variable today_year : Z.
Variable plugins_track_distance : Item.t -> TrackInfo.t -> Distance.t.
Variable plugins_album_distance :
  list Item.t -> AlbumInfo.t -> Mapping -> Distance.t.
Variable lapjv : list (list Qc) -> res (list Z).
Variable item_set_order : list Item.t -> list Item.t.
Variable track_set_order : list TrackInfo.t -> list TrackInfo.t.

Hypothesis item_set_order_perm :
  forall l, Permutation (item_set_order l) l.
Hypothesis track_set_order_perm :
  forall l, Permutation (track_set_order l) l.

#[local] Abbreviation accepted :=
  (accepted_candidate cfg string_dist re_match today_year
                      plugins_track_distance plugins_album_distance lapjv
                      item_set_order track_set_order).

(** X17.  What a stored candidate reports and what its distance charges
    agree.  For distinct items and a release of distinct tracks, the
    distance of an accepted candidate holds one full "unmatched_tracks"
    penalty per extra item and one full "missing_tracks" penalty per extra
    track; the items paired are those that are not extra, and the tracks
    whose distance is recorded are those of the release that are not
    extra. *)
Theorem accepted_candidate_extras (items : list Item.t)
    (dist : Distance.t) (info : AlbumInfo.t) (mapping : Mapping)
    (extra_items : list Item.t) (extra_tracks : list TrackInfo.t) :
  accepted items (AlbumMatch dist info mapping extra_items extra_tracks) ->
  NoDup items -> NoDup (AlbumInfo.tracks info) ->
  let plugin := plugins_album_distance items info mapping in
  Distance.contributions dist "unmatched_tracks" =
    (repeat 1%Qc (length extra_items)
     ++ Distance.entries_for "unmatched_tracks"
          (Distance._penalties plugin))%list /\
  Distance.contributions dist "missing_tracks" =
    (repeat 1%Qc (length extra_tracks)
     ++ Distance.entries_for "missing_tracks"
          (Distance._penalties plugin))%list /\
  (forall i, i ∈ dict_keys mapping <-> i ∈ items /\ i ∉ extra_items) /\
  (forall t, t ∈ dict_keys (Distance.tracks dist) <->
             t ∈ AlbumInfo.tracks info /\ t ∉ extra_tracks).
Proof.
  intros (dist' & info' & mapping' & ei & et & Hm & _ & _ & Ha & Hd & _)
         Hni Hnt.
  injection Hm as <- <- <- <- <-. cbv zeta.
  destruct (assign_items_sizes cfg string_dist plugins_track_distance lapjv
              item_set_order track_set_order item_set_order_perm
              track_set_order_perm items (AlbumInfo.tracks info) mapping
              extra_items extra_tracks Ha Hni Hnt) as (_ & Hli & Hlt).
  destruct (assign_items_sound cfg string_dist plugins_track_distance lapjv
              item_set_order track_set_order item_set_order_perm
              track_set_order_perm items (AlbumInfo.tracks info) mapping
              extra_items extra_tracks Ha)
    as ((_ & _ & Hki & Hei) & (_ & Hvt & Het) & _).
  destruct (distance_leftover cfg string_dist re_match today_year
              plugins_track_distance plugins_album_distance items info
              mapping dist Hd) as (Hmiss & Hunm & Hkeys & _).
  split; [|split; [|split]].
  - rewrite Hunm. do 2 f_equal. lia.
  - rewrite Hmiss. do 2 f_equal. lia.
  - intros i. split.
    + intros Hi. split; [now apply Hki|].
      intros Hx. apply Hei in Hx as [_ Hx]. contradiction.
    + intros [Hi Hx]. destruct (decide (i ∈ dict_keys mapping)) as [H|H];
        [exact H|]. exfalso. apply Hx, Hei. auto.
  - intros t. rewrite Hkeys. split.
    + intros Ht. split; [now apply Hvt|].
      intros Hx. apply Het in Hx as [_ Hx]. contradiction.
    + intros [Ht Hx]. destruct (decide (t ∈ dict_values mapping)) as [H|H];
        [exact H|]. exfalso. apply Hx, Het. auto.
Qed.
End CandidateExtras.

(** The statement above, on two items and the release of one track: the
    second item is extra, and charged once. *)
Lemma accepted_candidate_extras_witness :
  exists dist mapping,
    distance Demo.cfg Demo.string_dist Demo.re_match Demo.today_year
             Demo.plugins_track_distance Demo.plugins_album_distance
             [Demo.item1; Demo.item2] Demo.release mapping = Ok dist /\
    Distance.contributions dist "unmatched_tracks" = [1%Qc] /\
    Distance.contributions dist "missing_tracks" = [].
Proof.
  destruct (assign_items Demo.cfg Demo.string_dist
              Demo.plugins_track_distance Demo.lapjv Demo.item_set_order
              Demo.track_set_order [Demo.item1; Demo.item2]
              (AlbumInfo.tracks Demo.release))
    as [[[mapping extra_items] extra_tracks]|] eqn:Ea;
    [|vm_compute in Ea; discriminate].
  destruct (distance Demo.cfg Demo.string_dist Demo.re_match Demo.today_year
              Demo.plugins_track_distance Demo.plugins_album_distance
              [Demo.item1; Demo.item2] Demo.release mapping) as [dist|] eqn:Ed;
    [|vm_compute in Ea; injection Ea as <- _ _; vm_compute in Ed; discriminate].
  destruct (accepted_candidate_extras
              Demo.cfg Demo.string_dist Demo.re_match Demo.today_year
              Demo.plugins_track_distance Demo.plugins_album_distance
              Demo.lapjv Demo.item_set_order Demo.track_set_order
              (fun l => Permutation_refl l) (fun l => Permutation_refl l)
              [Demo.item1; Demo.item2] dist Demo.release mapping extra_items
              extra_tracks) as (Hunm & Hmiss & _).
  - exists dist, Demo.release, mapping, extra_items, extra_tracks.
    split; [reflexivity|]. split; [discriminate|]. split; [reflexivity|].
    split; [exact Ea|]. split; [exact Ed|].
    intros penalty Hin. inversion Hin.
  - refine (bool_decide_unpack _ _). vm_compute. exact I.
  - refine (bool_decide_unpack _ _). vm_compute. exact I.
  - exists dist, mapping. split; [exact Ed|].
    vm_compute in Ea. injection Ea as _ <- <-.
    rewrite Hunm, Hmiss. split; reflexivity.
Defined.

(* ===================================================================== *)
(** * The further properties on concrete inputs *)
(* ===================================================================== *)

(** A single candidate of score 0.03 is recommended strongly, and its score
    is below the strong threshold. *)
Lemma recommendation_level_earned_witness :
  (match_score Demo.cfg (Demo.candidate (frac 3 100))
   < Config.strong_rec_thresh Demo.cfg)%Qc.
Proof.
  destruct (proj1 (recommendation_level_earned
                     Demo.cfg [Demo.candidate (frac 3 100)]))
    as (best & rest & E & H).
  - vm_compute. reflexivity.
  - injection E as <- _. exact H.
Defined.

(** Two items that carry "A1": the release "A1" is looked up, once. *)
Lemma match_by_id_unanimous_witness :
  match_by_id Demo.album_for_mbid [Demo.item1; Demo.item2]
  = (["A1"], Demo.album_for_mbid "A1").
Proof.
  apply (proj1 (match_by_id_unanimous Demo.album_for_mbid
                  [Demo.item1; Demo.item2]) "A1").
  - exists Demo.item1. split; [now left|]. split; [reflexivity|discriminate].
  - intros b (i & Hi & Hb & _). apply list_elem_of_In in Hi. simpl in Hi.
    destruct Hi as [<-|[<-|[]]]; now rewrite <- Hb.
Defined.

(** An item and the track of its identifier: no "track_id" penalty. *)
Lemma track_id_factor_witness :
  Distance.contributions
    (track_distance Demo.cfg Demo.string_dist Demo.plugins_track_distance
                    Demo.item_identified Demo.track_identified true)
    "track_id" = [0%Qc].
Proof.
  destruct (proj1 (track_id_factor
                     Demo.cfg Demo.string_dist Demo.plugins_track_distance
                     Demo.item_identified Demo.track_identified true))
    as [H _]; [discriminate|].
  rewrite H. reflexivity.
Defined.


(** The item is number 1, the track the first of its medium and the seventh
    of its release: no "track_index" penalty. *)
Lemma track_index_tolerates_both_numberings_witness :
  Distance.contributions
    (track_distance Demo.cfg Demo.string_dist Demo.plugins_track_distance
                    Demo.item_identified Demo.track_identified true)
    "track_index" = [0%Qc].
Proof.
  destruct (proj2 (track_index_tolerates_both_numberings
                     Demo.cfg Demo.string_dist Demo.plugins_track_distance
                     Demo.item_identified Demo.track_identified true)
                  7 eq_refl) as [H _]; [discriminate|discriminate|].
  rewrite H; [reflexivity|]. now left.
Defined.

(** The summary of one item can be read under "media". *)
Lemma current_metadata_fields_witness :
  exists likelies consensus,
    current_metadata [Demo.item1] = Ok (likelies, consensus) /\
    is_Some (likelies !! "media").
Proof.
  destruct (proj1 (current_metadata_fields [Demo.item1]))
    as (likelies & consensus & Hcm & Hl & _); [discriminate|].
  exists likelies, consensus. split; [exact Hcm|].
  apply Hl. apply list_elem_of_In. simpl. auto 20.
Defined.

(** The distance of one item from the release "A1" has categories of
    [distance] only. *)
Lemma distance_returns_witness :
  exists d,
    distance Demo.cfg Demo.string_dist Demo.re_match Demo.today_year
             Demo.plugins_track_distance Demo.plugins_album_distance
             [Demo.item1] Demo.release [] = Ok d /\
    forall k, k ∈ Distance.keys d -> k ∈ album_categories.
Proof.
  destruct (proj1 (distance_returns
                     Demo.cfg Demo.string_dist Demo.re_match Demo.today_year
                     Demo.plugins_track_distance Demo.plugins_album_distance
                     [Demo.item1] Demo.release []))
    as (d & lk & cs & la & Hd & _ & _ & _ & _ & Hk & _); [discriminate|].
  exists d. split; [exact Hd|].
  intros k Hin. destruct (Hk k Hin) as [H|H]; [exact H|inversion H].
Defined.
